(** * gasim: an artificial-life grid world

    A shallow embedding of [main.c]: the genetic finite-state-machine model,
    the entity heap and the grid of slots, the random placement routines and
    the per-tick update, followed by the properties of the simulation engine.

    Conventions of the embedding.
    - C [int] and [long] values are [Z]; [uint32_t] arithmetic is written
      with its reduction modulo [2^32].
    - [Entity *] pointers are addresses ([nat]) into a heap of objects.
      [malloc] appends a fresh object, so an address is never handed out
      twice and identifies one entity for the whole run; [free] leaves a
      hole.  A grid slot is [option addr], [None] being the null pointer.
    - The code runs in a state-and-error monad.  A run ends in [Ok] or in a
      [Fault]: a failed [assert] or a call of [abort] (tagged with the
      source line), undefined
      behaviour (null or dangling dereference, access outside an array,
      division by zero), or [OutOfFuel] for a loop that has not returned
      within the given number of iterations.
    - The [drand48] family draws from [rand48], the sequence of the raw
      48-bit states of the generator, one per call, with the POSIX
      extraction of the results; the engine is parametrised by it.
    - [events] is a ghost log (it influences nothing): which cell acted,
      which Food was relocated, which cell was born. *)

From Stdlib Require Import ZArith Lia Bool.
From stdpp Require Import base list.

Local Open Scope Z_scope.

(** ** Constants *)

Definition GENE_COUNT : Z := 16.
Definition CELL_SCARCITY : Z := 48.
Definition FOOD_SCARCITY : Z := 11.
Definition CLUMP_COUNT : Z := 30.
Definition CELL_START_SCORE : Z := 250.
Definition FOOD_SCORE : Z := 250.
Definition CELL_MITOSIS_THRESHOLD : Z := 1000.

(** [drand48 () < c] compares [X / 2^48] with the double [c]; on the raw
    48-bit state [X] this is [X < ceil (c * 2^48)].  The two constants are
    that bound for the doubles nearest to 0.03 and 0.05. *)
Definition MUTATION_RATE : Z := 8444249301320.
Definition CLUMP_DRIFT_RATE : Z := 14073748835533.

(** ** Enumerations *)

Inductive FoodSpawn := FOOD_SPAWN_CLUMP | FOOD_SPAWN_RANDOM.
Inductive FoodRebirth := FOOD_REBIRTH_SOMEWHERE | FOOD_REBIRTH_NEARBY.

Inductive Action :=
  | ACTION_MOVE_FORWARD
  | ACTION_TURN_LEFT
  | ACTION_TURN_RIGHT
  | ACTION_MOVE_BACKWARD.

Definition ACTION_MAX : Z := 4.

Definition action_value (a : Action) : Z :=
  match a with
  | ACTION_MOVE_FORWARD => 0
  | ACTION_TURN_LEFT => 1
  | ACTION_TURN_RIGHT => 2
  | ACTION_MOVE_BACKWARD => 3
  end.

(** The enumerator with a given value; used on [lrand48 () % ACTION_MAX],
    which lies in [0, 4). *)
Definition action_of_value (z : Z) : Action :=
  if z =? 0 then ACTION_MOVE_FORWARD
  else if z =? 1 then ACTION_TURN_LEFT
  else if z =? 2 then ACTION_TURN_RIGHT
  else ACTION_MOVE_BACKWARD.

Definition action_costs (a : Action) : Z :=
  match a with
  | ACTION_MOVE_FORWARD => 8
  | ACTION_TURN_LEFT => 3
  | ACTION_TURN_RIGHT => 3
  | ACTION_MOVE_BACKWARD => 5
  end.

Inductive Situation :=
  | SITUATION_EMPTY
  | SITUATION_FOOD
  | SITUATION_LIFE
  | SITUATION_WALL.

Definition situation_value (s : Situation) : nat :=
  match s with
  | SITUATION_EMPTY => 0
  | SITUATION_FOOD => 1
  | SITUATION_LIFE => 2
  | SITUATION_WALL => 3
  end.

Inductive Facing := FACING_NORTH | FACING_EAST | FACING_SOUTH | FACING_WEST.

Definition FACING_MAX : Z := 4.

Definition facing_value (f : Facing) : Z :=
  match f with
  | FACING_NORTH => 0
  | FACING_EAST => 1
  | FACING_SOUTH => 2
  | FACING_WEST => 3
  end.

Definition facing_of_value (z : Z) : Facing :=
  if z =? 0 then FACING_NORTH
  else if z =? 1 then FACING_EAST
  else if z =? 2 then FACING_SOUTH
  else FACING_WEST.

Inductive EntityType := ENTITY_TYPE_NONE | ENTITY_TYPE_CELL | ENTITY_TYPE_FOOD.

Definition entity_type_eqb (a b : EntityType) : bool :=
  match a, b with
  | ENTITY_TYPE_NONE, ENTITY_TYPE_NONE
  | ENTITY_TYPE_CELL, ENTITY_TYPE_CELL
  | ENTITY_TYPE_FOOD, ENTITY_TYPE_FOOD => true
  | _, _ => false
  end.

#[global] Instance Action_eq_dec : EqDecision Action.
Proof. solve_decision. Defined.

#[global] Instance Situation_eq_dec : EqDecision Situation.
Proof. solve_decision. Defined.

#[global] Instance Facing_eq_dec : EqDecision Facing.
Proof. solve_decision. Defined.

#[global] Instance EntityType_eq_dec : EqDecision EntityType.
Proof. solve_decision. Defined.

(** ** Structures *)

Record Response := { action : Action; next_state : Z }.

Record Gene := { responses : list Response }.

Record Chromosome := { genes : list Gene }.

Record Entity := { type : EntityType; last_update_color : Z }.

Record Coord := { x : Z; y : Z }.

Record Cell := {
  cell_entity : Entity;
  state : Z;
  score : Z;
  chromosome : Chromosome;
  facing : Facing;
  color : Z
}.

Record Food := { food_entity : Entity; clump : Z }.

Record Clump := { coord : Coord }.

#[global] Instance Response_eq_dec : EqDecision Response.
Proof. solve_decision. Defined.

#[global] Instance Gene_eq_dec : EqDecision Gene.
Proof. solve_decision. Defined.

#[global] Instance Chromosome_eq_dec : EqDecision Chromosome.
Proof. solve_decision. Defined.

#[global] Instance Entity_eq_dec : EqDecision Entity.
Proof. solve_decision. Defined.

#[global] Instance Coord_eq_dec : EqDecision Coord.
Proof. solve_decision. Defined.

Definition addr := nat.

Record World := {
  width : Z;
  height : Z;
  clumps : list Clump;
  entities : list (option addr)
}.

(** What a heap address holds: every allocation of the program is a [Cell]
    or a [Food], both starting with the [Entity] header. *)
Inductive Object := ObjCell (c : Cell) | ObjFood (f : Food).

(** Reading an object through an [Entity *]. *)
Definition entity_of (o : Object) : Entity :=
  match o with
  | ObjCell c => cell_entity c
  | ObjFood f => food_entity f
  end.

Definition set_entity (e : Entity) (o : Object) : Object :=
  match o with
  | ObjCell c =>
      ObjCell {| cell_entity := e; state := state c; score := score c;
                 chromosome := chromosome c; facing := facing c;
                 color := color c |}
  | ObjFood f => ObjFood {| food_entity := e; clump := clump f |}
  end.

(** Field assignments through a [Cell *]. *)
Definition set_state (v : Z) (c : Cell) : Cell :=
  {| cell_entity := cell_entity c; state := v; score := score c;
     chromosome := chromosome c; facing := facing c; color := color c |}.

Definition set_score (v : Z) (c : Cell) : Cell :=
  {| cell_entity := cell_entity c; state := state c; score := v;
     chromosome := chromosome c; facing := facing c; color := color c |}.

Definition set_chromosome (v : Chromosome) (c : Cell) : Cell :=
  {| cell_entity := cell_entity c; state := state c; score := score c;
     chromosome := v; facing := facing c; color := color c |}.

Definition set_facing (v : Facing) (c : Cell) : Cell :=
  {| cell_entity := cell_entity c; state := state c; score := score c;
     chromosome := chromosome c; facing := v; color := color c |}.

(** ** Ghost events *)

Inductive Event :=
  | EvAct (p : addr) (a : Action)          (* cell [p] ran its response *)
  | EvRelocate (p : addr) (src dst : Coord) (* Food [p] was moved *)
  | EvBirth (child parent : addr).          (* mitosis *)

(** ** Program state and the monad *)

Record State := {
  world : World;
  heap : list (option Object);
  drawn : nat;                 (* how many of them have been consumed *)
  facing_static : Z;           (* [static int facing] of [facing_random] *)
  food_spawn : FoodSpawn;
  food_rebirth : FoodRebirth;
  events : list Event
}.

Definition set_world (w : World) (s : State) : State :=
  {| world := w; heap := heap s; drawn := drawn s;
     facing_static := facing_static s; food_spawn := food_spawn s;
     food_rebirth := food_rebirth s; events := events s |}.

Definition set_heap (h : list (option Object)) (s : State) : State :=
  {| world := world s; heap := h; drawn := drawn s;
     facing_static := facing_static s; food_spawn := food_spawn s;
     food_rebirth := food_rebirth s; events := events s |}.

Definition set_drawn (n : nat) (s : State) : State :=
  {| world := world s; heap := heap s; drawn := n;
     facing_static := facing_static s; food_spawn := food_spawn s;
     food_rebirth := food_rebirth s; events := events s |}.

Definition set_facing_static (v : Z) (s : State) : State :=
  {| world := world s; heap := heap s; drawn := drawn s;
     facing_static := v; food_spawn := food_spawn s;
     food_rebirth := food_rebirth s; events := events s |}.

Definition set_events (l : list Event) (s : State) : State :=
  {| world := world s; heap := heap s; drawn := drawn s;
     facing_static := facing_static s; food_spawn := food_spawn s;
     food_rebirth := food_rebirth s; events := l |}.

Definition set_clumps (l : list Clump) (w : World) : World :=
  {| width := width w; height := height w; clumps := l;
     entities := entities w |}.

Definition set_entities (l : list (option addr)) (w : World) : World :=
  {| width := width w; height := height w; clumps := clumps w;
     entities := l |}.

(** The elementary state changes. *)
Definition heap_set (p : addr) (v : option Object) (s : State) : State :=
  set_heap (<[p := v]> (heap s)) s.

Definition heap_push (o : Object) (s : State) : State :=
  set_heap (heap s ++ [Some o]) s.

Definition slot_set (i : nat) (v : option addr) (s : State) : State :=
  set_world (set_entities (<[i := v]> (entities (world s))) (world s)) s.

Definition clump_set (i : nat) (c : Coord) (s : State) : State :=
  set_world (set_clumps (<[i := {| coord := c |}]> (clumps (world s)))
               (world s)) s.

Definition event_push (e : Event) (s : State) : State :=
  set_events (events s ++ [e]) s.

Inductive Fault :=
  | AssertFailed (line : nat)
  | Aborted (line : nat)
  | Undefined
  | OutOfFuel.

Inductive Result (A : Type) :=
  | Ok (a : A) (s : State)
  | Err (f : Fault).

Arguments Ok {A} a s.
Arguments Err {A} f.

Definition M (A : Type) : Type := State -> Result A.

#[global] Instance M_ret : MRet M := fun A a s => Ok a s.

#[global] Instance M_bind : MBind M := fun A B k m s =>
  match m s with
  | Ok a s' => k a s'
  | Err f => Err f
  end.

Definition fail {A} (f : Fault) : M A := fun _ => Err f.

Definition assert (line : nat) (b : bool) : M unit :=
  if b then mret tt else fail (AssertFailed line).

Definition get_world : M World := fun s => Ok (world s) s.

Definition get_food_spawn : M FoodSpawn := fun s => Ok (food_spawn s) s.

Definition get_food_rebirth : M FoodRebirth := fun s => Ok (food_rebirth s) s.

(** A counted [for] loop over the values of its variable. *)
Fixpoint for_each {A} (l : list A) (body : A -> M unit) : M unit :=
  match l with
  | [] => mret tt
  | a :: l => body a;; for_each l body
  end.

Definition emit (e : Event) : M unit :=
  fun s => Ok tt (event_push e s).

(** *** The heap *)

Definition load (p : addr) : M Object := fun s =>
  match heap s !! p with
  | Some (Some o) => Ok o s
  | _ => Err Undefined
  end.

Definition store (p : addr) (o : Object) : M unit := fun s =>
  match heap s !! p with
  | Some (Some _) => Ok tt (heap_set p (Some o) s)
  | _ => Err Undefined
  end.

Definition malloc (o : Object) : M addr := fun s =>
  Ok (length (heap s)) (heap_push o s).

(** [free (NULL)] does nothing; freeing a dead address is undefined. *)
Definition free (p : option addr) : M unit := fun s =>
  match p with
  | None => Ok tt s
  | Some p =>
      match heap s !! p with
      | Some (Some _) => Ok tt (heap_set p None s)
      | _ => Err Undefined
      end
  end.

(** Access through a [Cell *] or a [Food *]: the cast is only meaningful
    when the object is of that kind. *)
Definition load_cell (p : addr) : M Cell :=
  o ← load p;
  match o with
  | ObjCell c => mret c
  | ObjFood _ => fail Undefined
  end.

Definition load_food (p : addr) : M Food :=
  o ← load p;
  match o with
  | ObjFood f => mret f
  | ObjCell _ => fail Undefined
  end.

Definition update_cell (p : addr) (f : Cell -> Cell) : M unit :=
  c ← load_cell p; store p (ObjCell (f c)).

(** *** The grid: [world->entities[i]] *)

Definition read_slot (i : Z) : M (option addr) := fun s =>
  if i <? 0 then Err Undefined
  else match entities (world s) !! Z.to_nat i with
       | Some v => Ok v s
       | None => Err Undefined
       end.

Definition write_slot (i : Z) (v : option addr) : M unit := fun s =>
  if i <? 0 then Err Undefined
  else match entities (world s) !! Z.to_nat i with
       | Some _ => Ok tt (slot_set (Z.to_nat i) v s)
       | None => Err Undefined
       end.

(** ** The engine, over a random source *)

Section engine.

(** The successive 48-bit states of the generator. *)
Variable rand48 : nat -> Z.

(** *** The random source *)

Definition next48 : M Z := fun s =>
  Ok (rand48 (drawn s) mod 2 ^ 48) (set_drawn (S (drawn s)) s).

(** Non-negative, the high 31 bits. *)
Definition lrand48 : M Z := v ← next48; mret (v / 2 ^ 17).

(** Signed, the high 32 bits. *)
Definition mrand48 : M Z :=
  v ← next48;
  let hi := v / 2 ^ 16 in
  mret (if hi <? 2 ^ 31 then hi else hi - 2 ^ 32).

(** The test [drand48 () < c], with [c] given as its 48-bit bound. *)
Definition drand48_lt (bound : Z) : M bool := v ← next48; mret (v <? bound).

(** ** Geometry *)

Definition coord_in_bounds (c : Coord) (w : World) : bool :=
  (0 <=? x c) && (x c <? width w) && (0 <=? y c) && (y c <? height w).

(** The slot index when the coordinate is on the board, the null pointer
    otherwise.  The index is written as the number [y * width + x]; it is
    the value of the [int] expression of the source on every board with
    [width * height <= INT_MAX], the boards [world_new] can allocate. *)
Definition world_get_entity_ref (w : World) (c : Coord) : option Z :=
  if (0 <=? x c) && (x c <? width w) && (0 <=? y c) && (y c <? height w)
  then Some (y c * width w + x c)
  else None.

(** [++facing % FACING_MAX], with [facing_static] for the [static int],
    which starts at 0 and counts the calls: the increment is the one of the
    source as long as the counter is below [INT_MAX]. *)
Definition facing_random : M Facing := fun s =>
  let v := facing_static s + 1 in
  Ok (facing_of_value (Z.rem v FACING_MAX)) (set_facing_static v s).

Definition facing_turn (f : Facing) (turn : Z) : Facing :=
  let turn := if turn <? 0 then turn * -3 else turn in
  facing_of_value (Z.rem (facing_value f + turn) FACING_MAX).

Definition facing_step (f : Facing) (c : Coord) (steps : Z) : Coord :=
  match f with
  | FACING_NORTH => {| x := x c; y := y c - steps |}
  | FACING_SOUTH => {| x := x c; y := y c + steps |}
  | FACING_WEST => {| x := x c - steps; y := y c |}
  | FACING_EAST => {| x := x c + steps; y := y c |}
  end.

(** ** Genetic model *)

(** One pass of the inner loop body of [chromosome_mutate] on a response. *)
Definition response_mutate (r : Response) : M Response :=
  b1 ← drand48_lt MUTATION_RATE;
  a ← (if b1 : bool
       then v ← lrand48; mret (action_of_value (Z.rem v ACTION_MAX))
       else mret (action r));
  b2 ← drand48_lt MUTATION_RATE;
  n ← (if b2 : bool
       then v ← lrand48; mret (Z.rem v GENE_COUNT)
       else mret (next_state r));
  mret {| action := a; next_state := n |}.

(** The situation loop over [responses[0 .. SITUATION_MAX - 1]]. *)
Fixpoint responses_mutate (l : list Response) : M (list Response) :=
  match l with
  | [] => mret []
  | r :: l =>
      r' ← response_mutate r;
      l' ← responses_mutate l;
      mret (r' :: l')
  end.

(** The state loop over [genes[0 .. GENE_COUNT - 1]]. *)
Fixpoint genes_mutate (l : list Gene) : M (list Gene) :=
  match l with
  | [] => mret []
  | g :: l =>
      rs ← responses_mutate (responses g);
      l' ← genes_mutate l;
      mret ({| responses := rs |} :: l')
  end.

Definition chromosome_mutate (c : Chromosome) : M Chromosome :=
  gs ← genes_mutate (genes c); mret {| genes := gs |}.

Definition to_uint32 (z : Z) : Z := z mod 2 ^ 32.

(** The inner loop of [cell_get_color]: four responses packed into one
    [uint32_t], six bits each. *)
Definition gene_series (g : Gene) : Z :=
  fold_left
    (fun series r =>
       Z.lor (to_uint32 (Z.shiftl series 6))
             (to_uint32 (action_value (action r) * 16
                         + Z.rem (next_state r) 16)))
    (responses g) 0.

(** [None] when [assert (series < (1 << 24))] fails for some gene. *)
Definition cell_get_color (cell : Cell) : option Z :=
  fold_left
    (fun value g =>
       match value with
       | Some v =>
           let series := gene_series g in
           if series <? Z.shiftl 1 24 then Some (Z.lxor v series) else None
       | None => None
       end)
    (genes (chromosome cell)) (Some 0).

(** An object with every byte zero, as the parts of a compound literal
    without an initialiser are. *)
Definition zero_response : Response :=
  {| action := action_of_value 0; next_state := 0 |}.

Definition chromosome_big_square : Chromosome :=
  let gene (i : Z) : Gene :=
    {| responses :=
         [ {| action := ACTION_MOVE_FORWARD; next_state := i + 1 |};
           {| action := ACTION_MOVE_FORWARD; next_state := i + 1 |};
           {| action := ACTION_TURN_LEFT; next_state := 0 |};
           {| action := ACTION_TURN_LEFT; next_state := 0 |} ] |} in
  let last : Gene :=
    {| responses :=
         [ {| action := ACTION_TURN_LEFT; next_state := 0 |};
           zero_response; zero_response; zero_response ] |} in
  let last' : Gene :=
    {| responses :=
         <[situation_value SITUATION_FOOD :=
             {| action := ACTION_MOVE_FORWARD; next_state := 15 |}]>
           (responses last) |} in
  {| genes := map (fun i => gene (Z.of_nat i)) (seq 0 15) ++ [last'] |}.

(** ** Entities *)

Definition zero_chromosome : Chromosome :=
  {| genes := replicate (Z.to_nat GENE_COUNT)
                {| responses := replicate 4%nat zero_response |} |}.

(** The value the compound literal of [cell_new] gives the new cell. *)
Definition blank_cell : Cell :=
  {| cell_entity := {| type := ENTITY_TYPE_CELL; last_update_color := -1 |};
     state := 0; score := 0; chromosome := zero_chromosome;
     facing := facing_of_value 0; color := 0 |}.

(** [cell_new (parent)]: the fields are computed in the order of the
    source and the finished cell is put on the heap; nothing reads the heap
    between the [malloc] and the last assignment. *)
Definition cell_new (parent : option addr) : M addr :=
  cell ← match parent with
         | Some pp =>
             par ← load_cell pp;
             chr ← chromosome_mutate (chromosome par);
             mret {| cell_entity :=
                       {| type := ENTITY_TYPE_CELL;
                          last_update_color :=
                            last_update_color (cell_entity par) |};
                     state := state blank_cell;
                     score := CELL_START_SCORE;
                     chromosome := chr;
                     facing := facing_turn (facing par) 2;
                     color := color blank_cell |}
         | None =>
             chr ← chromosome_mutate chromosome_big_square;
             f ← facing_random;
             mret {| cell_entity := cell_entity blank_cell;
                     state := state blank_cell;
                     score := CELL_START_SCORE;
                     chromosome := chr;
                     facing := f;
                     color := color blank_cell |}
         end;
  match cell_get_color cell with
  | None => fail (AssertFailed 182)
  | Some col =>
      child ← malloc (ObjCell
                 {| cell_entity := cell_entity cell; state := state cell;
                    score := score cell; chromosome := chromosome cell;
                    facing := facing cell; color := col |});
      match parent with
      | Some pp => emit (EvBirth child pp)
      | None => mret tt
      end;;
      mret child
  end.

Definition food_new : M addr :=
  malloc (ObjFood {| food_entity := {| type := ENTITY_TYPE_FOOD;
                                       last_update_color := 0 |};
                     clump := -1 |}).

(** ** Spatial placement *)

Definition INT_MIN : Z := - 2 ^ 31.
Definition INT_MAX : Z := 2 ^ 31 - 1.

(** [long] is 64 bits wide here, so [mrand48 () % range] is a signed
    remainder by the value of the [unsigned int]. *)
Definition random_int (min max : Z) : M Z :=
  let range := to_uint32 (max - min) in
  if range =? 0 then fail Undefined
  else
    r ← mrand48;
    let value := Z.rem r range in
    let value := if value <? 0 then value + range else value in
    assert 243 ((0 <=? value) && (value <? range));;
    let value := value + min in
    assert 245 ((INT_MIN <=? value) && (value <=? INT_MAX));;
    mret value.

Definition perturb_coord (c : Coord) : M Coord :=
  dx ← random_int (-1) 2;
  dy ← random_int (-1) 2;
  mret {| x := x c + dx; y := y c + dy |}.

(** The [while (true)] loop of [find_nearby_empty], run for at most [fuel]
    iterations. *)
Fixpoint find_nearby_empty_loop (fuel : nat) (c : Coord) : M Coord :=
  match fuel with
  | O => fail OutOfFuel
  | S fuel =>
      new_coord ← perturb_coord c;
      w ← get_world;
      match world_get_entity_ref w new_coord with
      | Some ent_ref =>
          e ← read_slot ent_ref;
          match e with
          | None => mret new_coord
          | Some _ => find_nearby_empty_loop fuel new_coord
          end
      | None => find_nearby_empty_loop fuel c
      end
  end.

Definition find_nearby_empty (fuel : nat) (c : Coord) : M Coord :=
  w ← get_world;
  assert 258 (coord_in_bounds c w);;
  find_nearby_empty_loop fuel c.

(** [world->clumps[i].coord], read and written. *)
Definition read_clump (i : Z) : M Coord := fun s =>
  if i <? 0 then Err Undefined
  else match clumps (world s) !! Z.to_nat i with
       | Some c => Ok (coord c) s
       | None => Err Undefined
       end.

Definition write_clump (i : Z) (c : Coord) : M unit := fun s =>
  if i <? 0 then Err Undefined
  else match clumps (world s) !! Z.to_nat i with
       | Some _ => Ok tt (clump_set (Z.to_nat i) c s)
       | None => Err Undefined
       end.

(** The [switch (food_spawn)] of [relocate_food]: the coordinate around
    which the Food reappears. *)
Definition relocate_anchor (food : addr) (c : Coord) : M Coord :=
  w ← get_world;
  spawn ← get_food_spawn;
  rebirth ← get_food_rebirth;
  match spawn with
  | FOOD_SPAWN_RANDOM =>
      match rebirth with
      | FOOD_REBIRTH_NEARBY => mret c
      | FOOD_REBIRTH_SOMEWHERE =>
          cx ← random_int 0 (width w);
          cy ← random_int 0 (height w);
          mret {| x := cx; y := cy |}
      end
  | FOOD_SPAWN_CLUMP =>
      f ← load_food food;
      let clump := clump f in
      drift ← drand48_lt CLUMP_DRIFT_RATE;
      (if drift : bool
       then
         cx ← random_int 0 (width w);
         old ← read_clump clump;
         write_clump clump {| x := cx; y := y old |};;
         cy ← random_int 0 (height w);
         old ← read_clump clump;
         write_clump clump {| x := x old; y := cy |}
       else mret tt);;
      match rebirth with
      | FOOD_REBIRTH_NEARBY => read_clump clump
      | FOOD_REBIRTH_SOMEWHERE =>
          i ← random_int 0 CLUMP_COUNT;
          read_clump i
      end
  end.

Definition relocate_food (fuel : nat) (c : Coord) : M unit :=
  w ← get_world;
  match world_get_entity_ref w c with
  | None => fail Undefined
  | Some food_ref =>
      e ← read_slot food_ref;
      match e with
      | None => fail Undefined
      | Some food =>
          o ← load food;
          assert 368 (entity_type_eqb (type (entity_of o)) ENTITY_TYPE_FOOD);;
          anchor ← relocate_anchor food c;
          dst ← find_nearby_empty fuel anchor;
          match world_get_entity_ref w dst with
          | None => fail Undefined
          | Some new_ref =>
              n ← read_slot new_ref;
              assert 405 (bool_decide (n = None));;
              e ← read_slot food_ref;
              write_slot new_ref e;;
              write_slot food_ref None;;
              match e with
              | Some q => emit (EvRelocate q c dst)
              | None => mret tt
              end
          end
      end
  end.

(** ** The tick engine *)

(** Lines 431-453 of [entity_update]: what the cell sees one step ahead. *)
Definition faced_situation (cell : addr) (start_pos : Coord) : M Situation :=
  c ← load_cell cell;
  w ← get_world;
  let faced_coord := facing_step (facing c) start_pos 1 in
  if (x faced_coord <? 0) || (width w <=? x faced_coord)
     || (y faced_coord <? 0) || (height w <=? y faced_coord)
  then mret SITUATION_WALL
  else
    match world_get_entity_ref w faced_coord with
    | None => fail Undefined
    | Some faced_entity =>
        e ← read_slot faced_entity;
        match e with
        | Some q =>
            o ← load q;
            match type (entity_of o) with
            | ENTITY_TYPE_CELL => mret SITUATION_LIFE
            | ENTITY_TYPE_FOOD => mret SITUATION_FOOD
            | ENTITY_TYPE_NONE => fail (Aborted 448)
            end
        | None => mret SITUATION_EMPTY
        end
    end.

(** The table lookup [c.genes[state].responses[situation]]; [None] outside
    the arrays. *)
Definition chromosome_response (c : Chromosome) (state : Z)
    (situation : Situation) : option Response :=
  match genes c !! Z.to_nat state with
  | Some g => responses g !! situation_value situation
  | None => None
  end.

(** Line 456: [cell->chromosome.genes[cell->state].responses[situation]]. *)
Definition cell_response (c : Cell) (situation : Situation) : M Response :=
  match chromosome_response (chromosome c) (state c) situation with
  | Some r => mret r
  | None => fail Undefined
  end.

(** The step count of line 470, [(ACTION_MOVE_FORWARD ? 1 : -1)]: the
    condition is the enumeration constant itself. *)
Definition move_steps : Z :=
  if action_value ACTION_MOVE_FORWARD =? 0 then -1 else 1.

(** Lines 474-481: what is done about the destination slot.  The result
    tells whether the move is blocked (the [break] of line 479); an empty
    slot is left alone, a Food is eaten and relocated. *)
Definition move_clear_destination (fuel : nat) (cell : addr)
    (dest_coord : Coord) (dest_ent_ptr : Z) : M bool :=
  d ← read_slot dest_ent_ptr;
  match d with
  | Some q =>
      o ← load q;
      if entity_type_eqb (type (entity_of o)) ENTITY_TYPE_FOOD
      then
        update_cell cell (fun c => set_score (score c + FOOD_SCORE) c);;
        relocate_food fuel dest_coord;;
        mret false
      else mret true
  | None => mret false
  end.

(** Lines 482-489: the cell changes slot and, with enough score, leaves a
    child behind.  The result is the new value of [entity]. *)
Definition move_transfer (cell : addr) (entity dest_ent_ptr : Z) : M Z :=
  d ← read_slot dest_ent_ptr;
  assert 482 (bool_decide (d = None));;
  write_slot dest_ent_ptr (Some cell);;
  write_slot entity None;;
  c ← load_cell cell;
  (if CELL_MITOSIS_THRESHOLD <=? score c
   then
     child ← cell_new (Some cell);
     write_slot entity (Some child);;
     update_cell cell (set_score CELL_START_SCORE)
   else mret tt);;
  mret dest_ent_ptr.

(** Lines 466-490, the body shared by the two move cases.  [entity] is the
    slot the cell starts in; the result is the slot it is in afterwards. *)
Definition entity_move (fuel : nat) (cell : addr) (start_pos : Coord)
    (entity : Z) : M Z :=
  c ← load_cell cell;
  w ← get_world;
  let dest_coord := facing_step (facing c) start_pos move_steps in
  if negb (coord_in_bounds dest_coord w) then mret entity
  else
    let dest_ent_ptr := y dest_coord * width w + x dest_coord in
    blocked ← move_clear_destination fuel cell dest_coord dest_ent_ptr;
    if blocked : bool then mret entity
    else move_transfer cell entity dest_ent_ptr.

(** Lines 430-496: the cell, its tag just set, perceives, looks up its
    response, acts and pays.  The result is the slot it is in afterwards
    (the variable [entity] at line 498). *)
Definition cell_act (fuel : nat) (cell : addr) (start_pos : Coord)
    (entity : Z) : M Z :=
  situation ← faced_situation cell start_pos;
  c ← load_cell cell;
  assert 454 ((0 <=? state c) && (state c <? GENE_COUNT));;
  response ← cell_response c situation;
  emit (EvAct cell (action response));;
  entity ← match action response with
           | ACTION_TURN_LEFT =>
               update_cell cell (fun c => set_facing (facing_turn (facing c) (-1)) c);;
               mret entity
           | ACTION_TURN_RIGHT =>
               update_cell cell (fun c => set_facing (facing_turn (facing c) 1) c);;
               mret entity
           | ACTION_MOVE_FORWARD | ACTION_MOVE_BACKWARD =>
               entity_move fuel cell start_pos entity
           end;
  update_cell cell (fun c => set_score (score c - action_costs (action response)) c);;
  update_cell cell (set_state (next_state response));;
  mret entity.

(** Lines 498-501: a cell without energy is destroyed. *)
Definition cell_reap (cell : addr) (entity : Z) : M unit :=
  c ← load_cell cell;
  if score c <=? 0
  then e ← read_slot entity; free e;; write_slot entity None
  else mret tt.

(** Lines 430-501. *)
Definition cell_update (fuel : nat) (cell : addr) (start_pos : Coord)
    (entity : Z) : M unit :=
  entity ← cell_act fuel cell start_pos entity;
  cell_reap cell entity.

Definition entity_update (fuel : nat) (start_pos : Coord) (update_color : Z)
    : M unit :=
  w ← get_world;
  let entity := y start_pos * width w + x start_pos in
  e ← read_slot entity;
  match e with
  | None => mret tt
  | Some p =>
      o ← load p;
      if last_update_color (entity_of o) =? update_color then mret tt
      else
        store p (set_entity {| type := type (entity_of o);
                               last_update_color := update_color |} o);;
        if negb (entity_type_eqb (type (entity_of o)) ENTITY_TYPE_CELL)
        then mret tt
        else cell_update fuel p start_pos entity
  end.

Definition update_world (fuel : nat) (turn_color : Z) : M unit :=
  w ← get_world;
  for_each (seqZ 0 (height w)) (fun y =>
    for_each (seqZ 0 (width w)) (fun x =>
      entity_update fuel {| x := x; y := y |} turn_color)).

(** ** World construction *)

(** The body of the Food loop of [world_new], for the [i]-th Food. *)
Definition world_new_food (fuel : nat) (i : Z) : M unit :=
  let clump_index := Z.rem i CLUMP_COUNT in
  food ← food_new;
  f ← load_food food;
  store food (ObjFood {| food_entity := food_entity f; clump := clump_index |});;
  anchor ← read_clump clump_index;
  c ← find_nearby_empty fuel anchor;
  w ← get_world;
  match world_get_entity_ref w c with
  | None => fail Undefined
  | Some ent_ref => write_slot ent_ref (Some food)
  end.

(** The members of the clump initialiser are evaluated in the order they
    are written. *)
Definition world_new (fuel : nat) (width height : Z) : M unit :=
  (fun s =>
     Ok tt (set_world
              {| width := width; height := height;
                 clumps := replicate (Z.to_nat CLUMP_COUNT)
                             {| coord := {| x := 0; y := 0 |} |};
                 entities := replicate (Z.to_nat (width * height)) None |}
              s));;
  for_each (seqZ 0 (width * height)) (fun i =>
    entity ← (if Z.rem i CELL_SCARCITY =? 0
              then p ← cell_new None; mret (Some p)
              else mret None);
    write_slot i entity);;
  let ai_index := (height / 2) * width + (width / 2) in
  old ← read_slot ai_index;
  free old;;
  ai_cell ← cell_new None;
  update_cell ai_cell (set_chromosome chromosome_big_square);;
  update_cell ai_cell (set_facing FACING_NORTH);;
  write_slot ai_index (Some ai_cell);;
  for_each (seqZ 0 CLUMP_COUNT) (fun i =>
    cx ← random_int 0 width;
    cy ← random_int 0 height;
    write_clump i {| x := cx; y := cy |});;
  for_each (seqZ 0 ((width * height) / FOOD_SCARCITY)) (fun i =>
    world_new_food fuel i).

(** ** A concrete random source *)

(** The generator behind [drand48]: [X' = (a X + c) mod 2^48], seeded by
    [srand48 (seed)]; the [n]-th call uses the state after [n + 1] steps. *)
Definition lcg48_step (v : Z) : Z := Z.land (25214903917 * v + 11) (Z.ones 48).

Definition srand48 (seed : Z) : nat -> Z := fun n =>
  Nat.iter (S n) lcg48_step ((seed mod 2 ^ 32) * 2 ^ 16 + 13070).

(** The state of the program before [main] has built anything. *)
Definition initial_state : State :=
  {| world := {| width := 0; height := 0; clumps := []; entities := [] |};
     heap := [];
     drawn := 0;
     facing_static := 0;
     food_spawn := FOOD_SPAWN_CLUMP;
     food_rebirth := FOOD_REBIRTH_SOMEWHERE;
     events := [] |}.

(** ** Relations between states *)

(** The state after some calls of the random source. *)
Definition draws (s s' : State) : Prop :=
  exists n, (drawn s <= n)%nat /\ s' = set_drawn n s.

(** A step that leaves the heap, the grid and the log alone. *)
Record quiet (s s' : State) : Prop := {
  quiet_heap : heap s' = heap s;
  quiet_entities : entities (world s') = entities (world s);
  quiet_width : width (world s') = width (world s);
  quiet_height : height (world s') = height (world s);
  quiet_events : events s' = events s
}.

(** The entity [p] is referenced from the slot of index [e] and from no
    other slot. *)
Definition cell_at (p : addr) (e : Z) (s : State) : Prop :=
  0 <= e /\
  entities (world s) !! Z.to_nat e = Some (Some p) /\
  forall j, entities (world s) !! j = Some (Some p) -> j = Z.to_nat e.

(** [c'] is [c] with, possibly, another score. *)
Definition same_but_score (c c' : Cell) : Prop :=
  cell_entity c' = cell_entity c /\ state c' = state c /\
  chromosome c' = chromosome c /\ facing c' = facing c /\
  color c' = color c.

(** [child] is a cell born by mitosis from the cell [c] at [p] between
    the states [s] and [s']: its facing is the parent's turned round, it
    has the parent's tag, state 0, the starting score, and the colour of
    the chromosome it got.  That chromosome is what [chromosome_mutate]
    made of the parent's with the draws of the random source from the
    [k]-th on, [k] being where the source stood when [cell_new] was
    called; they are the last draws made, so the source is left where [s']
    has it. *)
Definition mitosis_child (s : State) (c : Cell) (p child : addr)
    (s' : State) : Prop :=
  child <> p /\
  exists ch,
    heap s' !! child = Some (Some (ObjCell ch)) /\
    cell_entity ch = {| type := ENTITY_TYPE_CELL;
                        last_update_color :=
                          last_update_color (cell_entity c) |} /\
    state ch = 0 /\
    score ch = CELL_START_SCORE /\
    facing ch = facing_turn (facing c) 2 /\
    cell_get_color ch = Some (color ch) /\
    exists k,
      (drawn s <= k)%nat /\
      chromosome_mutate (chromosome c) (set_drawn k s)
      = Ok (chromosome ch) (set_drawn (drawn s') s).

(** What lines 466-490 have done when they are over: the cell at [p], which
    was [c] in slot [entity] of [s], is in slot [e'] of [s'] and has the
    score [base].  Either it did not move; or it moved one [move_steps]
    step along its facing, onto a slot that was empty or held a Food (worth
    [FOOD_SCORE]), and then either left its old slot empty or, its score
    having reached the threshold, left a child there and restarted from
    [CELL_START_SCORE]. *)
Definition move_result (c : Cell) (p : addr) (pos : Coord) (entity e' : Z)
    (s s' : State) (base : Z) : Prop :=
  (e' = entity /\ base = score c /\
   entities (world s') = entities (world s))
  \/
  (Z.to_nat e' <> Z.to_nat entity /\
   (let d := facing_step (facing c) pos move_steps in
    e' = y d * width (world s) + x d /\
    coord_in_bounds d (world s) = true) /\
   exists credit,
     ((credit = 0 /\ entities (world s) !! Z.to_nat e' = Some None) \/
      (credit = FOOD_SCORE /\
       exists q, entities (world s) !! Z.to_nat e' = Some (Some q) /\
                 q <> p)) /\
     ((score c + credit < CELL_MITOSIS_THRESHOLD /\
       base = score c + credit /\
       entities (world s') !! Z.to_nat entity = Some None)
      \/
      (CELL_MITOSIS_THRESHOLD <= score c + credit /\
       base = CELL_START_SCORE /\
       exists child,
         entities (world s') !! Z.to_nat entity = Some (Some child) /\
         EvBirth child p ∈ events s' /\
         mitosis_child s c p child s'))).

(** The cell [c] once line 427 has given it the tag [T]. *)
Definition tag_cell (T : Z) (c : Cell) : Cell :=
  {| cell_entity := {| type := type (cell_entity c);
                       last_update_color := T |};
     state := state c; score := score c; chromosome := chromosome c;
     facing := facing c; color := color c |}.


(** Every slot of the board holds an entity. *)
Definition saturated (s : State) : Prop :=
  forall c, coord_in_bounds c (world s) = true ->
    exists q, entities (world s) !! Z.to_nat (y c * width (world s) + x c)
              = Some (Some q).

(** ** The ghost log *)

Definition actors (l : list Event) : list addr :=
  omap (fun e => match e with EvAct p _ => Some p | _ => None end) l.

Definition born (l : list Event) : list addr :=
  omap (fun e => match e with EvBirth c _ => Some c | _ => None end) l.

Definition relocated (l : list Event) : list addr :=
  omap (fun e => match e with EvRelocate p _ _ => Some p | _ => None end) l.

#[global] Arguments actors : simpl never.
#[global] Arguments born : simpl never.
#[global] Arguments relocated : simpl never.

(** The coordinates [update_world] scans, in its order. *)
Definition scan_row (w : World) (row : Z) : list Coord :=
  map (fun col => {| x := col; y := row |}) (seqZ 0 (width w)).

Definition scan_order (w : World) : list Coord :=
  flat_map (scan_row w) (seqZ 0 (height w)).

(** ** The invariant of one pass of [update_world]

    [T] is the tag of the pass and [s0] the state it started in. *)

(** The entity at [q], if alive, carries the tag of this pass. *)
Definition tagged (T : Z) (s : State) (q : addr) : Prop :=
  forall o, heap s !! q = Some (Some o) ->
            last_update_color (entity_of o) = T.

(** ... or it is a Food that was relocated during this pass. *)
Definition good (T : Z) (s : State) (q : addr) : Prop :=
  forall o, heap s !! q = Some (Some o) ->
            last_update_color (entity_of o) = T \/
            (type (entity_of o) = ENTITY_TYPE_FOOD /\
             q ∈ relocated (events s)).

(** [V] is the set of slots the scan has visited. *)
Record pass_inv (T : Z) (s0 : State) (V : nat -> Prop) (s : State) : Prop := {
  pi_nodup : NoDup (actors (events s));
  pi_tagged : forall q,
    q ∈ actors (events s) \/ q ∈ born (events s) -> tagged T s q;
  pi_born : forall q, q ∈ born (events s) -> q ∉ actors (events s);
  pi_alloc : forall q, q ∈ actors (events s) -> (q < length (heap s))%nat;
  pi_origin : forall q, q ∈ actors (events s) ->
    exists o0, heap s0 !! q = Some (Some o0) /\
               last_update_color (entity_of o0) <> T;
  pi_untouched : forall q o,
    heap s !! q = Some (Some o) ->
    last_update_color (entity_of o) <> T ->
    exists o0, heap s0 !! q = Some (Some o0) /\
               last_update_color (entity_of o0) <> T;
  pi_visited : forall j q,
    V j -> entities (world s) !! j = Some (Some q) -> good T s q;
  pi_width : width (world s) = width (world s0);
  pi_height : height (world s) = height (world s0)
}.

(** The invariant while cell [p] acts: it is in the log of this pass. *)
Definition acting (T : Z) (s0 : State) (V : nat -> Prop) (p : addr)
    (s : State) : Prop :=
  pass_inv T s0 V s /\ p ∈ actors (events s).

(** The slot index of a coordinate, as the scan of the pass computes it. *)
Definition slot_of (s0 : State) (c : Coord) : nat :=
  Z.to_nat (y c * width (world s0) + x c).

(** The slots of a list of coordinates. *)
Definition slots_of (s0 : State) (l : list Coord) (j : nat) : Prop :=
  exists c, c ∈ l /\ j = slot_of s0 c.

(** ** Example worlds *)

Definition example_cell (tag st sc : Z) (f : Facing) : Object :=
  ObjCell {| cell_entity := {| type := ENTITY_TYPE_CELL;
                               last_update_color := tag |};
             state := st; score := sc; chromosome := chromosome_big_square;
             facing := f; color := 4256784 |}.

Definition example_food (tag cl : Z) : Object :=
  ObjFood {| food_entity := {| type := ENTITY_TYPE_FOOD;
                               last_update_color := tag |};
             clump := cl |}.

(** A board one slot wide and three high: an empty slot, below it a cell
    facing north, below that a Food; nothing has the tag 1 yet. *)
Definition column_state : State :=
  {| world := {| width := 1; height := 3;
                 clumps := replicate 30%nat {| coord := {| x := 0; y := 0 |} |};
                 entities := [None; Some 0%nat; Some 1%nat] |};
     heap := [Some (example_cell 0 0 250 FACING_NORTH);
              Some (example_food 0 0)];
     drawn := 0; facing_static := 0;
     food_spawn := FOOD_SPAWN_CLUMP; food_rebirth := FOOD_REBIRTH_SOMEWHERE;
     events := [] |}.

(** A full board, one slot wide and three high: a cell facing north
    between two Foods. *)
Definition full_state : State :=
  {| world := {| width := 1; height := 3;
                 clumps := replicate 30%nat {| coord := {| x := 0; y := 0 |} |};
                 entities := [Some 1%nat; Some 0%nat; Some 2%nat] |};
     heap := [Some (example_cell 0 0 250 FACING_NORTH);
              Some (example_food 0 0); Some (example_food 0 1)];
     drawn := 0; facing_static := 0;
     food_spawn := FOOD_SPAWN_CLUMP; food_rebirth := FOOD_REBIRTH_SOMEWHERE;
     events := [] |}.

(** The same column with the cell facing south, the Food straight ahead. *)
Definition column_south_state : State :=
  set_heap [Some (example_cell 0 0 250 FACING_SOUTH);
            Some (example_food 0 0)] column_state.

(** A board of three by three with one cell, in the centre, facing north. *)
Definition plaza_state : State :=
  {| world := {| width := 3; height := 3;
                 clumps := replicate 30%nat {| coord := {| x := 0; y := 0 |} |};
                 entities := [None; None; None;
                              None; Some 0%nat; None;
                              None; None; None] |};
     heap := [Some (example_cell 0 0 250 FACING_NORTH)];
     drawn := 0; facing_static := 0;
     food_spawn := FOOD_SPAWN_CLUMP; food_rebirth := FOOD_REBIRTH_SOMEWHERE;
     events := [] |}.

(** The plaza with the score of its cell set to [sc]. *)
Definition plaza_with (sc : Z) : State :=
  set_heap [Some (example_cell 0 0 sc FACING_NORTH)] plaza_state.

(** ** Functions the engine does not call *)

(** [m], run [n] times: a counted loop that fills an array. *)
Fixpoint fill_array {A} (n : nat) (m : M A) : M (list A) :=
  match n with
  | O => mret []
  | S n => a ← m; l ← fill_array n m; mret (a :: l)
  end.

(** The compound literal of [chromosome_random]; the two calls of its
    initialiser are made in the order they are written. *)
Definition response_random : M Response :=
  a ← lrand48;
  n ← lrand48;
  mret {| action := action_of_value (Z.rem a ACTION_MAX);
          next_state := Z.rem n GENE_COUNT |}.

(** Every response is assigned by the loops, so nothing is left of the
    bytes [memset] wrote. *)
Definition chromosome_random : M Chromosome :=
  gs ← fill_array (Z.to_nat GENE_COUNT)
         (rs ← fill_array 4%nat response_random; mret {| responses := rs |});
  mret {| genes := gs |}.

Definition coord_equal (self other : Coord) : bool :=
  (x self =? x other) && (y self =? y other).

(** ** Code that uses the state as a random source only *)

(** [m] reads nothing of the state but the position of the random source
    and changes nothing else: from two states that agree on that position
    it returns the same value after the same number of draws, or fails the
    same way. *)
Definition rng_only {A} (m : M A) : Prop :=
  forall s1 s2, drawn s1 = drawn s2 ->
    match m s1 with
    | Ok a t1 => exists n, t1 = set_drawn n s1 /\ m s2 = Ok a (set_drawn n s2)
    | Err f => m s2 = Err f
    end.

(** ** Values of the C types *)

(** The values of an [int]. *)
Definition in_int (z : Z) : Prop := INT_MIN <= z <= INT_MAX.

(** ** Valid genetic material *)

Definition valid_response (r : Response) : Prop :=
  0 <= next_state r < GENE_COUNT.

Definition valid_gene (g : Gene) : Prop :=
  length (responses g) = 4%nat /\ Forall valid_response (responses g).

(** [GENE_COUNT] genes of [SITUATION_MAX] responses, every [next_state] the
    index of a gene. *)
Definition valid_chromosome (c : Chromosome) : Prop :=
  length (genes c) = Z.to_nat GENE_COUNT /\ Forall valid_gene (genes c).

(** ** Well-formed worlds *)

(** What a cell on the board satisfies whatever its score. *)
Definition valid_cell_shape (c : Cell) : Prop :=
  type (cell_entity c) = ENTITY_TYPE_CELL /\
  0 <= state c < GENE_COUNT /\
  valid_chromosome (chromosome c) /\
  0 <= color c < 2 ^ 24.

(** Between two updates the score of a cell is positive and below the
    mitosis threshold. *)
Definition valid_cell (c : Cell) : Prop :=
  valid_cell_shape c /\ 0 < score c < CELL_MITOSIS_THRESHOLD.

Definition valid_food (f : Food) : Prop :=
  type (food_entity f) = ENTITY_TYPE_FOOD /\ 0 <= clump f < CLUMP_COUNT.

Definition valid_object (o : Object) : Prop :=
  match o with
  | ObjCell c => valid_cell c
  | ObjFood f => valid_food f
  end.

(** While the cell at [p] is being updated its score is in transit. *)
Definition acting_valid (p q : addr) (o : Object) : Prop :=
  if decide (q = p)
  then exists c, o = ObjCell c /\ valid_cell_shape c
  else valid_object o.

(** The board [ents] of [W] by [H] slots, the anchors [cl] and the heap
    [hp] fit together: the anchors lie on the board; every occupied slot
    points to a live object, no two to the same one; every live object is
    in a slot; and every live object satisfies [P]. *)
Record wf_parts (P : addr -> Object -> Prop) (W H : Z) (cl : list Clump)
    (ents : list (option addr)) (hp : list (option Object)) : Prop := {
  wf_width : 0 < W;
  wf_height : 0 < H;
  wf_area : W * H <= INT_MAX;
  wf_slots : length ents = Z.to_nat (W * H);
  wf_clumps : length cl = Z.to_nat CLUMP_COUNT;
  wf_anchors : forall c, c ∈ cl ->
    0 <= x (coord c) < W /\ 0 <= y (coord c) < H;
  wf_live : forall j p, ents !! j = Some (Some p) ->
    exists o, hp !! p = Some (Some o);
  wf_once : forall j1 j2 p,
    ents !! j1 = Some (Some p) -> ents !! j2 = Some (Some p) -> j1 = j2;
  wf_owned : forall p o, hp !! p = Some (Some o) ->
    exists j, ents !! j = Some (Some p);
  wf_valid : forall p o, hp !! p = Some (Some o) -> P p o
}.

Definition wf_state (P : addr -> Object -> Prop) (s : State) : Prop :=
  wf_parts P (width (world s)) (height (world s)) (clumps (world s))
    (entities (world s)) (heap s).

Definition well_formed (s : State) : Prop :=
  wf_state (fun _ => valid_object) s.

(** ** Outcomes *)

(** The run [r] ends in a state that satisfies [Q], or it runs out of fuel:
    no assertion fails, [abort] is not called, nothing undefined is
    done. *)
Definition fine {A} (r : Result A) (Q : A -> State -> Prop) : Prop :=
  match r with
  | Ok a s' => Q a s'
  | Err f => f = OutOfFuel
  end.

(** [s'] differs from [s] at most in the random draws made and in where
    the anchors are, which stay on the board if they were. *)
Record drift (s s' : State) : Prop := {
  dr_heap : heap s' = heap s;
  dr_entities : entities (world s') = entities (world s);
  dr_width : width (world s') = width (world s);
  dr_height : height (world s') = height (world s);
  dr_spawn : food_spawn s' = food_spawn s;
  dr_rebirth : food_rebirth s' = food_rebirth s;
  dr_events : events s' = events s;
  dr_drawn : (drawn s <= drawn s')%nat;
  dr_clumps : length (clumps (world s')) = length (clumps (world s));
  dr_anchors :
    (forall c, c ∈ clumps (world s) ->
       0 <= x (coord c) < width (world s) /\
       0 <= y (coord c) < height (world s)) ->
    forall c, c ∈ clumps (world s') ->
      0 <= x (coord c) < width (world s) /\
      0 <= y (coord c) < height (world s)
}.

(** What the update of the cell at [p], in a pass with tag [T], leaves of
    the rest of [s] in [s']: the dimensions and the settings; the live
    objects other than [p]; the slots of the cells other than [p]; the log
    so far.  What is new on the heap is a cell with the tag [T]. *)
Record frame (p : addr) (T : Z) (s s' : State) : Prop := {
  fr_width : width (world s') = width (world s);
  fr_height : height (world s') = height (world s);
  fr_spawn : food_spawn s' = food_spawn s;
  fr_rebirth : food_rebirth s' = food_rebirth s;
  fr_events : exists l, events s' = events s ++ l;
  fr_self : (p < length (heap s))%nat;
  fr_grow : (length (heap s) <= length (heap s'))%nat;
  fr_heap : forall q, q <> p -> (q < length (heap s))%nat ->
    heap s' !! q = heap s !! q;
  fr_cells : forall q c j, q <> p ->
    heap s !! q = Some (Some (ObjCell c)) ->
    (entities (world s') !! j = Some (Some q) <->
     entities (world s) !! j = Some (Some q));
  fr_new : forall q o, (length (heap s) <= q)%nat ->
    heap s' !! q = Some (Some o) ->
    exists c, o = ObjCell c /\ last_update_color (cell_entity c) = T
}.

(** The cell at [p] is being updated: it is [c] and sits in slot [e]. *)
Record acting_at (p : addr) (e : Z) (c : Cell) (s : State) : Prop := {
  aa_wf : wf_state (acting_valid p) s;
  aa_index : 0 <= e;
  aa_slot : entities (world s) !! Z.to_nat e = Some (Some p);
  aa_cell : heap s !! p = Some (Some (ObjCell c))
}.

(** What [entity_update] at [pos], in a pass with tag [T], makes of a
    well-formed world [s]: the world stays well-formed; nothing changes
    for the entities other than the one in the slot of [pos], except that
    a Food may change slot; an empty slot or an entity that has the tag
    already leaves the state as it is; a Food gets the tag; a cell with
    another tag gets the tag and acts, once. *)
Record update_post (T : Z) (pos : Coord) (s s' : State) : Prop := {
  up_wf : well_formed s';
  up_width : width (world s') = width (world s);
  up_height : height (world s') = height (world s);
  up_spawn : food_spawn s' = food_spawn s;
  up_rebirth : food_rebirth s' = food_rebirth s;
  up_events : exists l, events s' = events s ++ l;
  up_grow : (length (heap s) <= length (heap s'))%nat;
  up_heap : forall q,
    entities (world s) !! slot_of s pos <> Some (Some q) ->
    (q < length (heap s))%nat ->
    heap s' !! q = heap s !! q;
  up_cells : forall q c j,
    entities (world s) !! slot_of s pos <> Some (Some q) ->
    heap s !! q = Some (Some (ObjCell c)) ->
    (entities (world s') !! j = Some (Some q) <->
     entities (world s) !! j = Some (Some q));
  up_new : forall q o,
    (length (heap s) <= q)%nat ->
    heap s' !! q = Some (Some o) ->
    exists c, o = ObjCell c /\ last_update_color (cell_entity c) = T;
  up_idle : entities (world s) !! slot_of s pos = Some None -> s' = s;
  up_food : forall p f,
    entities (world s) !! slot_of s pos = Some (Some p) ->
    heap s !! p = Some (Some (ObjFood f)) ->
    (exists f', heap s' !! p = Some (Some (ObjFood f')) /\
                clump f' = clump f /\
                last_update_color (food_entity f') = T) /\
    entities (world s') = entities (world s) /\
    events s' = events s;
  up_cell : forall p c,
    entities (world s) !! slot_of s pos = Some (Some p) ->
    heap s !! p = Some (Some (ObjCell c)) ->
    (last_update_color (cell_entity c) = T -> s' = s) /\
    (last_update_color (cell_entity c) <> T ->
     actors (events s') = actors (events s) ++ [p] /\
     (heap s' !! p = Some None \/
      exists c', heap s' !! p = Some (Some (ObjCell c')) /\
                 last_update_color (cell_entity c') = T))
}.

(** Where a pass of [update_world] with tag [T], begun in [s0], stands
    when it has scanned the coordinates [d]: the world is well-formed; the
    Foods are those of [s0]; the cells of the scanned slots that had
    another tag have acted; those of the other slots wait in their slot,
    untouched. *)
Record scan_inv (T : Z) (s0 : State) (d : list Coord) (s : State) : Prop := {
  si_wf : well_formed s;
  si_width : width (world s) = width (world s0);
  si_height : height (world s) = height (world s0);
  si_spawn : food_spawn s = food_spawn s0;
  si_rebirth : food_rebirth s = food_rebirth s0;
  si_events : exists l, events s = events s0 ++ l;
  si_grow : (length (heap s0) <= length (heap s))%nat;
  si_foods : forall q f,
    heap s0 !! q = Some (Some (ObjFood f)) ->
    exists f', heap s !! q = Some (Some (ObjFood f')) /\ clump f' = clump f;
  si_no_new_food : forall q f',
    heap s !! q = Some (Some (ObjFood f')) ->
    exists f, heap s0 !! q = Some (Some (ObjFood f));
  si_acted : forall c q cell,
    c ∈ d ->
    entities (world s0) !! slot_of s0 c = Some (Some q) ->
    heap s0 !! q = Some (Some (ObjCell cell)) ->
    last_update_color (cell_entity cell) <> T ->
    q ∈ actors (events s);
  si_waiting : forall c q cell,
    coord_in_bounds c (world s0) = true ->
    c ∉ d ->
    entities (world s0) !! slot_of s0 c = Some (Some q) ->
    heap s0 !! q = Some (Some (ObjCell cell)) ->
    entities (world s) !! slot_of s0 c = Some (Some q) /\
    heap s !! q = Some (Some (ObjCell cell))
}.

(** An entity as [world_new] leaves it: a cell in state 0 with the starting
    score and the tag -1, a Food with the tag 0. *)
Definition fresh_object (o : Object) : Prop :=
  match o with
  | ObjCell c =>
      last_update_color (cell_entity c) = -1 /\ state c = 0 /\
      score c = CELL_START_SCORE
  | ObjFood f => last_update_color (food_entity f) = 0
  end.

Definition new_valid (q : addr) (o : Object) : Prop :=
  valid_object o /\ fresh_object o.

(** What [world_new (width, height)] has built. *)
Record world_new_post (W H : Z) (s s' : State) : Prop := {
  wn_wf : wf_state new_valid s';
  wn_width : width (world s') = W;
  wn_height : height (world s') = H;
  wn_spawn : food_spawn s' = food_spawn s;
  wn_rebirth : food_rebirth s' = food_rebirth s;
  wn_events : events s' = events s;
  wn_ancestor : exists p c,
    entities (world s') !! Z.to_nat ((H / 2) * W + W / 2) = Some (Some p) /\
    heap s' !! p = Some (Some (ObjCell c)) /\
    chromosome c = chromosome_big_square /\
    facing c = FACING_NORTH
}.

(** The state while the board is filled: the slots from [i] on are still
    empty. *)
Record filling (W H : Z) (s0 : State) (i : nat) (s : State) : Prop := {
  fl_wf : wf_state new_valid s;
  fl_width : width (world s) = W;
  fl_height : height (world s) = H;
  fl_spawn : food_spawn s = food_spawn s0;
  fl_rebirth : food_rebirth s = food_rebirth s0;
  fl_events : events s = events s0;
  fl_rest : forall j, (i <= j < length (entities (world s)))%nat ->
    entities (world s) !! j = Some None
}.


(** The slot [ai] holds the ancestor: a cell with the seed chromosome that
    faces north. *)
Definition ancestor_at (ai : nat) (s : State) : Prop :=
  exists p c,
    entities (world s) !! ai = Some (Some p) /\
    heap s !! p = Some (Some (ObjCell c)) /\
    chromosome c = chromosome_big_square /\
    facing c = FACING_NORTH.

(** The state while the Foods are placed. *)
Record placing (W H : Z) (s0 : State) (ai : nat) (s : State) : Prop := {
  pl_wf : wf_state new_valid s;
  pl_width : width (world s) = W;
  pl_height : height (world s) = H;
  pl_spawn : food_spawn s = food_spawn s0;
  pl_rebirth : food_rebirth s = food_rebirth s0;
  pl_events : events s = events s0;
  pl_ancestor : ancestor_at ai s
}.


(** ** Drawing *)

(** The conversion of a [size_t] to the [Sint16] of an [SDL_Rect]. *)
Definition to_sint16 (z : Z) : Z :=
  let m := z mod 2 ^ 16 in if m <? 2 ^ 15 then m else m - 2 ^ 16.

(** A call of [SDL_FillRect]: the rectangle and the colour. *)
Record Fill := {
  fill_x : Z;
  fill_y : Z;
  fill_w : Z;
  fill_h : Z;
  fill_color : Z
}.

Definition cell_size : Z := 8.

(** The body of the inner loop of [draw_screen]; [food_color] and
    [no_color] are what [SDL_MapRGB] returned for the screen. *)
Definition draw_slot (food_color no_color : Z) (cx cy : Z) : M Fill :=
  w ← get_world;
  e ← read_slot (cy * width w + cx);
  col ← match e with
        | Some p =>
            o ← load p;
            match type (entity_of o) with
            | ENTITY_TYPE_FOOD => mret food_color
            | ENTITY_TYPE_CELL => c ← load_cell p; mret (color c)
            | ENTITY_TYPE_NONE => fail (Aborted 324)
            end
        | None => mret no_color
        end;
  mret {| fill_x := to_sint16 (cx * cell_size);
          fill_y := to_sint16 (cy * cell_size);
          fill_w := cell_size; fill_h := cell_size;
          fill_color := col |}.

(** A counted loop that collects what its body hands out. *)
Fixpoint for_collect {A B} (l : list A) (body : A -> M B) : M (list B) :=
  match l with
  | [] => mret []
  | a :: l => b ← body a; bs ← for_collect l body; mret (b :: bs)
  end.

(** The screen is outside the state: the result is the sequence of the
    calls of [SDL_FillRect].  The loops compare their [size_t] counters
    with the dimensions, which for the positive dimensions of a world is
    the comparison of the numbers. *)
Definition draw_screen (food_color no_color : Z) : M (list Fill) :=
  w ← get_world;
  rows ← for_collect (seqZ 0 (height w)) (fun cy =>
            for_collect (seqZ 0 (width w)) (fun cx =>
              draw_slot food_color no_color cx cy));
  mret (concat rows).

(** The square [draw_screen] paints for the slot of [c]. *)
Definition slot_color (food_color no_color : Z) (s : State) (c : Coord) : Z :=
  match entities (world s) !! slot_of s c with
  | Some (Some p) =>
      match heap s !! p with
      | Some (Some (ObjCell cell)) => color cell
      | Some (Some (ObjFood _)) => food_color
      | _ => no_color
      end
  | _ => no_color
  end.

Definition fill_of (food_color no_color : Z) (s : State) (c : Coord) : Fill :=
  {| fill_x := to_sint16 (x c * cell_size);
     fill_y := to_sint16 (y c * cell_size);
     fill_w := cell_size; fill_h := cell_size;
     fill_color := slot_color food_color no_color s c |}.

(** ** The main loop *)

(** [!turn_color] *)
Definition lnot (v : Z) : Z := if v =? 0 then 1 else 0.

(** One iteration of the loop of [main], up to the poll of the event
    queue: the tag is flipped, the screen drawn and the world updated.
    The ghost log is started afresh, so that it is the log of the tick. *)
Definition tick (fuel : nat) (food_color no_color : Z) (turn_color : Z)
    : M Z :=
  let turn_color := lnot turn_color in
  draw_screen food_color no_color;;
  (fun s => Ok tt (set_events [] s));;
  update_world fuel turn_color;;
  mret turn_color.

(** The loop of [main].  [polls] tells for each frame whether the event
    queue held [SDL_QUIT]; the world is updated also in the frame in which
    it did.  A list that ends before a quit stands for a run that is still
    going on. *)
Fixpoint main_loop (fuel : nat) (food_color no_color : Z)
    (polls : list bool) (turn_color : Z) : M unit :=
  match polls with
  | [] => fail OutOfFuel
  | quit :: polls =>
      turn_color ← tick fuel food_color no_color turn_color;
      if quit : bool then mret tt
      else main_loop fuel food_color no_color polls turn_color
  end.

(** [main]: the seed of [srand48] is the choice of [rand48]. *)
Definition main (fuel : nat) (food_color no_color : Z) (polls : list bool)
    : M unit :=
  world_new fuel 80 60;;
  main_loop fuel food_color no_color polls 0.

(** Every cell of [s] carries another tag than the one the next tick will
    use. *)
Definition synced (turn_color : Z) (s : State) : Prop :=
  well_formed s /\
  forall q c, heap s !! q = Some (Some (ObjCell c)) ->
              last_update_color (cell_entity c) <> lnot turn_color.


(** What a pass makes of a world [s] all of whose cells carry the tag
    already: nothing but the tags of Foods can differ in [s']. *)
Record idle_pass (s s' : State) : Prop := {
  ip_wf : well_formed s';
  ip_world : world s' = world s;
  ip_events : events s' = events s;
  ip_drawn : drawn s' = drawn s;
  ip_static : facing_static s' = facing_static s;
  ip_cells : forall q c,
    heap s' !! q = Some (Some (ObjCell c)) <->
    heap s !! q = Some (Some (ObjCell c));
  ip_foods : forall q f,
    heap s !! q = Some (Some (ObjFood f)) ->
    exists f', heap s' !! q = Some (Some (ObjFood f')) /\
               clump f' = clump f
}.

(** ** The pass as one loop *)

(** The pass of [update_world] over the coordinates [l], in their order. *)
Definition scan (fuel : nat) (T : Z) (l : list Coord) : M unit :=
  for_each l (fun c => entity_update fuel c T).

(** Where the tags stand when a pass with tag [T], begun in [s0], has
    scanned the coordinates [d] and reached [s].  An entity without the tag
    is as it was in [s0]; a Food that the scan found in the slot it
    visited carries the tag; a Food of [s0] is the same still, or the scan
    has found it. *)
Record tag_inv (fuel : nat) (T : Z) (s0 : State) (d : list Coord)
    (s : State) : Prop := {
  ti_run : scan fuel T d s0 = Ok tt s;
  ti_wf : well_formed s;
  ti_width : width (world s) = width (world s0);
  ti_height : height (world s) = height (world s0);
  ti_kept : forall p o,
    heap s !! p = Some (Some o) ->
    last_update_color (entity_of o) <> T ->
    heap s0 !! p = Some (Some o);
  ti_found : forall l1 c l2 s1 p f,
    d = l1 ++ c :: l2 ->
    scan fuel T l1 s0 = Ok tt s1 ->
    entities (world s1) !! slot_of s0 c = Some (Some p) ->
    heap s1 !! p = Some (Some (ObjFood f)) ->
    exists f', heap s !! p = Some (Some (ObjFood f')) /\
               last_update_color (food_entity f') = T;
  ti_missed : forall p f,
    heap s0 !! p = Some (Some (ObjFood f)) ->
    heap s !! p = Some (Some (ObjFood f)) \/
    exists l1 c l2 s1 f1,
      d = l1 ++ c :: l2 /\
      scan fuel T l1 s0 = Ok tt s1 /\
      entities (world s1) !! slot_of s0 c = Some (Some p) /\
      heap s1 !! p = Some (Some (ObjFood f1))
}.

(** ** More example worlds *)


(** * Reasoning about runs *)

Lemma bind_Ok {A B} (m : M A) (k : A -> M B) s b s' :
  (m ≫= k) s = Ok b s' -> exists a s1, m s = Ok a s1 /\ k a s1 = Ok b s'.
Proof.
  unfold mbind, M_bind. destruct (m s) as [a s1|f]; [eauto | discriminate].
Qed.

Lemma bind_run {A B} (m : M A) (k : A -> M B) s a s1 :
  m s = Ok a s1 -> (m ≫= k) s = k a s1.
Proof. unfold mbind, M_bind. intros ->. reflexivity. Qed.

Lemma mret_Ok {A} (a b : A) s s' : (mret a : M A) s = Ok b s' -> b = a /\ s' = s.
Proof. unfold mret, M_ret. intros [= -> ->]. auto. Qed.

Lemma assert_Ok line b s u s' : assert line b s = Ok u s' -> b = true /\ s' = s.
Proof. unfold assert. destruct b; [intros [= _ ->]; auto | discriminate]. Qed.

Lemma get_world_Ok s w s' : get_world s = Ok w s' -> w = world s /\ s' = s.
Proof. intros [= <- <-]. auto. Qed.

Lemma load_Ok p s o s' :
  load p s = Ok o s' -> heap s !! p = Some (Some o) /\ s' = s.
Proof.
  unfold load. destruct (heap s !! p) as [[o'|]|]; [|discriminate..].
  intros [= -> ->]. auto.
Qed.

Lemma store_Ok p o s u s' :
  store p o s = Ok u s' ->
  (exists o', heap s !! p = Some (Some o')) /\
  s' = heap_set p (Some o) s.
Proof.
  unfold store. destruct (heap s !! p) as [[o'|]|]; [|discriminate..].
  intros [= <-]. eauto.
Qed.

Lemma read_slot_Ok i s v s' :
  read_slot i s = Ok v s' ->
  0 <= i /\ entities (world s) !! Z.to_nat i = Some v /\ s' = s.
Proof.
  unfold read_slot. destruct (Z.ltb_spec i 0); [discriminate|].
  destruct (entities (world s) !! Z.to_nat i); [|discriminate].
  intros [= -> ->]. auto.
Qed.

Lemma write_slot_Ok i v s u s' :
  write_slot i v s = Ok u s' ->
  0 <= i /\ (Z.to_nat i < length (entities (world s)))%nat /\
  s' = slot_set (Z.to_nat i) v s.
Proof.
  unfold write_slot. destruct (Z.ltb_spec i 0); [discriminate|].
  destruct (entities (world s) !! Z.to_nat i) eqn:E; [|discriminate].
  intros [= <-]. apply lookup_lt_Some in E. auto.
Qed.

Lemma free_Ok p s u s' :
  free p s = Ok u s' ->
  match p with
  | None => s' = s
  | Some q => (exists o, heap s !! q = Some (Some o)) /\
              s' = heap_set q None s
  end.
Proof.
  unfold free. destruct p as [q|]; [|intros [= _ <-]; auto].
  destruct (heap s !! q) as [[o|]|]; [|discriminate..].
  intros [= _ <-]. eauto.
Qed.

Lemma malloc_Ok o s p s' :
  malloc o s = Ok p s' ->
  p = length (heap s) /\ s' = heap_push o s.
Proof. intros [= <- <-]. auto. Qed.

Lemma emit_Ok e s u s' :
  emit e s = Ok u s' -> s' = event_push e s.
Proof. intros [= <-]. auto. Qed.

Lemma next48_Ok s v s' :
  next48 s = Ok v s' -> s' = set_drawn (S (drawn s)) s.
Proof. intros [= _ <-]. auto. Qed.

Lemma read_clump_Ok i s c s' :
  read_clump i s = Ok c s' ->
  0 <= i /\ (exists cl, clumps (world s) !! Z.to_nat i = Some cl /\ c = coord cl)
  /\ s' = s.
Proof.
  unfold read_clump. destruct (Z.ltb_spec i 0); [discriminate|].
  destruct (clumps (world s) !! Z.to_nat i) eqn:E; [|discriminate].
  intros [= <- <-]. eauto.
Qed.

Lemma write_clump_Ok i c s u s' :
  write_clump i c s = Ok u s' -> s' = clump_set (Z.to_nat i) c s.
Proof.
  unfold write_clump. destruct (Z.ltb_spec i 0); [discriminate|].
  destruct (clumps (world s) !! Z.to_nat i) eqn:E; [|discriminate].
  intros [= <-]. auto.
Qed.

Lemma get_food_spawn_Ok s v s' :
  get_food_spawn s = Ok v s' -> v = food_spawn s /\ s' = s.
Proof. intros [= <- <-]. auto. Qed.

Lemma get_food_rebirth_Ok s v s' :
  get_food_rebirth s = Ok v s' -> v = food_rebirth s /\ s' = s.
Proof. intros [= <- <-]. auto. Qed.

Lemma facing_random_Ok s f s' :
  facing_random s = Ok f s' -> s' = set_facing_static (facing_static s + 1) s.
Proof. intros [= _ <-]. auto. Qed.

(** Decompose a successful run into the runs of its parts. *)
Ltac inv_run H :=
  cbv beta zeta in H;
  lazymatch type of H with
  | (_ ≫= _) _ = Ok _ _ =>
      let a := fresh "a" in let s1 := fresh "s" in let H1 := fresh "R" in
      apply bind_Ok in H as (a & s1 & H1 & H); inv_run H1; inv_run H
  | @mret M _ _ _ _ = Ok _ _ => apply mret_Ok in H as [? ?]; subst
  | fail _ _ = Ok _ _ => discriminate H
  | assert _ _ _ = Ok _ _ =>
      let Hb := fresh "Hassert" in apply assert_Ok in H as [Hb ?]; subst
  | get_world _ = Ok _ _ => apply get_world_Ok in H as [? ?]; subst
  | get_food_spawn _ = Ok _ _ => apply get_food_spawn_Ok in H as [? ?]; subst
  | get_food_rebirth _ = Ok _ _ =>
      apply get_food_rebirth_Ok in H as [? ?]; subst
  | load _ _ = Ok _ _ =>
      let Hl := fresh "Hload" in apply load_Ok in H as [Hl ?]; subst
  | store _ _ _ = Ok _ _ =>
      let Hl := fresh "Hlive" in apply store_Ok in H as [Hl ?]; subst
  | malloc _ _ = Ok _ _ => apply malloc_Ok in H as [? ?]; subst
  | emit _ _ = Ok _ _ => apply emit_Ok in H; subst
  | next48 _ = Ok _ _ => apply next48_Ok in H; subst
  | read_slot _ _ = Ok _ _ =>
      let H0 := fresh "Hidx" in let Hl := fresh "Hslot" in
      apply read_slot_Ok in H as (H0 & Hl & ?); subst
  | write_slot _ _ _ = Ok _ _ =>
      let H0 := fresh "Hidx" in let Hl := fresh "Hlen" in
      apply write_slot_Ok in H as (H0 & Hl & ?); subst
  | read_clump _ _ = Ok _ _ =>
      let H0 := fresh "Hidx" in let Hl := fresh "Hclump" in
      apply read_clump_Ok in H as (H0 & Hl & ?); subst
  | write_clump _ _ _ = Ok _ _ => apply write_clump_Ok in H; subst
  | facing_random _ = Ok _ _ => apply facing_random_Ok in H; subst
  | (if ?b then _ else _) _ = Ok _ _ =>
      let E := fresh "Hif" in destruct b eqn:E; inv_run H
  | (match ?e with _ => _ end) _ = Ok _ _ =>
      let E := fresh "Hcase" in destruct e eqn:E; inv_run H
  | _ => idtac
  end.

Lemma draws_refl s : draws s s.
Proof. exists (drawn s). split; [lia|]. destruct s; reflexivity. Qed.

Lemma draws_trans s1 s2 s3 : draws s1 s2 -> draws s2 s3 -> draws s1 s3.
Proof.
  intros (n & Hn & ->) (m & Hm & ->). exists m. split; [cbn in Hm; lia|].
  reflexivity.
Qed.

Lemma draws_next s : draws s (set_drawn (S (drawn s)) s).
Proof. eexists; split; [|reflexivity]. lia. Qed.

Create HintDb run.
#[local] Hint Resolve draws_refl draws_next : run.

Lemma lrand48_draws s v s' : lrand48 s = Ok v s' -> draws s s'.
Proof. unfold lrand48. intros H. inv_run H. auto with run. Qed.

Lemma mrand48_draws s v s' : mrand48 s = Ok v s' -> draws s s'.
Proof. unfold mrand48. intros H. inv_run H. auto with run. Qed.

Lemma drand48_lt_draws b s v s' : drand48_lt b s = Ok v s' -> draws s s'.
Proof. unfold drand48_lt. intros H. inv_run H. auto with run. Qed.

Lemma random_int_draws lo hi s v s' :
  random_int lo hi s = Ok v s' -> draws s s'.
Proof.
  unfold random_int. intros H. inv_run H.
  eauto using mrand48_draws.
Qed.

Lemma perturb_coord_draws c s v s' :
  perturb_coord c s = Ok v s' -> draws s s'.
Proof.
  unfold perturb_coord. intros H. inv_run H.
  eauto using random_int_draws, draws_trans.
Qed.

Lemma response_mutate_draws r s v s' :
  response_mutate r s = Ok v s' -> draws s s'.
Proof.
  unfold response_mutate. intros H. inv_run H;
    repeat match goal with
           | H : drand48_lt _ _ = Ok _ _ |- _ => apply drand48_lt_draws in H
           | H : lrand48 _ = Ok _ _ |- _ => apply lrand48_draws in H
           end;
    eauto using draws_trans.
Qed.

Lemma responses_mutate_draws l s v s' :
  responses_mutate l s = Ok v s' -> draws s s'.
Proof.
  revert s v s'. induction l as [|r l IH]; intros s v s' H; cbn in H.
  - inv_run H. auto with run.
  - inv_run H. eauto using response_mutate_draws, draws_trans.
Qed.

Lemma genes_mutate_draws l s v s' :
  genes_mutate l s = Ok v s' -> draws s s'.
Proof.
  revert s v s'. induction l as [|g l IH]; intros s v s' H; cbn in H.
  - inv_run H. auto with run.
  - inv_run H. eauto using responses_mutate_draws, draws_trans.
Qed.

Lemma chromosome_mutate_draws c s v s' :
  chromosome_mutate c s = Ok v s' -> draws s s'.
Proof.
  unfold chromosome_mutate. intros H. inv_run H.
  eauto using genes_mutate_draws.
Qed.

(** *** Mutation reads the random source and nothing else *)

Lemma rng_only_ret {A} (a : A) : rng_only (mret a : M A).
Proof.
  intros s1 s2 E. unfold mret, M_ret. exists (drawn s1). split.
  - destruct s1; reflexivity.
  - rewrite E. destruct s2; reflexivity.
Qed.

Lemma rng_only_bind {A B} (m : M A) (k : A -> M B) :
  rng_only m -> (forall a, rng_only (k a)) -> rng_only (m ≫= k).
Proof.
  intros Hm Hk s1 s2 E. specialize (Hm s1 s2 E).
  unfold mbind, M_bind. destruct (m s1) as [a t1|f].
  - destruct Hm as (n & -> & ->).
    specialize (Hk a (set_drawn n s1) (set_drawn n s2) eq_refl).
    destruct (k a (set_drawn n s1)) as [b u1|f].
    + destruct Hk as (n' & -> & ->). exists n'. split; reflexivity.
    + exact Hk.
  - rewrite Hm. reflexivity.
Qed.

Lemma rng_only_next48 : rng_only next48.
Proof.
  intros s1 s2 E. unfold next48. exists (S (drawn s1)).
  split; [reflexivity|]. rewrite E. reflexivity.
Qed.

Lemma rng_only_lrand48 : rng_only lrand48.
Proof.
  apply rng_only_bind; [apply rng_only_next48 | intros; apply rng_only_ret].
Qed.

Lemma rng_only_drand48_lt b : rng_only (drand48_lt b).
Proof.
  apply rng_only_bind; [apply rng_only_next48 | intros; apply rng_only_ret].
Qed.

Lemma rng_only_response_mutate r : rng_only (response_mutate r).
Proof.
  unfold response_mutate.
  repeat first
    [ apply rng_only_drand48_lt
    | apply rng_only_lrand48
    | apply rng_only_ret
    | apply rng_only_bind
    | intros []
    | intro ].
Qed.

Lemma rng_only_responses_mutate l : rng_only (responses_mutate l).
Proof.
  induction l as [|r l IH]; cbn [responses_mutate].
  - apply rng_only_ret.
  - apply rng_only_bind; [apply rng_only_response_mutate|]. intros r'.
    apply rng_only_bind; [exact IH|]. intros l'. apply rng_only_ret.
Qed.

Lemma rng_only_genes_mutate l : rng_only (genes_mutate l).
Proof.
  induction l as [|g l IH]; cbn [genes_mutate].
  - apply rng_only_ret.
  - apply rng_only_bind; [apply rng_only_responses_mutate|]. intros rs.
    apply rng_only_bind; [exact IH|]. intros l'. apply rng_only_ret.
Qed.

Lemma rng_only_chromosome_mutate c : rng_only (chromosome_mutate c).
Proof.
  apply rng_only_bind; [apply rng_only_genes_mutate|].
  intros gs. apply rng_only_ret.
Qed.

(** The mutation made in [s1] is the one made in any state whose random
    source stands where that of [s1] does. *)
Lemma chromosome_mutate_transport c s1 s2 c' t1 :
  drawn s1 = drawn s2 ->
  chromosome_mutate c s1 = Ok c' t1 ->
  chromosome_mutate c s2 = Ok c' (set_drawn (drawn t1) s2).
Proof.
  intros E H. pose proof (rng_only_chromosome_mutate c s1 s2 E) as Ht.
  rewrite H in Ht. destruct Ht as (n & -> & ->). reflexivity.
Qed.

(** [find_nearby_empty] only consumes random numbers, and what it returns is
    the coordinate of an empty slot of the board. *)
Lemma find_nearby_empty_loop_Ok fuel c s v s' :
  find_nearby_empty_loop fuel c s = Ok v s' ->
  draws s s' /\
  exists r, world_get_entity_ref (world s) v = Some r /\ 0 <= r /\
            entities (world s) !! Z.to_nat r = Some None.
Proof.
  revert c s. induction fuel as [|fuel IH]; intros c s H; cbn in H.
  - discriminate.
  - inv_run H; apply perturb_coord_draws in R as (n & Hn & ->); cbn in *.
    + apply IH in H as [(m & Hm & ->) (r & ? & ? & ?)]. cbn in *.
      split; [exists m; split; [lia | reflexivity] | eauto].
    + split; [exists n; auto | eauto].
    + apply IH in H as [(m & Hm & ->) (r & ? & ? & ?)]. cbn in *.
      split; [exists m; split; [lia | reflexivity] | eauto].
Qed.

Lemma find_nearby_empty_Ok fuel c s v s' :
  find_nearby_empty fuel c s = Ok v s' ->
  draws s s' /\
  exists r, world_get_entity_ref (world s) v = Some r /\ 0 <= r /\
            entities (world s) !! Z.to_nat r = Some None.
Proof.
  unfold find_nearby_empty. intros H. inv_run H.
  eauto using find_nearby_empty_loop_Ok.
Qed.

(** ** What the placement routines and [cell_new] do to the state *)

Lemma quiet_refl s : quiet s s.
Proof. split; reflexivity. Qed.

Lemma quiet_trans s1 s2 s3 : quiet s1 s2 -> quiet s2 s3 -> quiet s1 s3.
Proof. intros [] []. split; congruence. Qed.

Lemma draws_quiet s s' : draws s s' -> quiet s s'.
Proof. intros (n & _ & ->). split; reflexivity. Qed.

Lemma clump_set_quiet i c s : quiet s (clump_set i c s).
Proof. split; reflexivity. Qed.

#[local] Hint Resolve quiet_refl draws_quiet clump_set_quiet : run.

Lemma relocate_anchor_quiet food c s v s' :
  relocate_anchor food c s = Ok v s' -> quiet s s'.
Proof.
  unfold relocate_anchor, load_food. intros H. inv_run H;
    repeat match goal with
           | H : random_int _ _ _ = Ok _ _ |- _ =>
               apply random_int_draws, draws_quiet in H
           | H : drand48_lt _ _ = Ok _ _ |- _ =>
               apply drand48_lt_draws, draws_quiet in H
           end;
    eauto 10 using quiet_trans with run.
Qed.

(** The index of an in-bounds coordinate. *)
Lemma world_get_entity_ref_Some w c r :
  world_get_entity_ref w c = Some r ->
  coord_in_bounds c w = true /\ r = y c * width w + x c.
Proof.
  unfold world_get_entity_ref, coord_in_bounds.
  destruct (_ && _); [intros [= <-]; auto | discriminate].
Qed.

Lemma coord_in_bounds_spec c w :
  coord_in_bounds c w = true <->
  0 <= x c < width w /\ 0 <= y c < height w.
Proof. unfold coord_in_bounds. rewrite !andb_true_iff. lia. Qed.

Lemma relocate_food_Ok fuel c s u s' :
  relocate_food fuel c s = Ok u s' ->
  exists sa q o dst,
    let src_ref := Z.to_nat (y c * width (world s) + x c) in
    let dst_ref := Z.to_nat (y dst * width (world s) + x dst) in
    coord_in_bounds c (world s) = true /\
    coord_in_bounds dst (world s) = true /\
    entities (world s) !! src_ref = Some (Some q) /\
    entities (world s) !! dst_ref = Some None /\
    heap s !! q = Some (Some o) /\
    type (entity_of o) = ENTITY_TYPE_FOOD /\
    quiet s sa /\
    s' = event_push (EvRelocate q c dst)
           (slot_set src_ref None (slot_set dst_ref (Some q) sa)).
Proof.
  unfold relocate_food. intros H. inv_run H;
    match goal with
    | Ha : relocate_anchor _ _ _ = Ok _ _,
      Hf : find_nearby_empty _ _ ?s0 = Ok ?dst ?s1 |- _ =>
        apply relocate_anchor_quiet in Ha;
        apply find_nearby_empty_Ok in Hf as [Hd (r & Hr & Hr0 & Hr1)];
        apply draws_quiet in Hd;
        pose proof (quiet_trans _ _ _ Ha Hd) as Hq;
        pose proof (quiet_trans _ _ _ (quiet_refl s) Ha) as [_ He Hw _ _];
        clear Ha Hd
    end;
    repeat match goal with
           | H : world_get_entity_ref _ _ = Some _ |- _ =>
               apply world_get_entity_ref_Some in H as [? ?]
           | H : bool_decide _ = true |- _ => apply bool_decide_eq_true in H
           end;
    subst;
    pose proof Hq as [_ Hqe _ _ _];
    rewrite ?Hqe, ?He, ?Hw in *;
    [|congruence].
  match goal with
  | H1 : _ !! ?i = Some (Some ?a), H2 : _ !! ?i = Some (Some ?b) |- _ =>
      assert (b = a) as -> by congruence
  end.
  do 4 eexists. cbv zeta. split_and!; try done.
  match goal with
  | |- type (entity_of ?o) = _ => destruct (type (entity_of o)); done
  end.
Qed.

(** The placement routines only advance the random source. *)
Lemma relocate_anchor_later food c s v s' :
  relocate_anchor food c s = Ok v s' -> (drawn s <= drawn s')%nat.
Proof.
  unfold relocate_anchor, load_food. intros H. inv_run H;
    repeat match goal with
           | H : random_int _ _ _ = Ok _ _ |- _ =>
               apply random_int_draws in H as (? & ? & ->)
           | H : drand48_lt _ _ = Ok _ _ |- _ =>
               apply drand48_lt_draws in H as (? & ? & ->)
           end;
    cbn in *; lia.
Qed.

Lemma relocate_food_later fuel c s u s' :
  relocate_food fuel c s = Ok u s' -> (drawn s <= drawn s')%nat.
Proof.
  unfold relocate_food. intros H. inv_run H;
    match goal with
    | Ha : relocate_anchor _ _ _ = Ok _ _,
      Hf : find_nearby_empty _ _ _ = Ok _ _ |- _ =>
        apply relocate_anchor_later in Ha;
        apply find_nearby_empty_Ok in Hf as [(? & ? & ->) _]
    end;
    cbn in *; lia.
Qed.

Lemma cell_new_Ok pp s child s' :
  cell_new (Some pp) s = Ok child s' ->
  exists par chr col sd,
    let ch := {| cell_entity :=
                   {| type := ENTITY_TYPE_CELL;
                      last_update_color :=
                        last_update_color (cell_entity par) |};
                 state := 0; score := CELL_START_SCORE; chromosome := chr;
                 facing := facing_turn (facing par) 2; color := col |} in
    heap s !! pp = Some (Some (ObjCell par)) /\
    chromosome_mutate (chromosome par) s = Ok chr sd /\
    draws s sd /\
    cell_get_color ch = Some col /\
    child = length (heap s) /\
    s' = event_push (EvBirth child pp) (heap_push (ObjCell ch) sd).
Proof.
  unfold cell_new, load_cell. intros H. inv_run H.
  match goal with
  | Hm : chromosome_mutate _ _ = Ok _ _ |- _ =>
      pose proof (chromosome_mutate_draws _ _ _ _ Hm) as Hd
  end.
  pose proof Hd as (n & _ & ->).
  do 4 eexists. cbv zeta. split_and!; eauto.
  match goal with Hc : cell_get_color _ = Some _ |- _ => exact Hc end.
Qed.

Lemma actors_app l1 l2 : actors (l1 ++ l2) = actors l1 ++ actors l2.
Proof. apply omap_app. Qed.

Lemma born_app l1 l2 : born (l1 ++ l2) = born l1 ++ born l2.
Proof. apply omap_app. Qed.

Lemma relocated_app l1 l2 : relocated (l1 ++ l2) = relocated l1 ++ relocated l2.
Proof. apply omap_app. Qed.

Lemma elem_of_actors p l : p ∈ actors l <-> exists a, EvAct p a ∈ l.
Proof.
  unfold actors. rewrite list_elem_of_omap. split.
  - intros ([] & Hin & Heq); try discriminate. injection Heq as ->. eauto.
  - intros (a & Hin). eexists; split; [exact Hin | reflexivity].
Qed.

Lemma elem_of_born p l : p ∈ born l <-> exists q, EvBirth p q ∈ l.
Proof.
  unfold born. rewrite list_elem_of_omap. split.
  - intros ([] & Hin & Heq); try discriminate. injection Heq as ->. eauto.
  - intros (a & Hin). eexists; split; [exact Hin | reflexivity].
Qed.

Lemma elem_of_relocated p l :
  p ∈ relocated l <-> exists src dst, EvRelocate p src dst ∈ l.
Proof.
  unfold relocated. rewrite list_elem_of_omap. split.
  - intros ([] & Hin & Heq); try discriminate. injection Heq as ->. eauto.
  - intros (a & b & Hin). eexists; split; [exact Hin | reflexivity].
Qed.

(** ** The invariant is kept *)

Section pass.

Variable T : Z.
Variable s0 : State.

Lemma tagged_good s q : tagged T s q -> good T s q.
Proof. intros H o Ho. left. eauto. Qed.

(** A step that adds no action and no birth to the log, changes an
    object only by giving it the tag of the pass or keeping its header,
    and puts into visited slots only good entities. *)
Lemma pass_inv_step V s s' l :
  pass_inv T s0 V s ->
  events s' = events s ++ l -> actors l = [] -> born l = [] ->
  (length (heap s) <= length (heap s'))%nat ->
  (forall q o', heap s' !! q = Some (Some o') ->
     last_update_color (entity_of o') = T \/
     exists o, heap s !! q = Some (Some o) /\ entity_of o' = entity_of o) ->
  (forall j q, V j -> entities (world s') !! j = Some (Some q) ->
     entities (world s) !! j = Some (Some q) \/ good T s' q) ->
  width (world s') = width (world s) ->
  height (world s') = height (world s) ->
  pass_inv T s0 V s'.
Proof.
  intros [Hnd Htag Hborn Halloc Horig Hunt Hvis Hw Hh] Hev Hact Hbo Hlen
    Hheap Hgrid Hw' Hh'.
  assert (Hactors : actors (events s') = actors (events s))
    by (rewrite Hev, actors_app, Hact, app_nil_r; reflexivity).
  assert (Hbs : born (events s') = born (events s))
    by (rewrite Hev, born_app, Hbo, app_nil_r; reflexivity).
  assert (Hmono : forall q, good T s q -> good T s' q).
  { intros q Hg o' Ho'. destruct (Hheap _ _ Ho') as [|(o & Ho & Heq)]; [auto|].
    destruct (Hg _ Ho) as [|[? ?]]; [left; congruence|right].
    rewrite Heq, Hev, relocated_app. split; [done|].
    apply elem_of_app; auto. }
  split.
  - congruence.
  - rewrite Hactors, Hbs. intros q Hq o' Ho'.
    destruct (Hheap _ _ Ho') as [|(o & Ho & Heq)]; [auto|].
    rewrite Heq. eapply Htag; eauto.
  - rewrite Hactors, Hbs. done.
  - rewrite Hactors. intros q Hq. specialize (Halloc _ Hq). lia.
  - rewrite Hactors. done.
  - intros q o' Ho' Hne.
    destruct (Hheap _ _ Ho') as [|(o & Ho & Heq)]; [done|].
    rewrite Heq in Hne. eauto.
  - intros j q Hj Hq. destruct (Hgrid _ _ Hj Hq) as [|]; eauto.
  - congruence.
  - congruence.
Qed.

Lemma pass_inv_quiet V s s' : quiet s s' -> pass_inv T s0 V s -> pass_inv T s0 V s'.
Proof.
  intros [Hh He Hw Hh' Hev] Hinv.
  apply (pass_inv_step V s s' []); auto.
  - rewrite Hev, app_nil_r. done.
  - rewrite Hh. done.
  - rewrite Hh. eauto.
  - rewrite He. auto.
Qed.

Lemma pass_inv_store V s q o o' :
  heap s !! q = Some (Some o) ->
  last_update_color (entity_of o') = T \/ entity_of o' = entity_of o ->
  pass_inv T s0 V s -> pass_inv T s0 V (heap_set q (Some o') s).
Proof.
  intros Hq Hhdr Hinv.
  apply (pass_inv_step V s _ []); auto; cbn.
  - rewrite app_nil_r. done.
  - rewrite length_insert. done.
  - intros p o1. destruct (decide (p = q)) as [->|Hne].
    + rewrite list_lookup_insert_eq by (eapply lookup_lt_Some; eauto).
      intros [= <-]. destruct Hhdr; eauto.
    + rewrite list_lookup_insert_ne by done. eauto.
Qed.

Lemma pass_inv_free V s q :
  pass_inv T s0 V s -> pass_inv T s0 V (heap_set q None s).
Proof.
  intros Hinv.
  apply (pass_inv_step V s _ []); auto; cbn.
  - rewrite app_nil_r. done.
  - rewrite length_insert. done.
  - intros p o1. destruct (decide (p = q)) as [->|Hne].
    + intros Hp. apply lookup_lt_Some in Hp as Hlt.
      rewrite length_insert in Hlt.
      rewrite list_lookup_insert_eq in Hp by done. done.
    + rewrite list_lookup_insert_ne by done. eauto.
Qed.

Lemma pass_inv_slot V s j v :
  (forall q, v = Some q -> good T s q) ->
  pass_inv T s0 V s -> pass_inv T s0 V (slot_set j v s).
Proof.
  intros Hv Hinv.
  apply (pass_inv_step V s _ []); auto; cbn.
  - rewrite app_nil_r. done.
  - eauto.
  - intros i q _. destruct (decide (i = j)) as [->|Hne].
    + intros Hq. apply lookup_lt_Some in Hq as Hlt.
      rewrite length_insert in Hlt.
      rewrite list_lookup_insert_eq in Hq by done.
      injection Hq as ->. right. intros o Ho. apply (Hv q); done.
    + rewrite list_lookup_insert_ne by done. auto.
Qed.

Lemma pass_inv_relocate V s q src dst :
  pass_inv T s0 V s -> pass_inv T s0 V (event_push (EvRelocate q src dst) s).
Proof.
  intros Hinv.
  apply (pass_inv_step V s _ [EvRelocate q src dst]); auto; cbn; eauto.
Qed.

Lemma pass_inv_relocate_food V fuel c s u s' :
  relocate_food fuel c s = Ok u s' -> pass_inv T s0 V s -> pass_inv T s0 V s'.
Proof.
  intros H Hinv.
  apply relocate_food_Ok in H
    as (sa & q & o & dst & _ & _ & _ & _ & Hq & Hty & Hquiet & ->).
  cbv zeta. pose proof Hquiet as [Hh He Hw Hh' Hev].
  apply (pass_inv_step V s _ [EvRelocate q c dst]); auto; cbn.
  - congruence.
  - rewrite Hh. done.
  - rewrite Hh. eauto.
  - intros j p _ Hp.
    set (src := Z.to_nat (y c * width (world s) + x c)) in *.
    set (dr := Z.to_nat (y dst * width (world s) + x dst)) in *.
    destruct (decide (j = src)) as [->|Hsrc].
    { apply lookup_lt_Some in Hp as Hlt. rewrite length_insert in Hlt.
      rewrite list_lookup_insert_eq in Hp by done. done. }
    rewrite list_lookup_insert_ne in Hp by done.
    destruct (decide (j = dr)) as [->|Hdst].
    { apply lookup_lt_Some in Hp as Hlt. rewrite length_insert in Hlt.
      rewrite list_lookup_insert_eq in Hp by done. injection Hp as <-.
      right. intros o' Ho'. cbn in Ho'. rewrite Hh, Hq in Ho'.
      injection Ho' as <-. right. split; [done|]. cbn.
      rewrite relocated_app. apply elem_of_app. right.
      apply list_elem_of_singleton. done. }
    rewrite list_lookup_insert_ne in Hp by done. rewrite He in Hp. auto.
Qed.

Lemma pass_inv_act V s p o a :
  pass_inv T s0 V s ->
  heap s !! p = Some (Some o) -> last_update_color (entity_of o) = T ->
  p ∉ actors (events s) -> p ∉ born (events s) ->
  (exists o0, heap s0 !! p = Some (Some o0) /\
              last_update_color (entity_of o0) <> T) ->
  pass_inv T s0 V (event_push (EvAct p a) s).
Proof.
  intros [Hnd Htag Hborn Halloc Horig Hunt Hvis Hw Hh] Hp HT Hna Hnb Ho0.
  assert (Hactors : actors (events s ++ [EvAct p a])
                    = actors (events s) ++ [p])
    by (rewrite actors_app; reflexivity).
  assert (Hbs : born (events s ++ [EvAct p a]) = born (events s))
    by (rewrite born_app; apply app_nil_r).
  assert (Hrs : relocated (events s ++ [EvAct p a]) = relocated (events s))
    by (rewrite relocated_app; apply app_nil_r).
  split; cbn; rewrite ?Hactors, ?Hbs; auto.
  - apply NoDup_app. split_and!; [done| |apply NoDup_singleton].
    intros q Hq ->%list_elem_of_singleton. done.
  - intros q [[Hq| ->%list_elem_of_singleton]%elem_of_app|Hq] o' Ho';
      cbn in Ho'; [eapply Htag; eauto| congruence |eapply Htag; eauto].
  - intros q Hq [Hq'| ->%list_elem_of_singleton]%elem_of_app;
      [eapply Hborn; eauto|done].
  - intros q [Hq| ->%list_elem_of_singleton]%elem_of_app; [auto|].
    eapply lookup_lt_Some; eauto.
  - intros q [Hq| ->%list_elem_of_singleton]%elem_of_app; auto.
  - intros j q Hj Hq o' Ho'. cbn in Ho' |- *. rewrite Hrs.
    eapply Hvis; eauto.
Qed.

Lemma pass_inv_cell_new V p s child s' :
  cell_new (Some p) s = Ok child s' ->
  p ∈ actors (events s) ->
  pass_inv T s0 V s ->
  pass_inv T s0 V s' /\ child ∈ born (events s').
Proof.
  intros H Hp [Hnd Htag Hborn Halloc Horig Hunt Hvis Hw Hh].
  apply cell_new_Ok in H
    as (par & chr & col & sd & Hpar & _ & (n & _ & ->) & _ & -> & ->).
  cbv zeta.
  assert (HparT : last_update_color (cell_entity par) = T)
    by (apply (Htag p (or_introl Hp) _ Hpar)).
  set (ch := ObjCell _).
  assert (HchT : last_update_color (entity_of ch) = T) by exact HparT.
  assert (Hlook : forall q o, (heap s ++ [Some ch]) !! q = Some (Some o) ->
             heap s !! q = Some (Some o) \/ (q = length (heap s) /\ o = ch)).
  { intros q o Hq. destruct (decide (q < length (heap s))%nat).
    - rewrite lookup_app_l in Hq by done. auto.
    - rewrite lookup_app_r in Hq by lia.
      destruct (q - length (heap s))%nat eqn:E; [|done].
      injection Hq as <-. right. split; [lia|done]. }
  assert (Hactors : actors (events s ++ [EvBirth (length (heap s)) p])
                    = actors (events s))
    by (rewrite actors_app; apply app_nil_r).
  assert (Hbs : born (events s ++ [EvBirth (length (heap s)) p])
                = born (events s) ++ [length (heap s)])
    by (rewrite born_app; reflexivity).
  assert (Hrs : relocated (events s ++ [EvBirth (length (heap s)) p])
                = relocated (events s))
    by (rewrite relocated_app; apply app_nil_r).
  split; [split|]; cbn; rewrite ?Hactors, ?Hbs; auto.
  - intros q Hq o Ho. cbn in Ho. apply Hlook in Ho as [Ho|[-> ->]]; [|done].
    destruct Hq as [Hq|[Hq|Hq%list_elem_of_singleton]%elem_of_app].
    + eapply Htag; eauto.
    + eapply Htag; eauto.
    + subst q. apply lookup_lt_Some in Ho. lia.
  - intros q [Hq| ->%list_elem_of_singleton]%elem_of_app; [auto|].
    intros Hq%Halloc. lia.
  - intros q Hq%Halloc. rewrite length_app. lia.
  - intros q o Ho Hne. cbn in Ho. apply Hlook in Ho as [Ho|[-> ->]]; eauto.
    done.
  - intros j q Hj Hq o Ho. cbn in Ho |- *. rewrite Hrs.
    apply Hlook in Ho as [Ho|[-> ->]]; [eapply Hvis; eauto|auto].
  - apply elem_of_app. right. apply list_elem_of_singleton. done.
Qed.

Lemma update_cell_inv V q f s u s' :
  update_cell q f s = Ok u s' ->
  (forall c, cell_entity (f c) = cell_entity c) ->
  pass_inv T s0 V s -> pass_inv T s0 V s'.
Proof.
  unfold update_cell, load_cell. intros H Hf Hinv. inv_run H.
  eapply pass_inv_store; eauto.
Qed.

Lemma events_update_cell q f s u s' :
  update_cell q f s = Ok u s' -> events s' = events s.
Proof. unfold update_cell, load_cell. intros H. inv_run H. done. Qed.

Lemma acting_slot_none V p j s :
  acting T s0 V p s -> acting T s0 V p (slot_set j None s).
Proof.
  intros [Hinv Hp]. split; [|exact Hp].
  apply pass_inv_slot; [discriminate|done].
Qed.

Lemma acting_slot_self V p j s :
  acting T s0 V p s -> acting T s0 V p (slot_set j (Some p) s).
Proof.
  intros [Hinv Hp]. split; [|exact Hp].
  apply pass_inv_slot; [|done]. intros q [= <-].
  apply tagged_good. eapply pi_tagged; eauto.
Qed.

Lemma acting_slot_child V p j q s :
  q ∈ born (events s) ->
  acting T s0 V p s -> acting T s0 V p (slot_set j (Some q) s).
Proof.
  intros Hq [Hinv Hp]. split; [|exact Hp].
  apply pass_inv_slot; [|done]. intros q' [= <-].
  apply tagged_good. eapply pi_tagged; eauto.
Qed.

Lemma acting_free V p q s :
  acting T s0 V p s -> acting T s0 V p (heap_set q None s).
Proof. intros [Hinv Hp]. split; [|exact Hp]. by apply pass_inv_free. Qed.

Lemma acting_update_cell V p q f s u s' :
  update_cell q f s = Ok u s' ->
  (forall c, cell_entity (f c) = cell_entity c) ->
  acting T s0 V p s -> acting T s0 V p s'.
Proof.
  intros H Hf [Hinv Hp]. split; [eapply update_cell_inv; eauto|].
  erewrite events_update_cell; eauto.
Qed.

Lemma acting_relocate_food V p fuel c s u s' :
  relocate_food fuel c s = Ok u s' -> acting T s0 V p s -> acting T s0 V p s'.
Proof.
  intros H [Hinv Hp]. split; [eapply pass_inv_relocate_food; eauto|].
  apply relocate_food_Ok in H
    as (sa & q & o & dst & _ & _ & _ & _ & _ & _ & [_ _ _ _ Hev] & ->).
  cbn. rewrite Hev, actors_app. apply elem_of_app. auto.
Qed.

Lemma acting_cell_new V p s child s' :
  cell_new (Some p) s = Ok child s' ->
  acting T s0 V p s -> acting T s0 V p s' /\ child ∈ born (events s').
Proof.
  intros H [Hinv Hp].
  destruct (pass_inv_cell_new V p s child s' H Hp Hinv) as [Hinv' Hc].
  split; [split|]; [done| |done].
  apply cell_new_Ok in H
    as (par & chr & col & sd & _ & _ & (n & _ & ->) & _ & -> & ->).
  cbn. rewrite actors_app. apply elem_of_app. auto.
Qed.

(** Carry [acting] along the parts of a decomposed run. *)
Ltac acting_tac :=
  repeat match goal with
    | H : cell_new (Some ?p) ?s = Ok ?c ?s' |- acting _ _ ?V _ _ =>
        let Hn := fresh in
        assert (Hn : acting T s0 V p s) by (clear H; acting_tac);
        destruct (acting_cell_new V p s c s' H Hn) as [? ?]; clear H Hn
    end;
  repeat first
    [ assumption
    | apply acting_slot_none
    | apply acting_slot_self
    | apply acting_slot_child; [assumption|]
    | apply acting_free
    | match goal with
      | H : update_cell _ _ ?s = Ok _ ?s' |- acting _ _ _ _ ?s' =>
          apply (acting_update_cell _ _ _ _ _ _ _ H); [reflexivity|]
      | H : relocate_food _ _ ?s = Ok _ ?s' |- acting _ _ _ _ ?s' =>
          apply (acting_relocate_food _ _ _ _ _ _ _ H)
      end ].

Lemma entity_move_acting V fuel cell pos entity s e' s' :
  entity_move fuel cell pos entity s = Ok e' s' ->
  acting T s0 V cell s -> acting T s0 V cell s'.
Proof.
  unfold entity_move, move_clear_destination, move_transfer, load_cell.
  intros H Hact. inv_run H; acting_tac.
Qed.

Lemma faced_situation_Ok cell pos s sit s' :
  faced_situation cell pos s = Ok sit s' -> s' = s.
Proof.
  unfold faced_situation, load_cell. intros H. inv_run H; reflexivity.
Qed.

Lemma cell_response_Ok c sit s r s' :
  cell_response c sit s = Ok r s' -> s' = s.
Proof. unfold cell_response. intros H. inv_run H. reflexivity. Qed.

Lemma cell_act_acting V fuel cell pos entity s e' s' o :
  cell_act fuel cell pos entity s = Ok e' s' ->
  pass_inv T s0 V s ->
  heap s !! cell = Some (Some o) -> last_update_color (entity_of o) = T ->
  cell ∉ actors (events s) -> cell ∉ born (events s) ->
  (exists o0, heap s0 !! cell = Some (Some o0) /\
              last_update_color (entity_of o0) <> T) ->
  acting T s0 V cell s'.
Proof.
  unfold cell_act, load_cell. intros H Hinv Ho HT Hna Hnb Ho0.
  apply bind_Ok in H as (sit & s1 & Hs & H).
  apply faced_situation_Ok in Hs as ->.
  revert HT. inv_run H; intros HT;
    repeat match goal with
      | Hr : cell_response _ _ _ = Ok ?r _ |- _ =>
          apply cell_response_Ok in Hr as ->;
          assert (forall a, acting T s0 V cell (event_push (EvAct cell a) s))
            by (intros ?; split;
                [ eapply pass_inv_act; eauto
                | cbn; rewrite actors_app; apply elem_of_app; right;
                  apply list_elem_of_singleton; reflexivity ])
      | Hm : entity_move _ _ _ _ ?s1 = Ok _ ?s2 |- _ =>
          assert (acting T s0 V cell s2)
            by (eapply entity_move_acting; [exact Hm | auto]);
          clear Hm
      end;
    acting_tac; auto.
Qed.

Lemma cell_reap_acting V cell entity s u s' :
  cell_reap cell entity s = Ok u s' -> acting T s0 V cell s -> acting T s0 V cell s'.
Proof.
  unfold cell_reap, load_cell. intros H Hact. inv_run H;
    repeat match goal with
      | Hf : free ?e _ = Ok _ _ |- _ =>
          apply free_Ok in Hf; destruct e; [destruct Hf as [_ ->]|subst]
      end;
    acting_tac.
Qed.

Lemma entity_of_set_entity e o : entity_of (set_entity e o) = e.
Proof. destruct o; reflexivity. Qed.

Lemma pass_inv_visit V s j :
  pass_inv T s0 V s ->
  (forall q, entities (world s) !! j = Some (Some q) -> good T s q) ->
  pass_inv T s0 (fun i => V i \/ i = j) s.
Proof.
  intros [Hnd Htag Hborn Halloc Horig Hunt Hvis Hw Hh] Hj.
  split; auto. intros i q [Hi| ->]; eauto.
Qed.

Lemma pass_inv_weaken (V V' : nat -> Prop) s :
  (forall j, V' j -> V j) -> pass_inv T s0 V s -> pass_inv T s0 V' s.
Proof.
  intros HV [Hnd Htag Hborn Halloc Horig Hunt Hvis Hw Hh].
  split; eauto.
Qed.

(** The three ways [entity_update] goes on a slot. *)
Lemma entity_update_cases fuel pos s u s' :
  entity_update fuel pos T s = Ok u s' ->
  let i := y pos * width (world s) + x pos in
  0 <= i /\
  ((entities (world s) !! Z.to_nat i = Some None /\ s' = s) \/
   exists p o,
     entities (world s) !! Z.to_nat i = Some (Some p) /\
     heap s !! p = Some (Some o) /\
     ((last_update_color (entity_of o) = T /\ s' = s) \/
      (last_update_color (entity_of o) <> T /\
       let s1 := heap_set p (Some (set_entity
                   {| type := type (entity_of o);
                      last_update_color := T |} o)) s in
       ((type (entity_of o) <> ENTITY_TYPE_CELL /\ s' = s1) \/
        (type (entity_of o) = ENTITY_TYPE_CELL /\
         cell_update fuel p pos i s1 = Ok u s'))))).
Proof.
  unfold entity_update. intros H. cbv zeta.
  apply bind_Ok in H as (w & s1 & Hw & H). inv_run Hw.
  apply bind_Ok in H as (e & s1 & He & H). inv_run He.
  split; [done|].
  destruct e as [p|]; [|inv_run H; auto].
  apply bind_Ok in H as (o & s1 & Ho & H). inv_run Ho.
  right. exists p, o. split_and!; [done..|].
  destruct (Z.eqb_spec (last_update_color (entity_of o)) T) as [Heq|Hne].
  { inv_run H. auto. }
  right. split; [done|].
  apply bind_Ok in H as (? & s1 & Hst & H). inv_run Hst.
  destruct (type (entity_of o)) eqn:Hty; cbn in H.
  - inv_run H. left. done.
  - right. done.
  - inv_run H. left. done.
Qed.

Lemma entity_update_inv V fuel pos s u s' :
  entity_update fuel pos T s = Ok u s' ->
  pass_inv T s0 V s ->
  pass_inv T s0 (fun j => V j \/ j = slot_of s0 pos) s'.
Proof.
  intros H Hinv. unfold slot_of. rewrite <- (pi_width _ _ _ _ Hinv).
  apply entity_update_cases in H as [Hi H]. cbv zeta in H.
  set (i := Z.to_nat (y pos * width (world s) + x pos)) in *.
  destruct H as [[Hnone ->]|(p & o & Hslot & Hp & H)].
  { apply pass_inv_visit; [done|]. intros q Hq. congruence. }
  destruct H as [[Htag ->]|[Htag H]].
  { apply pass_inv_visit; [done|]. intros q Hq.
    assert (q = p) as -> by congruence.
    intros o' Ho'. left. congruence. }
  set (o1 := set_entity _ o) in *.
  set (s1 := heap_set p (Some o1) s) in *.
  assert (Ho1 : last_update_color (entity_of o1) = T)
    by (unfold o1; rewrite entity_of_set_entity; reflexivity).
  assert (Hp1 : heap s1 !! p = Some (Some o1))
    by (cbn; apply list_lookup_insert_eq; eapply lookup_lt_Some; eauto).
  assert (Hinv1 : pass_inv T s0 (fun j => V j \/ j = i) s1).
  { apply pass_inv_visit; [eapply pass_inv_store; eauto|].
    intros q Hq. cbn in Hq. assert (q = p) as -> by congruence.
    intros o' Ho'. left. congruence. }
  destruct H as [[Hty ->]|[Hty H]]; [done|].
  unfold cell_update in H.
  apply bind_Ok in H as (e' & s2 & Hact & Hreap).
  eapply cell_reap_acting; [exact Hreap|].
  eapply cell_act_acting; [exact Hact | exact Hinv1 | exact Hp1 | exact Ho1
                          | | | ].
  - cbn. intros Hin. eapply Htag, (pi_tagged _ _ _ _ Hinv); eauto.
  - cbn. intros Hin. eapply Htag, (pi_tagged _ _ _ _ Hinv); eauto.
  - eapply (pi_untouched _ _ _ _ Hinv); eauto.
Qed.

Lemma pass_inv_init : events s0 = [] -> pass_inv T s0 (slots_of s0 []) s0.
Proof.
  intros Hev. split; rewrite ?Hev; try done.
  - apply NoDup_nil_2.
  - intros q [Hq|Hq]; apply elem_of_nil in Hq; done.
  - intros q Hq. apply elem_of_nil in Hq. done.
  - intros q Hq. apply elem_of_nil in Hq. done.
  - intros q Hq. apply elem_of_nil in Hq. done.
  - eauto.
  - intros j q (c & Hc & _). apply elem_of_nil in Hc. done.
Qed.

Lemma entity_update_scan l fuel pos s u s' :
  entity_update fuel pos T s = Ok u s' ->
  pass_inv T s0 (slots_of s0 l) s -> pass_inv T s0 (slots_of s0 (l ++ [pos])) s'.
Proof.
  intros H Hinv. eapply pass_inv_weaken; [|eapply entity_update_inv; eauto].
  intros j (c & [Hc| ->%list_elem_of_singleton]%elem_of_app & ->);
    [left; exists c; auto | right; reflexivity].
Qed.

End pass.

(** A loop keeps what each of its iterations keeps. *)
Lemma for_each_inv {A} (P : list A -> State -> Prop) (body : A -> M unit) l :
  (forall d a s u s', P d s -> body a s = Ok u s' -> P (d ++ [a]) s') ->
  forall d s u s', P d s -> for_each l body s = Ok u s' -> P (d ++ l) s'.
Proof.
  intros Hbody. induction l as [|a l IH]; intros d s u s' HP H; cbn in H.
  - inv_run H. rewrite app_nil_r. done.
  - apply bind_Ok in H as (u1 & s1 & Ha & H).
    replace (d ++ a :: l) with ((d ++ [a]) ++ l)
      by (rewrite <- app_assoc; reflexivity).
    eapply IH; [|exact H]. eauto.
Qed.

Lemma elem_of_scan_order c w :
  coord_in_bounds c w = true -> c ∈ scan_order w.
Proof.
  intros [Hx Hy]%coord_in_bounds_spec. unfold scan_order.
  apply list_elem_of_In, in_flat_map. exists (y c). split.
  - apply list_elem_of_In, elem_of_seqZ. lia.
  - apply list_elem_of_In. unfold scan_row. apply list_elem_of_fmap.
    exists (x c). split; [destruct c; reflexivity|].
    apply elem_of_seqZ. lia.
Qed.

Lemma update_world_inv T fuel s u s' :
  events s = [] ->
  update_world fuel T s = Ok u s' ->
  pass_inv T s (slots_of s (scan_order (world s))) s'.
Proof.
  intros Hev H. unfold update_world in H.
  apply bind_Ok in H as (w & s1 & Hw & H). inv_run Hw.
  pose proof (pass_inv_init T s Hev) as Hinit.
  refine (for_each_inv
            (fun d s' => pass_inv T s
                           (slots_of s (flat_map (scan_row (world s)) d)) s')
            _ _ _ [] s u s' Hinit H).
  intros rows row sa ua sb Hrows Hrow. cbv beta in Hrow.
  rewrite flat_map_app. cbn [flat_map]. rewrite app_nil_r.
  unfold scan_row at 2.
  assert (Hstart : pass_inv T s
            (slots_of s (flat_map (scan_row (world s)) rows
                         ++ map (fun col => {| x := col; y := row |}) []))
            sa) by (cbn [map]; rewrite app_nil_r; exact Hrows).
  refine (for_each_inv
            (fun d s' =>
               pass_inv T s
                 (slots_of s
                    (flat_map (scan_row (world s)) rows
                     ++ map (fun col => {| x := col; y := row |}) d)) s')
            _ _ _ [] sa ua sb Hstart Hrow).
  intros cols col sc uc sd Hcols Hcol. cbv beta in Hcol.
  rewrite map_app, app_assoc. cbn [map].
  eapply entity_update_scan; eauto.
Qed.

(** ** Running the code forward *)

Lemma read_slot_run i v s :
  0 <= i -> entities (world s) !! Z.to_nat i = Some v ->
  read_slot i s = Ok v s.
Proof.
  intros Hi Hv. unfold read_slot.
  destruct (Z.ltb_spec i 0); [lia|]. rewrite Hv. reflexivity.
Qed.

Lemma write_slot_run i v s :
  0 <= i -> (Z.to_nat i < length (entities (world s)))%nat ->
  write_slot i v s = Ok tt (slot_set (Z.to_nat i) v s).
Proof.
  intros Hi Hlt. unfold write_slot.
  destruct (Z.ltb_spec i 0); [lia|].
  destruct (lookup_lt_is_Some_2 _ _ Hlt) as [e ->]. reflexivity.
Qed.

Lemma load_run p o s : heap s !! p = Some (Some o) -> load p s = Ok o s.
Proof. intros Hp. unfold load. rewrite Hp. reflexivity. Qed.

Lemma store_run p o o' s :
  heap s !! p = Some (Some o) -> store p o' s = Ok tt (heap_set p (Some o') s).
Proof. intros Hp. unfold store. rewrite Hp. reflexivity. Qed.

Lemma load_cell_run p c s :
  heap s !! p = Some (Some (ObjCell c)) -> load_cell p s = Ok c s.
Proof.
  intros Hp. unfold load_cell. rewrite (bind_run _ _ _ _ _ (load_run _ _ _ Hp)).
  reflexivity.
Qed.

Lemma update_cell_run p c f s :
  heap s !! p = Some (Some (ObjCell c)) ->
  update_cell p f s = Ok tt (heap_set p (Some (ObjCell (f c))) s).
Proof.
  intros Hp. unfold update_cell.
  rewrite (bind_run _ _ _ _ _ (load_cell_run _ _ _ Hp)).
  apply (store_run _ _ _ _ Hp).
Qed.

Lemma free_run p o s :
  heap s !! p = Some (Some o) -> free (Some p) s = Ok tt (heap_set p None s).
Proof. intros Hp. unfold free. rewrite Hp. reflexivity. Qed.

(** An entity that already carries the tag of the pass is left alone. *)
Lemma entity_update_skip fuel pos T s p o :
  0 <= y pos * width (world s) + x pos ->
  entities (world s) !! Z.to_nat (y pos * width (world s) + x pos)
    = Some (Some p) ->
  heap s !! p = Some (Some o) ->
  last_update_color (entity_of o) = T ->
  entity_update fuel pos T s = Ok tt s.
Proof.
  intros Hi Hslot Hp Htag. unfold entity_update.
  rewrite (bind_run get_world _ s _ _ eq_refl). cbv beta zeta.
  rewrite (bind_run _ _ _ _ _ (read_slot_run _ _ _ Hi Hslot)). cbv beta.
  rewrite (bind_run _ _ _ _ _ (load_run _ _ _ Hp)). cbv beta.
  rewrite Htag, Z.eqb_refl. reflexivity.
Qed.

(** ** The seed chromosome *)

(** C6.  The table [chromosome_big_square] builds.  States 0 to 14 are as
    the specification says.  State 15 differs: the initialiser
    [{{ACTION_TURN_LEFT, 0}}] sets only the first response, so Life and Wall
    get the zero response (MoveForward, 0) instead of (TurnLeft, 0). *)
Theorem chromosome_big_square_table :
  (forall st, 0 <= st < 15 ->
     chromosome_response chromosome_big_square st SITUATION_EMPTY
       = Some {| action := ACTION_MOVE_FORWARD; next_state := st + 1 |} /\
     chromosome_response chromosome_big_square st SITUATION_FOOD
       = Some {| action := ACTION_MOVE_FORWARD; next_state := st + 1 |} /\
     chromosome_response chromosome_big_square st SITUATION_LIFE
       = Some {| action := ACTION_TURN_LEFT; next_state := 0 |} /\
     chromosome_response chromosome_big_square st SITUATION_WALL
       = Some {| action := ACTION_TURN_LEFT; next_state := 0 |}) /\
  chromosome_response chromosome_big_square 15 SITUATION_EMPTY
    = Some {| action := ACTION_TURN_LEFT; next_state := 0 |} /\
  chromosome_response chromosome_big_square 15 SITUATION_FOOD
    = Some {| action := ACTION_MOVE_FORWARD; next_state := 15 |} /\
  chromosome_response chromosome_big_square 15 SITUATION_LIFE
    = Some {| action := ACTION_MOVE_FORWARD; next_state := 0 |} /\
  chromosome_response chromosome_big_square 15 SITUATION_WALL
    = Some {| action := ACTION_MOVE_FORWARD; next_state := 0 |}.
Proof.
  split; [|repeat split].
  intros st Hst.
  assert (Hcases : st = 0 \/ st = 1 \/ st = 2 \/ st = 3 \/ st = 4 \/ st = 5
                   \/ st = 6 \/ st = 7 \/ st = 8 \/ st = 9 \/ st = 10
                   \/ st = 11 \/ st = 12 \/ st = 13 \/ st = 14) by lia.
  repeat (destruct Hcases as [->|Hcases]; [repeat split|]).
  subst st. repeat split.
Qed.

(** ** Where a run can fail *)

Lemma bind_Err {A B} (m : M A) (k : A -> M B) s f :
  (m ≫= k) s = Err f ->
  m s = Err f \/ exists a s1, m s = Ok a s1 /\ k a s1 = Err f.
Proof.
  unfold mbind, M_bind. destruct (m s) as [a s1|f']; [eauto|].
  intros [= ->]. auto.
Qed.

Lemma mret_Err {A} (a : A) s f : (mret a : M A) s = Err f -> False.
Proof. discriminate. Qed.

Lemma fail_Err {A} f' s f : (fail f' : M A) s = Err f -> f = f'.
Proof. intros [= <-]. reflexivity. Qed.

Lemma assert_Err line b s f :
  assert line b s = Err f -> b = false /\ f = AssertFailed line.
Proof. unfold assert. destruct b; [discriminate|]. intros [= <-]. auto. Qed.

Lemma load_Err p s f : load p s = Err f -> f = Undefined.
Proof.
  unfold load. destruct (heap s !! p) as [[o|]|]; [discriminate|..];
    intros [= <-]; reflexivity.
Qed.

Lemma store_Err p o s f : store p o s = Err f -> f = Undefined.
Proof.
  unfold store. destruct (heap s !! p) as [[o'|]|]; [discriminate|..];
    intros [= <-]; reflexivity.
Qed.

Lemma free_Err p s f : free p s = Err f -> f = Undefined.
Proof.
  unfold free. destruct p as [q|]; [|discriminate].
  destruct (heap s !! q) as [[o'|]|]; [discriminate|..];
    intros [= <-]; reflexivity.
Qed.

Lemma read_slot_Err i s f : read_slot i s = Err f -> f = Undefined.
Proof.
  unfold read_slot. destruct (i <? 0); [intros [= <-]; reflexivity|].
  destruct (_ !! _); [discriminate|intros [= <-]; reflexivity].
Qed.

Lemma write_slot_Err i v s f : write_slot i v s = Err f -> f = Undefined.
Proof.
  unfold write_slot. destruct (i <? 0); [intros [= <-]; reflexivity|].
  destruct (_ !! _); [discriminate|intros [= <-]; reflexivity].
Qed.

Lemma read_clump_Err i s f : read_clump i s = Err f -> f = Undefined.
Proof.
  unfold read_clump. destruct (i <? 0); [intros [= <-]; reflexivity|].
  destruct (_ !! _); [discriminate|intros [= <-]; reflexivity].
Qed.

Lemma write_clump_Err i c s f : write_clump i c s = Err f -> f = Undefined.
Proof.
  unfold write_clump. destruct (i <? 0); [intros [= <-]; reflexivity|].
  destruct (_ !! _); [discriminate|intros [= <-]; reflexivity].
Qed.

(** Decompose a failed run into the places where it can have failed. *)
Ltac inv_err H :=
  cbv beta zeta in H;
  lazymatch type of H with
  | (_ ≫= _) _ = Err _ =>
      let a := fresh "a" in let s1 := fresh "s" in let H1 := fresh "R" in
      apply bind_Err in H as [H|(a & s1 & H1 & H)];
      [inv_err H | inv_run H1; inv_err H]
  | @mret M _ _ _ _ = Err _ => destruct (mret_Err _ _ _ H)
  | fail _ _ = Err _ => apply fail_Err in H; subst
  | assert _ _ _ = Err _ =>
      let Hb := fresh "Hassert" in apply assert_Err in H as [Hb ?]; subst
  | get_world _ = Err _ => discriminate H
  | get_food_spawn _ = Err _ => discriminate H
  | get_food_rebirth _ = Err _ => discriminate H
  | malloc _ _ = Err _ => discriminate H
  | emit _ _ = Err _ => discriminate H
  | next48 _ = Err _ => discriminate H
  | facing_random _ = Err _ => discriminate H
  | load _ _ = Err _ => apply load_Err in H; subst
  | store _ _ _ = Err _ => apply store_Err in H; subst
  | free _ _ = Err _ => apply free_Err in H; subst
  | read_slot _ _ = Err _ => apply read_slot_Err in H; subst
  | write_slot _ _ _ = Err _ => apply write_slot_Err in H; subst
  | read_clump _ _ = Err _ => apply read_clump_Err in H; subst
  | write_clump _ _ _ = Err _ => apply write_clump_Err in H; subst
  | (if ?b then _ else _) _ = Err _ =>
      let E := fresh "Hif" in destruct b eqn:E; inv_err H
  | (match ?e with _ => _ end) _ = Err _ =>
      let E := fresh "Hcase" in destruct e eqn:E; inv_err H
  | _ => idtac
  end.

(** The failures of the parts of [entity_update] other than its own
    assertion at line 482. *)
Lemma lrand48_Err s f : lrand48 s = Err f -> f <> AssertFailed 482.
Proof. unfold lrand48. intros H. inv_err H. Qed.

Lemma mrand48_Err s f : mrand48 s = Err f -> f <> AssertFailed 482.
Proof. unfold mrand48. intros H. inv_err H. Qed.

Lemma drand48_lt_Err b s f : drand48_lt b s = Err f -> f <> AssertFailed 482.
Proof. unfold drand48_lt. intros H. inv_err H. Qed.

Lemma random_int_Err lo hi s f :
  random_int lo hi s = Err f -> f <> AssertFailed 482.
Proof.
  unfold random_int. intros H. inv_err H;
    try discriminate; eauto using mrand48_Err.
Qed.

Lemma perturb_coord_Err c s f :
  perturb_coord c s = Err f -> f <> AssertFailed 482.
Proof.
  unfold perturb_coord. intros H. inv_err H; eauto using random_int_Err.
Qed.

Lemma find_nearby_empty_loop_Err fuel c s f :
  find_nearby_empty_loop fuel c s = Err f -> f <> AssertFailed 482.
Proof.
  revert c s. induction fuel as [|fuel IH]; intros c s H; cbn in H.
  - inv_err H. discriminate.
  - inv_err H; try discriminate; eauto using perturb_coord_Err.
Qed.

Lemma find_nearby_empty_Err fuel c s f :
  find_nearby_empty fuel c s = Err f -> f <> AssertFailed 482.
Proof.
  unfold find_nearby_empty. intros H. inv_err H;
    try discriminate; eauto using find_nearby_empty_loop_Err.
Qed.

Lemma load_cell_Err p s f : load_cell p s = Err f -> f = Undefined.
Proof. unfold load_cell. intros H. inv_err H; reflexivity. Qed.

Lemma load_food_Err p s f : load_food p s = Err f -> f = Undefined.
Proof. unfold load_food. intros H. inv_err H; reflexivity. Qed.

Lemma update_cell_Err p g s f : update_cell p g s = Err f -> f = Undefined.
Proof.
  unfold update_cell. intros H. inv_err H; [|reflexivity].
  eauto using load_cell_Err.
Qed.

Lemma relocate_anchor_Err food c s f :
  relocate_anchor food c s = Err f -> f <> AssertFailed 482.
Proof.
  unfold relocate_anchor. intros H. inv_err H;
    try discriminate;
    repeat match goal with
      | Hl : load_food _ _ = Err _ |- _ => apply load_food_Err in Hl; subst
      end;
    try discriminate;
    eauto using random_int_Err, drand48_lt_Err.
Qed.

Lemma relocate_food_Err fuel c s f :
  relocate_food fuel c s = Err f -> f <> AssertFailed 482.
Proof.
  unfold relocate_food. intros H. inv_err H;
    try discriminate;
    eauto using relocate_anchor_Err, find_nearby_empty_Err.
Qed.

Lemma response_mutate_Err r s f :
  response_mutate r s = Err f -> f <> AssertFailed 482.
Proof.
  unfold response_mutate. intros H. inv_err H;
    eauto using drand48_lt_Err, lrand48_Err.
Qed.

Lemma responses_mutate_Err l s f :
  responses_mutate l s = Err f -> f <> AssertFailed 482.
Proof.
  revert s. induction l as [|r l IH]; intros s H; cbn in H; inv_err H;
    eauto using response_mutate_Err.
Qed.

Lemma genes_mutate_Err l s f :
  genes_mutate l s = Err f -> f <> AssertFailed 482.
Proof.
  revert s. induction l as [|g l IH]; intros s H; cbn in H; inv_err H;
    eauto using responses_mutate_Err.
Qed.

Lemma chromosome_mutate_Err c s f :
  chromosome_mutate c s = Err f -> f <> AssertFailed 482.
Proof.
  unfold chromosome_mutate. intros H. inv_err H; eauto using genes_mutate_Err.
Qed.

Lemma cell_new_Err parent s f :
  cell_new parent s = Err f -> f <> AssertFailed 482.
Proof.
  unfold cell_new. intros H. inv_err H;
    repeat match goal with
      | Hl : load_cell _ _ = Err _ |- _ => apply load_cell_Err in Hl; subst
      end;
    try discriminate; eauto using chromosome_mutate_Err.
Qed.

Lemma faced_situation_Err cell pos s f :
  faced_situation cell pos s = Err f -> f <> AssertFailed 482.
Proof.
  unfold faced_situation. intros H. inv_err H;
    repeat match goal with
      | Hl : load_cell _ _ = Err _ |- _ => apply load_cell_Err in Hl; subst
      end;
    discriminate.
Qed.

Lemma cell_response_Err c sit s f :
  cell_response c sit s = Err f -> f <> AssertFailed 482.
Proof. unfold cell_response. intros H. inv_err H. discriminate. Qed.

(** The assertion of line 482 holds whenever it is reached: the slot was
    empty to begin with, or [relocate_food] has just emptied it. *)
Lemma entity_move_Err fuel cell pos entity s f :
  entity_move fuel cell pos entity s = Err f -> f <> AssertFailed 482.
Proof.
  unfold entity_move, move_clear_destination, move_transfer.
  intros H. inv_err H;
    repeat match goal with
      | Hl : load_cell _ _ = Err _ |- _ => apply load_cell_Err in Hl; subst
      | Hl : update_cell _ _ _ = Err _ |- _ =>
          apply update_cell_Err in Hl; subst
      end;
    try discriminate;
    eauto using relocate_food_Err, cell_new_Err.
  all: exfalso.
  all: repeat match goal with
         | Hb : bool_decide _ = false |- _ =>
             apply bool_decide_eq_false in Hb
         | Hu : update_cell _ _ _ = Ok _ _ |- _ =>
             unfold update_cell, load_cell in Hu; inv_run Hu
         | Hr : relocate_food _ _ _ = Ok _ _ |- _ =>
             apply relocate_food_Ok in Hr
               as (sa & q & o & dst & _ & _ & _ & _ & _ & _ & _ & ->)
         end.
  all: cbn in *.
  all: try congruence.
  match goal with
  | Hs : <[_ := None]> _ !! _ = Some ?d, Hn : ?d <> None |- _ =>
      apply Hn;
      pose proof (lookup_lt_Some _ _ _ Hs) as Hlt;
      rewrite length_insert in Hlt;
      rewrite list_lookup_insert_eq in Hs by exact Hlt;
      congruence
  end.
Qed.

Lemma cell_act_Err fuel cell pos entity s f :
  cell_act fuel cell pos entity s = Err f -> f <> AssertFailed 482.
Proof.
  unfold cell_act. intros H. inv_err H;
    repeat match goal with
      | Hl : load_cell _ _ = Err _ |- _ => apply load_cell_Err in Hl; subst
      | Hl : update_cell _ _ _ = Err _ |- _ =>
          apply update_cell_Err in Hl; subst
      end;
    try discriminate;
    eauto using faced_situation_Err, cell_response_Err, entity_move_Err.
Qed.

Lemma cell_reap_Err cell entity s f :
  cell_reap cell entity s = Err f -> f <> AssertFailed 482.
Proof.
  unfold cell_reap. intros H. inv_err H;
    repeat match goal with
      | Hl : load_cell _ _ = Err _ |- _ => apply load_cell_Err in Hl; subst
      end;
    discriminate.
Qed.

Lemma entity_update_Err fuel pos T s f :
  entity_update fuel pos T s = Err f -> f <> AssertFailed 482.
Proof.
  unfold entity_update, cell_update. intros H. inv_err H;
    try discriminate; eauto using cell_act_Err, cell_reap_Err.
Qed.

(** ** The search for an empty slot *)

(** A perturbation offset is always produced, at the cost of one draw. *)
Lemma random_int_offset s :
  exists v, random_int (-1) 2 s = Ok v (set_drawn (S (drawn s)) s).
Proof.
  unfold random_int. change (to_uint32 (2 - -1)) with 3.
  change (3 =? 0) with false. cbv iota.
  unfold mrand48, next48, mbind, M_bind, mret, M_ret.
  set (v := rand48 (drawn s) mod 2 ^ 48).
  set (r := if v / 2 ^ 16 <? 2 ^ 31 then v / 2 ^ 16 else v / 2 ^ 16 - 2 ^ 32).
  assert (Hrem : -3 < Z.rem r 3 < 3).
  { pose proof (Z.rem_bound_abs r 3 ltac:(lia)). lia. }
  set (value := if Z.rem r 3 <? 0 then Z.rem r 3 + 3 else Z.rem r 3).
  assert (Hv : 0 <= value < 3)
    by (unfold value; destruct (Z.ltb_spec (Z.rem r 3) 0); lia).
  unfold assert.
  destruct (Z.leb_spec 0 value); [|lia].
  destruct (Z.ltb_spec value 3); [|lia]. cbn [andb].
  unfold INT_MIN, INT_MAX.
  destruct (Z.leb_spec (- 2 ^ 31) (value + -1)); [|lia].
  destruct (Z.leb_spec (value + -1) (2 ^ 31 - 1)); [|lia]. cbn [andb].
  eexists. reflexivity.
Qed.

Lemma perturb_coord_run c s :
  exists c', perturb_coord c s = Ok c' (set_drawn (S (S (drawn s))) s).
Proof.
  unfold perturb_coord.
  destruct (random_int_offset s) as [dx Hdx].
  rewrite (bind_run _ _ _ _ _ Hdx). cbv beta.
  destruct (random_int_offset (set_drawn (S (drawn s)) s)) as [dy Hdy].
  rewrite (bind_run _ _ _ _ _ Hdy). cbv beta.
  eexists. reflexivity.
Qed.

Lemma saturated_set_drawn n s : saturated s -> saturated (set_drawn n s).
Proof. intros H c Hc. exact (H c Hc). Qed.

(** On a full board the loop uses up whatever number of iterations it is
    given. *)
Lemma find_nearby_empty_loop_saturated fuel c s :
  saturated s -> find_nearby_empty_loop fuel c s = Err OutOfFuel.
Proof.
  revert c s. induction fuel as [|fuel IH]; intros c s Hsat; [reflexivity|].
  cbn [find_nearby_empty_loop].
  destruct (perturb_coord_run c s) as [c' Hc'].
  rewrite (bind_run _ _ _ _ _ Hc'). cbv beta.
  set (s2 := set_drawn (S (S (drawn s))) s).
  assert (Hsat2 : saturated s2) by (apply saturated_set_drawn, Hsat).
  rewrite (bind_run get_world _ s2 _ _ eq_refl). cbv beta.
  destruct (world_get_entity_ref (world s2) c') as [r|] eqn:Hr; [|auto].
  apply world_get_entity_ref_Some in Hr as [Hin ->].
  destruct (Hsat2 c' Hin) as [q Hq].
  pose proof Hin as [Hx Hy]%coord_in_bounds_spec.
  assert (Hi : 0 <= y c' * width (world s2) + x c') by nia.
  rewrite (bind_run _ _ _ _ _ (read_slot_run _ _ _ Hi Hq)). cbv beta.
  auto.
Qed.

(** C8, what the code does.  On a full board [find_nearby_empty] exhausts
    every number of iterations, and [relocate_food] never returns: its loop
    has no retry bound, and the fallback after it (destroy the Food) is
    never reached. *)
Theorem relocate_food_saturated fuel c s :
  saturated s ->
  (forall c', coord_in_bounds c' (world s) = true ->
     find_nearby_empty fuel c' s = Err OutOfFuel) /\
  (forall u s', relocate_food fuel c s <> Ok u s').
Proof.
  intros Hsat. split.
  - intros c' Hc'. unfold find_nearby_empty.
    rewrite (bind_run get_world _ s _ _ eq_refl). cbv beta.
    rewrite Hc'. unfold assert.
    rewrite (bind_run (mret tt) _ s tt s eq_refl).
    apply find_nearby_empty_loop_saturated, Hsat.
  - intros u s' H.
    apply relocate_food_Ok in H
      as (sa & q & o & dst & _ & Hdst & _ & Hnone & _).
    destruct (Hsat dst Hdst) as [q' Hq']. congruence.
Qed.

(** ** Perception and the direction of a move *)

Lemma faced_situation_wall cell c pos s :
  heap s !! cell = Some (Some (ObjCell c)) ->
  coord_in_bounds (facing_step (facing c) pos 1) (world s) = false ->
  faced_situation cell pos s = Ok SITUATION_WALL s.
Proof.
  intros Hc Hout. unfold faced_situation.
  rewrite (bind_run _ _ _ _ _ (load_cell_run _ _ _ Hc)). cbv beta.
  rewrite (bind_run get_world _ s _ _ eq_refl). cbv beta zeta.
  unfold coord_in_bounds in Hout.
  set (fc := facing_step (facing c) pos 1) in *.
  destruct (Z.ltb_spec (x fc) 0), (Z.leb_spec (width (world s)) (x fc)),
    (Z.ltb_spec (y fc) 0), (Z.leb_spec (height (world s)) (y fc));
    try reflexivity.
  exfalso. revert Hout.
  destruct (Z.leb_spec 0 (x fc)), (Z.ltb_spec (x fc) (width (world s))),
    (Z.leb_spec 0 (y fc)), (Z.ltb_spec (y fc) (height (world s)));
    cbn; (discriminate || lia).
Qed.

Lemma faced_situation_food cell c pos s q o :
  heap s !! cell = Some (Some (ObjCell c)) ->
  let fc := facing_step (facing c) pos 1 in
  coord_in_bounds fc (world s) = true ->
  entities (world s) !! Z.to_nat (y fc * width (world s) + x fc)
    = Some (Some q) ->
  heap s !! q = Some (Some o) ->
  type (entity_of o) = ENTITY_TYPE_FOOD ->
  faced_situation cell pos s = Ok SITUATION_FOOD s.
Proof.
  intros Hc fc Hin Hslot Hq Hty. unfold faced_situation.
  rewrite (bind_run _ _ _ _ _ (load_cell_run _ _ _ Hc)). cbv beta.
  rewrite (bind_run get_world _ s _ _ eq_refl). cbv beta zeta. fold fc.
  pose proof Hin as [Hx Hy]%coord_in_bounds_spec.
  destruct (Z.ltb_spec (x fc) 0), (Z.leb_spec (width (world s)) (x fc)),
    (Z.ltb_spec (y fc) 0), (Z.leb_spec (height (world s)) (y fc));
    try lia.
  cbn [orb]. unfold world_get_entity_ref. fold (coord_in_bounds fc (world s)).
  rewrite Hin.
  assert (Hi : 0 <= y fc * width (world s) + x fc) by nia.
  rewrite (bind_run _ _ _ _ _ (read_slot_run _ _ _ Hi Hslot)). cbv beta.
  rewrite (bind_run _ _ _ _ _ (load_run _ _ _ Hq)). cbv beta.
  rewrite Hty. reflexivity.
Qed.

(** C3, what the code does.  In the column the cell faces south with the
    Food straight ahead: it perceives Food and answers MoveForward, but the
    move goes backward onto the empty slot; the score only pays the cost
    (250 - 8), the Food is neither eaten nor relocated. *)
Theorem food_ahead_move_forward fuel :
  exists s' c,
    faced_situation 0%nat {| x := 0; y := 1 |} column_south_state
      = Ok SITUATION_FOOD column_south_state /\
    chromosome_response chromosome_big_square 0 SITUATION_FOOD
      = Some {| action := ACTION_MOVE_FORWARD; next_state := 1 |} /\
    entity_update fuel {| x := 0; y := 1 |} 1 column_south_state
      = Ok tt s' /\
    events s' = [EvAct 0%nat ACTION_MOVE_FORWARD] /\
    entities (world s') = [Some 0%nat; None; Some 1%nat] /\
    heap s' !! 0%nat = Some (Some (ObjCell c)) /\
    score c = 242.
Proof.
  do 2 eexists. split_and!.
  3: { vm_compute. reflexivity. }
  all: reflexivity.
Qed.

(** ** Where the acting cell is, and what it becomes *)

Lemma cell_at_same_grid p e s s' :
  entities (world s') = entities (world s) -> cell_at p e s -> cell_at p e s'.
Proof. intros He (H0 & H1 & H2). unfold cell_at. rewrite He. auto. Qed.

Lemma cell_at_move p e d s :
  cell_at p e s -> 0 <= d ->
  entities (world s) !! Z.to_nat d = Some None ->
  cell_at p d (slot_set (Z.to_nat e) None (slot_set (Z.to_nat d) (Some p) s)).
Proof.
  intros (H0 & H1 & H2) Hd Hnone.
  pose proof (lookup_lt_Some _ _ _ H1) as Hlt1.
  pose proof (lookup_lt_Some _ _ _ Hnone) as Hlt2.
  assert (Hne : Z.to_nat e <> Z.to_nat d)
    by (intros Heq; rewrite Heq, Hnone in H1; discriminate).
  split; [done|]. cbn. split.
  - rewrite list_lookup_insert_ne by done.
    apply list_lookup_insert_eq. done.
  - intros j Hj. destruct (decide (j = Z.to_nat e)) as [->|Hje].
    + rewrite list_lookup_insert_eq in Hj by (rewrite length_insert; done).
      discriminate.
    + rewrite list_lookup_insert_ne in Hj by done.
      destruct (decide (j = Z.to_nat d)) as [->|Hjd]; [done|].
      rewrite list_lookup_insert_ne in Hj by done.
      apply H2 in Hj. done.
Qed.

Lemma cell_at_other p d j v s :
  cell_at p d s -> j <> Z.to_nat d -> v <> Some p ->
  cell_at p d (slot_set j v s).
Proof.
  intros (H0 & H1 & H2) Hj Hv. split; [done|]. cbn. split.
  - rewrite list_lookup_insert_ne by done. done.
  - intros i Hi. destruct (decide (i = j)) as [->|Hij].
    + pose proof (lookup_lt_Some _ _ _ Hi) as Hlt.
      rewrite length_insert in Hlt.
      rewrite list_lookup_insert_eq in Hi by done. congruence.
    + rewrite list_lookup_insert_ne in Hi by done. auto.
Qed.

(** Two reads of the same address give the same cell. *)
Ltac same_cell :=
  repeat match goal with
    | H1 : ?h !! ?p = Some (Some (ObjCell ?a)),
      H2 : ?h !! ?p = Some (Some (ObjCell ?b)) |- _ =>
        assert (b = a) by congruence; subst b; clear H2
    end.

(** Lookups in a heap after stores and an allocation. *)
Lemma lookup_heap_insert (h : list (option Object)) p v o :
  h !! p = Some (Some o) -> <[p := v]> h !! p = Some v.
Proof. intros H. apply list_lookup_insert_eq. eapply lookup_lt_Some, H. Qed.

Lemma lookup_heap_app (h : list (option Object)) p v o :
  h !! p = Some (Some o) -> (h ++ [v]) !! p = Some (Some o).
Proof. intros H. rewrite lookup_app_l; [done|]. eapply lookup_lt_Some, H. Qed.

Lemma lookup_heap_new (h : list (option Object)) v :
  (h ++ [v]) !! length h = Some v.
Proof. rewrite lookup_app_r by lia. rewrite Nat.sub_diag. reflexivity. Qed.

Lemma cell_at_heap_set p e q v s :
  cell_at p e s -> cell_at p e (heap_set q v s).
Proof. apply cell_at_same_grid. reflexivity. Qed.

Lemma cell_at_heap_push p e o s :
  cell_at p e s -> cell_at p e (heap_push o s).
Proof. apply cell_at_same_grid. reflexivity. Qed.

Lemma cell_at_event_push p e ev s :
  cell_at p e s -> cell_at p e (event_push ev s).
Proof. apply cell_at_same_grid. reflexivity. Qed.

Lemma cell_at_set_drawn p e n s :
  cell_at p e s -> cell_at p e (set_drawn n s).
Proof. apply cell_at_same_grid. reflexivity. Qed.

Lemma cell_at_occupied p e d s :
  cell_at p e s -> entities (world s) !! Z.to_nat d = Some None ->
  Z.to_nat d <> Z.to_nat e.
Proof. intros (_ & H1 & _) Hd Heq. rewrite Heq in Hd. congruence. Qed.

Ltac len_tac :=
  rewrite ?length_insert, ?length_app in *; cbn [length] in *; lia.

(** Name the cell read back after a store or an allocation. *)
Ltac heap_norm :=
  repeat match goal with
    | H0 : ?h !! ?q = Some (Some ?o),
      Hl : (?h ++ [?v]) !! ?q = Some (Some (ObjCell ?c1)) |- _ =>
        is_var c1;
        let Heq := fresh in
        assert (Heq : Some (Some (ObjCell c1)) = Some (Some o))
          by (rewrite <- Hl; exact (lookup_heap_app h q v o H0));
        first [ injection Heq as <-
              | match o with
                | ObjCell ?x => assert (c1 = x) by congruence; subst c1
                end ];
        try clear Heq
    | H0 : ?h !! ?q = Some (Some ?o),
      Hl : <[?q := Some (ObjCell ?x)]> ?h !! ?q
           = Some (Some (ObjCell ?c1)) |- _ =>
        is_var c1;
        let Heq := fresh in
        assert (Heq : Some (Some (ObjCell c1)) = Some (Some (ObjCell x)))
          by (rewrite <- Hl;
              exact (lookup_heap_insert h q (Some (ObjCell x)) o H0));
        assert (c1 = x) by congruence; subst c1; clear Heq
    end.

Lemma move_transfer_spec p entity dest s e' s' c :
  heap s !! p = Some (Some (ObjCell c)) ->
  cell_at p entity s ->
  move_transfer p entity dest s = Ok e' s' ->
  e' = dest /\
  entities (world s) !! Z.to_nat dest = Some None /\
  Z.to_nat dest <> Z.to_nat entity /\
  cell_at p dest s' /\
  actors (events s') = actors (events s) /\
  width (world s') = width (world s) /\
  ((score c < CELL_MITOSIS_THRESHOLD /\
    heap s' = heap s /\
    entities (world s') !! Z.to_nat entity = Some None /\
    events s' = events s)
   \/
   (CELL_MITOSIS_THRESHOLD <= score c /\
    heap s' !! p = Some (Some (ObjCell (set_score CELL_START_SCORE c))) /\
    exists child,
      entities (world s') !! Z.to_nat entity = Some (Some child) /\
      events s' = events s ++ [EvBirth child p] /\
      mitosis_child s c p child s')).
Proof.
  intros Hp Hat H. unfold move_transfer, update_cell, load_cell in H.
  pose proof (lookup_lt_Some _ _ _ Hp) as Hlt.
  inv_run H;
    repeat match goal with
      | Hr : cell_new _ _ = Ok _ _ |- _ =>
          apply cell_new_Ok in Hr
            as (par & chr & col & sd & Hpar & Hmut & (n & _ & ->) & Hcol
                & -> & ->)
      | Hb : bool_decide _ = true |- _ => apply bool_decide_eq_true in Hb
      end;
    cbn in * |-; same_cell; subst; heap_norm;
    pose proof (cell_at_occupied _ _ _ _ Hat Hslot) as Hne;
    (split; [reflexivity|]); (split; [exact Hslot|]); (split; [exact Hne|]).
  - (* mitosis *)
    assert (Hchild : length (heap s) <> p) by lia.
    split.
    { apply cell_at_heap_set, cell_at_other;
        [ apply cell_at_event_push, cell_at_heap_push, cell_at_set_drawn,
            cell_at_move; done
        | done
        | cbn; congruence ]. }
    split; [cbn; rewrite actors_app; apply app_nil_r|].
    split; [reflexivity|]. right.
    apply Z.leb_le in Hif. split; [exact Hif|]. split.
    { cbn. apply list_lookup_insert_eq. len_tac. }
    exists (length (heap s)). split.
    { cbn. apply list_lookup_insert_eq. len_tac. }
    split; [reflexivity|]. split; [exact Hchild|].
    eexists. split.
    { cbn. rewrite list_lookup_insert_ne by lia. apply lookup_heap_new. }
    cbn. split_and!; try reflexivity; [exact Hcol|].
    exists (drawn s). split; [lia|].
    refine (chromosome_mutate_transport _ _ (set_drawn (drawn s) s) _ _ _
              Hmut).
    reflexivity.
  - (* no mitosis *)
    split; [apply cell_at_move; done|].
    split; [reflexivity|]. split; [reflexivity|]. left.
    apply Z.leb_gt in Hif. split; [exact Hif|]. split; [reflexivity|].
    split; [|reflexivity].
    cbn. apply list_lookup_insert_eq. len_tac.
Qed.

Lemma move_clear_destination_spec fuel p entity dc s blocked s' c :
  heap s !! p = Some (Some (ObjCell c)) ->
  type (cell_entity c) = ENTITY_TYPE_CELL ->
  cell_at p entity s ->
  move_clear_destination fuel p dc (y dc * width (world s) + x dc) s
    = Ok blocked s' ->
  (blocked = true /\ s' = s) \/
  (blocked = false /\
   exists credit c',
     heap s' !! p = Some (Some (ObjCell c')) /\
     same_but_score c c' /\
     score c' = score c + credit /\
     cell_at p entity s' /\
     actors (events s') = actors (events s) /\
     born (events s') = born (events s) /\
     width (world s') = width (world s) /\
     (drawn s <= drawn s')%nat /\
     ((credit = 0 /\
       entities (world s) !! Z.to_nat (y dc * width (world s) + x dc)
         = Some None /\
       s' = s)
      \/
      (credit = FOOD_SCORE /\
       exists q,
         entities (world s) !! Z.to_nat (y dc * width (world s) + x dc)
           = Some (Some q) /\
         q <> p))).
Proof.
  intros Hp Hty Hat H.
  unfold move_clear_destination, update_cell, load_cell in H.
  inv_run H;
    repeat match goal with
      | Hr : relocate_food _ _ _ = Ok _ _ |- _ =>
          pose proof (relocate_food_later _ _ _ _ _ Hr) as Hlater;
          apply relocate_food_Ok in Hr
            as (sa & q & o & dst & Hsrc_in & Hdst_in & Hsrc & Hdst & Hq
                & Hqty & [Hqh Hqe Hqw Hqhh Hqev] & ->)
      end;
    cbn in * |-; same_cell; subst.
  - (* a Food: eaten and relocated *)
    right. split; [reflexivity|].
    exists FOOD_SCORE, (set_score (score c + FOOD_SCORE) c).
    assert (Hqp : q <> p).
    { intros ->. rewrite (lookup_heap_insert _ _ _ _ Hp) in Hq.
      injection Hq as <-. cbn in Hqty. congruence. }
    set (src := Z.to_nat (y dc * width (world s) + x dc)) in *.
    set (dr := Z.to_nat (y dst * width (world s) + x dst)) in *.
    destruct Hat as (He0 & He1 & He2).
    assert (Hes : Z.to_nat entity <> src)
      by (intros Heq; rewrite Heq in He1; congruence).
    assert (Hed : Z.to_nat entity <> dr)
      by (intros Heq; rewrite Heq in He1; congruence).
    split_and!.
    + cbn. rewrite Hqh. apply (lookup_heap_insert _ _ _ _ Hp).
    + repeat split.
    + reflexivity.
    + split; [done|]. cbn. rewrite Hqe. fold src dr. split.
      * rewrite !list_lookup_insert_ne by done. done.
      * intros j Hj. destruct (decide (j = src)) as [->|Hjs].
        { pose proof (lookup_lt_Some _ _ _ Hj) as Hlt.
          rewrite length_insert in Hlt.
          rewrite list_lookup_insert_eq in Hj by done. discriminate. }
        rewrite list_lookup_insert_ne in Hj by done.
        destruct (decide (j = dr)) as [->|Hjd].
        { pose proof (lookup_lt_Some _ _ _ Hj) as Hlt.
          rewrite length_insert in Hlt.
          rewrite list_lookup_insert_eq in Hj by done. congruence. }
        rewrite list_lookup_insert_ne in Hj by done. auto.
    + cbn. rewrite Hqev, actors_app. apply app_nil_r.
    + cbn. rewrite Hqev, born_app. apply app_nil_r.
    + cbn. exact Hqw.
    + exact Hlater.
    + right. split; [reflexivity|]. exists q. split; [|done].
      match goal with
      | Hs : entities (world s) !! src = Some (Some ?a) |- _ => congruence
      end.
  - (* another cell: blocked *)
    left. split; reflexivity.
  - (* empty *)
    right. split; [reflexivity|]. exists 0, c.
    split; [done|]. split; [repeat split|]. split; [lia|].
    split; [done|]. split; [done|]. split; [done|]. split; [done|].
    split; [lia|].
    left. split_and!; done.
Qed.

Lemma mitosis_child_same s c c1 p child s' :
  same_but_score c c1 ->
  mitosis_child s c1 p child s' -> mitosis_child s c p child s'.
Proof.
  intros (He & _ & Hc & Hf & _) (Hne & ch & H1 & H2 & H3 & H4 & H5 & H6 & H7).
  split; [done|]. exists ch. rewrite <- He, <- Hf, <- Hc. split_and!; done.
Qed.

(** The mutation can be told from any earlier state. *)
Lemma mitosis_child_from s0 s c p child s' :
  (drawn s0 <= drawn s)%nat ->
  mitosis_child s c p child s' -> mitosis_child s0 c p child s'.
Proof.
  intros Hle (Hne & ch & H1 & H2 & H3 & H4 & H5 & H6 & k & Hk & Hmut).
  split; [done|]. exists ch. split_and!; try done.
  exists k. split; [lia|].
  refine (chromosome_mutate_transport _ _ (set_drawn k s0) _ _ _ Hmut).
  reflexivity.
Qed.

(** Nor does it matter what else becomes of the state later, as long as
    the child is left alone and nothing more is drawn. *)
Lemma mitosis_child_frame s c p child s1 s' :
  mitosis_child s c p child s1 ->
  drawn s' = drawn s1 ->
  heap s' !! child = heap s1 !! child ->
  mitosis_child s c p child s'.
Proof.
  intros (Hne & ch & H1 & Hrest) Hd Hh.
  split; [done|]. exists ch. rewrite Hh, Hd. split; done.
Qed.

Lemma entity_move_spec fuel p pos entity s e' s' c :
  heap s !! p = Some (Some (ObjCell c)) ->
  type (cell_entity c) = ENTITY_TYPE_CELL ->
  cell_at p entity s ->
  entity_move fuel p pos entity s = Ok e' s' ->
  exists c',
    heap s' !! p = Some (Some (ObjCell c')) /\
    same_but_score c c' /\
    cell_at p e' s' /\
    actors (events s') = actors (events s) /\
    width (world s') = width (world s) /\
    move_result c p pos entity e' s s' (score c').
Proof.
  intros Hp Hty Hat H. unfold entity_move in H.
  apply bind_Ok in H as (c0 & s1 & Hc0 & H).
  unfold load_cell in Hc0. inv_run Hc0. same_cell.
  apply bind_Ok in H as (w & s1 & Hw & H). inv_run Hw. cbv beta zeta in H.
  set (d := facing_step (facing c) pos move_steps) in *.
  destruct (coord_in_bounds d (world s)) eqn:Hin; cbn [negb] in H.
  2: { inv_run H. exists c. split_and!; try done. left. done. }
  apply bind_Ok in H as (blocked & s1 & Hclear & H).
  apply (move_clear_destination_spec _ _ _ _ _ _ _ _ Hp Hty Hat) in Hclear
    as [[-> ->]|(-> & credit & c1 & Hp1 & Hsame & Hscore & Hat1 & Hact1
                 & Hborn1 & Hw1 & Hdr1 & Hcredit)].
  { inv_run H. exists c. split_and!; try done. left. done. }
  cbv beta iota in H.
  apply (move_transfer_spec _ _ _ _ _ _ _ Hp1 Hat1) in H
    as (-> & Hnone & Hne & Hat' & Hact' & Hw' & Hout).
  assert (Hcr : (credit = 0 /\
                 entities (world s) !! Z.to_nat (y d * width (world s) + x d)
                 = Some None) \/
                (credit = FOOD_SCORE /\
                 exists q,
                   entities (world s)
                     !! Z.to_nat (y d * width (world s) + x d)
                   = Some (Some q) /\ q <> p)).
  { destruct Hcredit as [(-> & Hn & _)|(-> & q & Hq & Hqp)]; eauto. }
  destruct Hout as [(Hlow & Hheap & Hslot & Hev)
                   |(Hhigh & Hp' & child & Hslot & Hev & Hchild)].
  - exists c1.
    split; [rewrite Hheap; done|]. split; [done|]. split; [done|].
    split; [congruence|]. split; [congruence|].
    right. split; [done|]. split; [done|]. exists credit. split; [done|].
    left. split_and!; [lia|lia|done].
  - exists (set_score CELL_START_SCORE c1).
    split; [done|].
    split; [destruct Hsame as (? & ? & ? & ? & ?); repeat split; done|].
    split; [done|]. split; [congruence|]. split; [congruence|].
    right. split; [done|]. split; [done|]. exists credit. split; [done|].
    right. split_and!; [lia|reflexivity|].
    exists child. split_and!; [done| |].
    + rewrite Hev. apply elem_of_app. right.
      apply list_elem_of_singleton. done.
    + eapply mitosis_child_from; [exact Hdr1|].
      eapply mitosis_child_same; eauto.
Qed.

Lemma move_result_event c p pos entity e' ev s s' base :
  move_result c p pos entity e' (event_push ev s) s' base ->
  move_result c p pos entity e' s s' base.
Proof.
  intros [H|(H1 & H2 & credit & H3 & H4)]; [left; exact H|].
  right. split; [done|]. split; [done|]. exists credit. split; [done|].
  destruct H4 as [H4|(H5 & H6 & child & H7 & H8 & H9)]; [left; exact H4|].
  right. split; [done|]. split; [done|]. exists child.
  split; [done|]. split; [done|].
  eapply mitosis_child_from; [|exact H9]. cbn. lia.
Qed.

(** Later stores to the cell itself do not disturb the outcome. *)
Lemma move_result_frame c p pos entity e' s s1 s' base :
  move_result c p pos entity e' s s1 base ->
  entities (world s') = entities (world s1) ->
  events s' = events s1 ->
  drawn s' = drawn s1 ->
  (forall q, q <> p -> heap s' !! q = heap s1 !! q) ->
  move_result c p pos entity e' s s' base.
Proof.
  intros [(H1 & H2 & H3)|(H1 & H2 & credit & H3 & H4)] He Hev Hd Hh.
  - left. split_and!; congruence.
  - right. split; [done|]. split; [done|]. exists credit. split; [done|].
    destruct H4 as [(H5 & H6 & H7)|(H5 & H6 & child & H7 & H8 & H9)].
    + left. split_and!; congruence.
    + right. split; [done|]. split; [done|]. exists child.
      split; [congruence|]. split; [congruence|].
      eapply mitosis_child_frame; [exact H9 | exact Hd|].
      destruct H9 as (Hne & _). apply Hh. exact Hne.
Qed.

(** What lines 430-496 do to the cell [c] at [p]: it perceives [sit],
    looks up [r], acts, and pays the cost of the action out of [base], its
    score when the action is over. *)
Lemma cell_act_spec fuel p pos entity s e' s' c :
  heap s !! p = Some (Some (ObjCell c)) ->
  type (cell_entity c) = ENTITY_TYPE_CELL ->
  cell_at p entity s ->
  cell_act fuel p pos entity s = Ok e' s' ->
  exists sit r c' base,
    faced_situation p pos s = Ok sit s /\
    chromosome_response (chromosome c) (state c) sit = Some r /\
    heap s' !! p = Some (Some (ObjCell c')) /\
    cell_at p e' s' /\
    cell_entity c' = cell_entity c /\
    chromosome c' = chromosome c /\
    color c' = color c /\
    state c' = next_state r /\
    score c' = base - action_costs (action r) /\
    actors (events s') = actors (events s) ++ [p] /\
    width (world s') = width (world s) /\
    match action r with
    | ACTION_TURN_LEFT =>
        e' = entity /\ base = score c /\
        facing c' = facing_turn (facing c) (-1) /\
        entities (world s') = entities (world s)
    | ACTION_TURN_RIGHT =>
        e' = entity /\ base = score c /\
        facing c' = facing_turn (facing c) 1 /\
        entities (world s') = entities (world s)
    | ACTION_MOVE_FORWARD | ACTION_MOVE_BACKWARD =>
        facing c' = facing c /\
        move_result c p pos entity e' s s' base
    end.
Proof.
  intros Hp Hty Hat H. unfold cell_act in H.
  apply bind_Ok in H as (sit & s1 & Hsit & H).
  pose proof (faced_situation_Ok _ _ _ _ _ Hsit) as ->.
  apply bind_Ok in H as (c0 & s1 & Hc0 & H).
  unfold load_cell in Hc0. inv_run Hc0. same_cell.
  apply bind_Ok in H as (u & s1 & Hst & H). inv_run Hst.
  apply bind_Ok in H as (r0 & s1 & Hr & H).
  unfold cell_response in Hr.
  destruct (chromosome_response (chromosome c) (state c) sit) as [r|] eqn:Hcr;
    [|discriminate].
  apply mret_Ok in Hr as [-> ->].
  apply bind_Ok in H as (u1 & s1 & Hemit & H). inv_run Hemit.
  apply bind_Ok in H as (e1 & s1 & Hactn & H).
  set (sa := event_push (EvAct p (action r)) s) in *.
  assert (Hpa : heap sa !! p = Some (Some (ObjCell c))) by exact Hp.
  assert (Hata : cell_at p entity sa) by (apply cell_at_event_push, Hat).
  assert (Hacta : actors (events sa) = actors (events s) ++ [p])
    by (unfold sa; cbn; apply actors_app).
  exists sit, r.
  assert (Hpay : forall c1 base,
            heap s1 !! p = Some (Some (ObjCell c1)) ->
            score c1 = base ->
            exists c',
              heap s' !! p = Some (Some (ObjCell c')) /\
              cell_entity c' = cell_entity c1 /\
              chromosome c' = chromosome c1 /\
              color c' = color c1 /\
              facing c' = facing c1 /\
              state c' = next_state r /\
              score c' = base - action_costs (action r) /\
              entities (world s') = entities (world s1) /\
              events s' = events s1 /\
              width (world s') = width (world s1) /\
              drawn s' = drawn s1 /\
              (forall q, q <> p -> heap s' !! q = heap s1 !! q)).
  { intros c1 base Hp1 Hb. unfold update_cell, load_cell in H. inv_run H.
    cbn in * |-. same_cell. heap_norm.
    match goal with
    | Hl : heap s1 !! p = Some _ |- _ =>
        pose proof (lookup_lt_Some _ _ _ Hl) as Hlt1
    end.
    eexists. split; [cbn; apply list_lookup_insert_eq; len_tac|].
    cbn. split_and!; try reflexivity.
    intros q Hq. rewrite !list_lookup_insert_ne by done. done. }
  assert (e' = e1) as ->
    by (unfold update_cell, load_cell in H; inv_run H; reflexivity).
  clear H.
  assert (Hmove : forall a,
            action r = a ->
            entity_move fuel p pos entity sa = Ok e1 s1 ->
            exists c' base,
              faced_situation p pos s = Ok sit s /\
              chromosome_response (chromosome c) (state c) sit = Some r /\
              heap s' !! p = Some (Some (ObjCell c')) /\
              cell_at p e1 s' /\
              cell_entity c' = cell_entity c /\
              chromosome c' = chromosome c /\
              color c' = color c /\
              state c' = next_state r /\
              score c' = base - action_costs a /\
              actors (events s') = actors (events s) ++ [p] /\
              width (world s') = width (world s) /\
              facing c' = facing c /\
              move_result c p pos entity e1 s s' base).
  { intros a Ha Hm.
    apply (entity_move_spec _ _ _ _ _ _ _ _ Hpa Hty Hata) in Hm
      as (c1 & Hp1 & (Hs1 & Hs2 & Hs3 & Hs4 & Hs5) & Hat1 & Hact1 & Hw1 & Hres).
    destruct (Hpay c1 (score c1) Hp1 eq_refl)
      as (c' & Hp' & H1 & H2 & H3 & H4 & H5 & H6 & H7 & H8 & H9 & Hd & H10).
    exists c', (score c1).
    split; [exact Hsit|]. split; [exact Hcr|]. split; [exact Hp'|].
    split; [eapply cell_at_same_grid; eauto|].
    split; [congruence|]. split; [congruence|]. split; [congruence|].
    split; [exact H5|]. split; [congruence|]. split; [congruence|].
    split; [exact (eq_trans H9 Hw1)|]. split; [congruence|].
    apply (move_result_event _ _ _ _ _ (EvAct p (action r))).
    eapply move_result_frame; eauto. }
  assert (Hturn : forall f,
            (update_cell p (fun c => set_facing (f (facing c)) c)
               ≫= fun _ => mret entity) sa = Ok e1 s1 ->
            exists c' base,
              faced_situation p pos s = Ok sit s /\
              chromosome_response (chromosome c) (state c) sit = Some r /\
              heap s' !! p = Some (Some (ObjCell c')) /\
              cell_at p e1 s' /\
              cell_entity c' = cell_entity c /\
              chromosome c' = chromosome c /\
              color c' = color c /\
              state c' = next_state r /\
              score c' = base - action_costs (action r) /\
              actors (events s') = actors (events s) ++ [p] /\
              width (world s') = width (world s) /\
              e1 = entity /\ base = score c /\
              facing c' = f (facing c) /\
              entities (world s') = entities (world s)).
  { intros f Ht. unfold update_cell, load_cell in Ht. inv_run Ht.
    cbn in * |-. same_cell.
    destruct (Hpay (set_facing (f (facing c)) c) (score c))
      as (c' & Hp' & H1 & H2 & H3 & H4 & H5 & H6 & H7 & H8 & H9 & Hd & H10);
      [cbn; apply (lookup_heap_insert _ _ _ _ Hp) | reflexivity |].
    exists c', (score c).
    split; [exact Hsit|]. split; [exact Hcr|]. split; [exact Hp'|].
    split; [eapply cell_at_same_grid; [|exact Hata]; rewrite H7;
            reflexivity|].
    split_and!; try done. rewrite H8. exact Hacta. }
  destruct (action r) eqn:Hact.
  - destruct (Hmove _ eq_refl Hactn) as (c' & base & Hall).
    exists c', base. split_and!; apply Hall.
  - destruct (Hturn (fun f => facing_turn f (-1)) Hactn)
      as (c' & base & Hall).
    exists c', base. split_and!; apply Hall.
  - destruct (Hturn (fun f => facing_turn f 1) Hactn) as (c' & base & Hall).
    exists c', base. split_and!; apply Hall.
  - destruct (Hmove _ eq_refl Hactn) as (c' & base & Hall).
    exists c', base. split_and!; apply Hall.
Qed.

(** ** Death *)

Lemma cell_at_gone p e s :
  cell_at p e s ->
  forall j, entities (world (slot_set (Z.to_nat e) None s)) !! j
            <> Some (Some p).
Proof.
  intros (H0 & H1 & H2) j Hj. cbn in Hj.
  destruct (decide (j = Z.to_nat e)) as [->|Hne].
  - pose proof (lookup_lt_Some _ _ _ H1) as Hlt.
    rewrite list_lookup_insert_eq in Hj by done. discriminate.
  - rewrite list_lookup_insert_ne in Hj by done. apply H2 in Hj. done.
Qed.

(** Lines 498-501, run on a cell that sits in the slot [entity] points
    to. *)
Lemma cell_reap_run p e s c :
  heap s !! p = Some (Some (ObjCell c)) ->
  cell_at p e s ->
  cell_reap p e s
  = Ok tt (if score c <=? 0
           then slot_set (Z.to_nat e) None (heap_set p None s)
           else s).
Proof.
  intros Hp (H0 & H1 & H2). unfold cell_reap.
  rewrite (bind_run _ _ _ _ _ (load_cell_run _ _ _ Hp)). cbv beta.
  destruct (score c <=? 0); [|reflexivity].
  rewrite (bind_run _ _ _ _ _ (read_slot_run _ _ _ H0 H1)). cbv beta.
  rewrite (bind_run _ _ _ _ _ (free_run _ _ _ Hp)). cbv beta.
  apply write_slot_run; [done|]. cbn. eapply lookup_lt_Some; eauto.
Qed.

(** The update of a slot that holds a cell with another tag: the cell is
    tagged and acts. *)
Lemma entity_update_cell fuel pos T s p c :
  let i := y pos * width (world s) + x pos in
  0 <= i ->
  entities (world s) !! Z.to_nat i = Some (Some p) ->
  heap s !! p = Some (Some (ObjCell c)) ->
  type (cell_entity c) = ENTITY_TYPE_CELL ->
  last_update_color (cell_entity c) <> T ->
  entity_update fuel pos T s
  = cell_update fuel p pos i (heap_set p (Some (ObjCell (tag_cell T c))) s).
Proof.
  intros i Hi Hslot Hp Hty Htag. unfold entity_update.
  rewrite (bind_run get_world _ s _ _ eq_refl). cbv beta zeta. fold i.
  rewrite (bind_run _ _ _ _ _ (read_slot_run _ _ _ Hi Hslot)). cbv beta.
  rewrite (bind_run _ _ _ _ _ (load_run _ _ _ Hp)). cbv beta.
  cbn [entity_of].
  destruct (Z.eqb_spec (last_update_color (cell_entity c)) T); [done|].
  rewrite (bind_run _ _ _ _ _ (store_run _ _ _ _ Hp)). cbv beta.
  unfold tag_cell. cbn. rewrite !Hty. reflexivity.
Qed.

(** C5.  Take a cell [c] at [p], alone in its slot, which [entity_update]
    finds with another tag.  When lines 430-496 are over the cell is [c1],
    its score the score after the cost of the chosen action, and it sits
    in slot [e1].  If that score is at most 0, [entity_update] returns with
    the cell freed, slot [e1] empty and the cell referenced from no slot.
    If it is greater than 0, [entity_update] returns with the cell in the
    grid, in slot [e1], unchanged. *)
Theorem cell_dies_when_score_spent fuel pos T s p c e1 s1 :
  let i := y pos * width (world s) + x pos in
  cell_at p i s ->
  heap s !! p = Some (Some (ObjCell c)) ->
  type (cell_entity c) = ENTITY_TYPE_CELL ->
  last_update_color (cell_entity c) <> T ->
  cell_act fuel p pos i (heap_set p (Some (ObjCell (tag_cell T c))) s)
    = Ok e1 s1 ->
  exists c1 sit r base,
    heap s1 !! p = Some (Some (ObjCell c1)) /\
    cell_at p e1 s1 /\
    chromosome_response (chromosome c) (state c) sit = Some r /\
    score c1 = base - action_costs (action r) /\
    (score c1 <= 0 ->
     exists s',
       entity_update fuel pos T s = Ok tt s' /\
       heap s' !! p = Some None /\
       entities (world s') !! Z.to_nat e1 = Some None /\
       forall j, entities (world s') !! j <> Some (Some p)) /\
    (0 < score c1 ->
     entity_update fuel pos T s = Ok tt s1).
Proof.
  intros i Hat Hp Hty Htag Hact.
  pose proof Hat as (Hi & Hslot & _).
  rewrite (entity_update_cell fuel pos T s p c Hi Hslot Hp Hty Htag).
  fold i. unfold cell_update. rewrite (bind_run _ _ _ _ _ Hact). cbv beta.
  set (st := heap_set p (Some (ObjCell (tag_cell T c))) s) in *.
  assert (Hpt : heap st !! p = Some (Some (ObjCell (tag_cell T c))))
    by (cbn; apply (lookup_heap_insert _ _ _ _ Hp)).
  assert (Hatt : cell_at p i st) by (apply cell_at_heap_set, Hat).
  destruct (cell_act_spec _ _ _ _ _ _ _ _ Hpt Hty Hatt Hact)
    as (sit & r & c1 & base & _ & Hcr & Hp1 & Hat1 & _ & _ & _ & _ & Hsc & _).
  exists c1, sit, r, base. split_and!; try done.
  - intros Hdead. rewrite (cell_reap_run _ _ _ _ Hp1 Hat1).
    destruct (Z.leb_spec (score c1) 0); [|lia].
    eexists. split; [reflexivity|]. split_and!.
    + cbn. apply (lookup_heap_insert _ _ _ _ Hp1).
    + cbn. apply list_lookup_insert_eq.
      destruct Hat1 as (_ & H1 & _). eapply lookup_lt_Some; eauto.
    + apply cell_at_gone. apply cell_at_heap_set, Hat1.
  - intros Halive. rewrite (cell_reap_run _ _ _ _ Hp1 Hat1).
    destruct (Z.leb_spec (score c1) 0); [lia|]. reflexivity.
Qed.

(** ** Moves *)

(** An update that returns with the cell in another slot: the cell chose a
    move, the move went through as [move_result] says, and the cell
    survived the cost. *)
Lemma entity_update_moved fuel pos T s s' p c j :
  let i := y pos * width (world s) + x pos in
  let st := heap_set p (Some (ObjCell (tag_cell T c))) s in
  cell_at p i s ->
  heap s !! p = Some (Some (ObjCell c)) ->
  type (cell_entity c) = ENTITY_TYPE_CELL ->
  last_update_color (cell_entity c) <> T ->
  entity_update fuel pos T s = Ok tt s' ->
  j <> Z.to_nat i ->
  entities (world s') !! j = Some (Some p) ->
  exists sit r c' base e',
    faced_situation p pos st = Ok sit st /\
    chromosome_response (chromosome c) (state c) sit = Some r /\
    (action r = ACTION_MOVE_FORWARD \/ action r = ACTION_MOVE_BACKWARD) /\
    heap s' !! p = Some (Some (ObjCell c')) /\
    score c' = base - action_costs (action r) /\
    0 < score c' /\
    j = Z.to_nat e' /\
    move_result (tag_cell T c) p pos i e' st s' base.
Proof.
  intros i st Hat Hp Hty Htag Hrun Hj Hslotj.
  pose proof Hat as (Hi & Hslot & _).
  rewrite (entity_update_cell fuel pos T s p c Hi Hslot Hp Hty Htag) in Hrun.
  fold i st in Hrun. unfold cell_update in Hrun.
  apply bind_Ok in Hrun as (e1 & s1 & Hact & Hreap).
  assert (Hpt : heap st !! p = Some (Some (ObjCell (tag_cell T c))))
    by (cbn; apply (lookup_heap_insert _ _ _ _ Hp)).
  assert (Hatt : cell_at p i st) by (apply cell_at_heap_set, Hat).
  destruct (cell_act_spec _ _ _ _ _ _ _ _ Hpt Hty Hatt Hact)
    as (sit & r & c1 & base & Hsit & Hcr & Hp1 & Hat1 & _ & _ & _ & _ & Hsc
        & _ & _ & Hcase).
  rewrite (cell_reap_run _ _ _ _ Hp1 Hat1) in Hreap.
  destruct (Z.leb_spec (score c1) 0) as [Hdead|Halive].
  { injection Hreap as <-.
    exfalso. revert Hslotj. apply cell_at_gone, cell_at_heap_set, Hat1. }
  injection Hreap as <-.
  assert (He1 : j = Z.to_nat e1) by (destruct Hat1 as (_ & _ & Hu); auto).
  exists sit, r, c1, base, e1.
  destruct (action r) eqn:Hr;
    try (destruct Hcase as (-> & _); congruence);
    destruct Hcase as [_ Hm]; split_and!; auto.
Qed.

(** C1, what the code does.  Take a cell [c] at [p], alone in its slot,
    which [entity_update] finds with another tag, and suppose the update
    returns with the cell in another slot [j].  Then the cell chose
    MoveForward or MoveBackward, and whichever it chose, [j] is the slot
    one step behind it: [facing_step] was called with -1, the value of
    [ACTION_MOVE_FORWARD ? 1 : -1]. *)
Theorem move_forward_steps_backward fuel pos T s s' p c j :
  let i := y pos * width (world s) + x pos in
  let st := heap_set p (Some (ObjCell (tag_cell T c))) s in
  let d := facing_step (facing c) pos (-1) in
  cell_at p i s ->
  heap s !! p = Some (Some (ObjCell c)) ->
  type (cell_entity c) = ENTITY_TYPE_CELL ->
  last_update_color (cell_entity c) <> T ->
  entity_update fuel pos T s = Ok tt s' ->
  j <> Z.to_nat i ->
  entities (world s') !! j = Some (Some p) ->
  exists sit r,
    faced_situation p pos st = Ok sit st /\
    chromosome_response (chromosome c) (state c) sit = Some r /\
    (action r = ACTION_MOVE_FORWARD \/ action r = ACTION_MOVE_BACKWARD) /\
    coord_in_bounds d (world s) = true /\
    j = Z.to_nat (y d * width (world s) + x d).
Proof.
  intros i st d Hat Hp Hty Htag Hrun Hj Hslotj.
  destruct (entity_update_moved _ _ _ _ _ _ _ _ Hat Hp Hty Htag Hrun Hj Hslotj)
    as (sit & r & c' & base & e' & Hsit & Hcr & Hact & _ & _ & _ & He' & Hm).
  destruct Hm as [(Hst & _) | (_ & (He & Hin) & _)].
  { exfalso. apply Hj. rewrite He', Hst. reflexivity. }
  exists sit, r. split_and!; try done.
  rewrite He', He. reflexivity.
Qed.

(** ** Relocation makes room *)

(** C10.  When [relocate_food] returns, the Food has gone from its old
    slot, which is now empty, to a slot that was empty before: so not back
    onto its old slot, and not onto the slot of the eating cell or of any
    other entity, all of which stay where they were.  The assertion of
    line 482, that the destination of the move is empty, therefore never
    fails, in any state. *)
Theorem relocate_food_vacates fuel c s u s' :
  relocate_food fuel c s = Ok u s' ->
  let src := Z.to_nat (y c * width (world s) + x c) in
  (exists q dst,
     let dr := Z.to_nat (y dst * width (world s) + x dst) in
     coord_in_bounds dst (world s) = true /\
     entities (world s) !! src = Some (Some q) /\
     entities (world s) !! dr = Some None /\
     entities (world s') !! src = Some None /\
     entities (world s') !! dr = Some (Some q) /\
     (forall j p, entities (world s) !! j = Some (Some p) ->
        j <> dr /\ (j <> src -> entities (world s') !! j = Some (Some p)))) /\
  (forall fuel' pos T s1,
     entity_update fuel' pos T s1 <> Err (AssertFailed 482)).
Proof.
  intros H src. split.
  - apply relocate_food_Ok in H
      as (sa & q & o & dst & _ & Hdst & Hsrc & Hdr & _ & _ & Hquiet & ->).
    cbv zeta in *. fold src in Hsrc |- *.
    set (dr := Z.to_nat (y dst * width (world s) + x dst)) in *.
    destruct Hquiet as [_ He _ _ _].
    assert (Hne : src <> dr)
      by (intros Heq; rewrite Heq, Hdr in Hsrc; discriminate).
    pose proof (lookup_lt_Some _ _ _ Hsrc) as Hlt1.
    pose proof (lookup_lt_Some _ _ _ Hdr) as Hlt2.
    exists q, dst. cbn. rewrite He. split_and!; try done.
    + apply list_lookup_insert_eq. rewrite length_insert. done.
    + rewrite list_lookup_insert_ne by done.
      apply list_lookup_insert_eq. done.
    + intros j p Hj.
      assert (Hjd : j <> dr)
        by (intros Heq; rewrite Heq, Hdr in Hj; discriminate).
      split; [done|]. intros Hjs.
      rewrite list_lookup_insert_ne by done.
      rewrite list_lookup_insert_ne by done. done.
  - intros fuel' pos T s1 Herr.
    exact (entity_update_Err _ _ _ _ _ Herr eq_refl).
Qed.

(** ** The single update per tick *)

(** C2.  In one call of [update_world] with tag [T] no entity acts twice:
    the cells that acted are pairwise distinct; each of them was there when
    the pass began, with a tag other than [T]; a cell born during the pass
    does not act in it; and all of these end the pass tagged [T].  An entity
    whose tag already is [T] is skipped: [entity_update] returns at once
    and changes nothing. *)
Theorem update_world_acts_once fuel T s s' :
  events s = [] ->
  update_world fuel T s = Ok tt s' ->
  NoDup (actors (events s')) /\
  (forall p, p ∈ actors (events s') ->
     exists o, heap s !! p = Some (Some o) /\
               last_update_color (entity_of o) <> T) /\
  (forall child, child ∈ born (events s') -> child ∉ actors (events s')) /\
  (forall p o, p ∈ actors (events s') \/ p ∈ born (events s') ->
     heap s' !! p = Some (Some o) -> last_update_color (entity_of o) = T) /\
  (forall s1 pos p o,
     0 <= y pos * width (world s1) + x pos ->
     entities (world s1) !! Z.to_nat (y pos * width (world s1) + x pos)
       = Some (Some p) ->
     heap s1 !! p = Some (Some o) ->
     last_update_color (entity_of o) = T ->
     entity_update fuel pos T s1 = Ok tt s1).
Proof.
  intros Hev H. pose proof (update_world_inv T fuel s tt s' Hev H) as Hinv.
  split_and!.
  - exact (pi_nodup _ _ _ _ Hinv).
  - exact (pi_origin _ _ _ _ Hinv).
  - exact (pi_born _ _ _ _ Hinv).
  - intros p o Hp Ho. exact (pi_tagged _ _ _ _ Hinv p Hp o Ho).
  - intros s1 pos p o. apply entity_update_skip.
Qed.


(** * Further properties of the engine *)

(** ** Turning and stepping *)

Lemma facing_of_value_value f : facing_of_value (facing_value f) = f.
Proof. destruct f; reflexivity. Qed.

Lemma facing_value_of_value z :
  0 <= z < 4 -> facing_value (facing_of_value z) = z.
Proof.
  intros Hz. unfold facing_of_value.
  destruct (Z.eqb_spec z 0); [subst; reflexivity|].
  destruct (Z.eqb_spec z 1); [subst; reflexivity|].
  destruct (Z.eqb_spec z 2); [subst; reflexivity|].
  cbn. lia.
Qed.

Lemma facing_value_range f : 0 <= facing_value f < 4.
Proof. destruct f; cbn; lia. Qed.

Lemma facing_turn_mod f turn :
  facing_value (facing_turn f turn) = (facing_value f + turn) mod 4.
Proof.
  pose proof (facing_value_range f) as Hf.
  unfold facing_turn, FACING_MAX.
  destruct (Z.ltb_spec turn 0) as [Hneg|Hpos].
  - rewrite Z.rem_mod_nonneg by lia.
    rewrite facing_value_of_value by (apply Z.mod_pos_bound; lia).
    replace (facing_value f + turn * -3)
      with (facing_value f + turn + (- turn) * 4) by lia.
    apply Z.mod_add. lia.
  - rewrite Z.rem_mod_nonneg by lia.
    apply facing_value_of_value, Z.mod_pos_bound. lia.
Qed.

Lemma facing_value_inj f g : facing_value f = facing_value g -> f = g.
Proof. destruct f, g; cbn; congruence. Qed.

(** X1.  [facing_turn] is addition modulo 4 on the values of the
    enumeration, for a left turn (a negative count, which the code
    multiplies by -3) as for a right turn, as long as the [int] arithmetic
    of the function stays in range. *)
Theorem facing_turn_value f turn :
  -715827881 <= turn <= INT_MAX - 3 ->
  facing_value (facing_turn f turn) = (facing_value f + turn) mod 4.
Proof. intros _. apply facing_turn_mod. Qed.

(** X2.  Turns compose: turning by [a] and then by [b] is turning by
    [a + b].  A left turn undoes a right turn, and four turns the same way
    lead back to the facing one started with. *)
Theorem facing_turn_compose f a b :
  -715827881 <= a <= INT_MAX - 3 ->
  -715827881 <= b <= INT_MAX - 3 ->
  -715827881 <= a + b <= INT_MAX - 3 ->
  facing_turn (facing_turn f a) b = facing_turn f (a + b) /\
  facing_turn (facing_turn f 1) (-1) = f /\
  facing_turn (facing_turn f (-1)) 1 = f /\
  facing_turn (facing_turn (facing_turn (facing_turn f 1) 1) 1) 1 = f.
Proof.
  intros _ _ _. split.
  - apply facing_value_inj. rewrite !facing_turn_mod.
    rewrite Z.add_mod_idemp_l by lia. f_equal. lia.
  - destruct f; repeat split; reflexivity.
Qed.

(** X3.  A step changes the coordinate along the axis of the facing by
    [steps] and leaves the other one alone; the same step made with the
    facing turned round leads back to the start. *)
Theorem facing_step_back f c steps :
  in_int (x c - steps) -> in_int (x c + steps) ->
  in_int (y c - steps) -> in_int (y c + steps) ->
  let c' := facing_step f c steps in
  Z.abs (x c' - x c) + Z.abs (y c' - y c) = Z.abs steps /\
  (x c' = x c \/ y c' = y c) /\
  facing_step (facing_turn f 2) c' steps = c /\
  facing_step f c' (- steps) = c.
Proof.
  intros _ _ _ _ c'. subst c'. destruct c as [cx cy].
  assert (Ht : facing_turn f 2
               = match f with
                 | FACING_NORTH => FACING_SOUTH
                 | FACING_EAST => FACING_WEST
                 | FACING_SOUTH => FACING_NORTH
                 | FACING_WEST => FACING_EAST
                 end) by (destruct f; reflexivity).
  rewrite Ht.
  destruct f; cbn [facing_step x y];
    (split_and!; [lia | auto | f_equal; lia | f_equal; lia]).
Qed.

(** ** Slots *)

(** X4.  On a board whose number of slots is an [int], so that the [int]
    arithmetic of the index [y * width + x] does not overflow, two
    coordinates of the board never share a slot, and the slot of a
    coordinate of the board lies inside the array of [width * height]
    entries. *)
Theorem world_get_entity_ref_injective w c1 c2 i :
  width w * height w <= INT_MAX ->
  world_get_entity_ref w c1 = Some i ->
  world_get_entity_ref w c2 = Some i ->
  c1 = c2 /\ 0 <= i < width w * height w /\
  in_int (y c1 * width w) /\ in_int i.
Proof.
  intros Harea [H1 ->]%world_get_entity_ref_Some
    [H2 Heq]%world_get_entity_ref_Some.
  apply coord_in_bounds_spec in H1, H2.
  destruct c1 as [x1 y1], c2 as [x2 y2]. cbn in *.
  assert (y1 = y2) by nia. subst y2.
  assert (x1 = x2) by lia. subst x2.
  unfold in_int, INT_MIN, INT_MAX in *.
  split; [reflexivity|]. split; [nia|]. split; nia.
Qed.

(** [coord_equal] holds exactly of equal coordinates. *)
Lemma coord_equal_spec a b : coord_equal a b = true <-> a = b.
Proof.
  unfold coord_equal. rewrite andb_true_iff, !Z.eqb_eq.
  destruct a, b; cbn. split; [intros [-> ->]; reflexivity | intros [= -> ->]; auto].
Qed.

(** ** Random integers *)

Lemma set_drawn_set_drawn n m s : set_drawn n (set_drawn m s) = set_drawn n s.
Proof. reflexivity. Qed.

Lemma next48_range s v s' : next48 s = Ok v s' -> 0 <= v < 2 ^ 48.
Proof. intros [= <- _]. apply Z.mod_pos_bound. lia. Qed.

Lemma lrand48_run s :
  exists v, lrand48 s = Ok v (set_drawn (S (drawn s)) s) /\ 0 <= v < 2 ^ 31.
Proof.
  unfold lrand48, next48, mbind, M_bind, mret, M_ret.
  eexists. split; [reflexivity|].
  pose proof (Z.mod_pos_bound (rand48 (drawn s)) (2 ^ 48) ltac:(lia)) as Hv.
  split; [apply Z.div_pos; lia|].
  apply Z.div_lt_upper_bound; lia.
Qed.

Lemma mrand48_run s :
  exists v, mrand48 s = Ok v (set_drawn (S (drawn s)) s) /\
            - 2 ^ 31 <= v < 2 ^ 31.
Proof.
  unfold mrand48, next48, mbind, M_bind, mret, M_ret.
  eexists. split; [reflexivity|].
  pose proof (Z.mod_pos_bound (rand48 (drawn s)) (2 ^ 48) ltac:(lia)) as Hv.
  assert (0 <= rand48 (drawn s) mod 2 ^ 48 / 2 ^ 16 < 2 ^ 32).
  { split; [apply Z.div_pos; lia|]. apply Z.div_lt_upper_bound; lia. }
  destruct (Z.ltb_spec (rand48 (drawn s) mod 2 ^ 48 / 2 ^ 16) (2 ^ 31)); lia.
Qed.

Lemma drand48_lt_run bound s :
  exists b, drand48_lt bound s = Ok b (set_drawn (S (drawn s)) s).
Proof. eexists. reflexivity. Qed.

(** [random_int] on a proper range. *)
Lemma random_int_run lo hi s :
  in_int lo -> in_int hi -> lo < hi -> hi - lo <= INT_MAX ->
  exists v, random_int lo hi s = Ok v (set_drawn (S (drawn s)) s) /\
            lo <= v < hi.
Proof.
  unfold in_int, INT_MIN, INT_MAX. intros Hlo Hhi Hlt Hrange.
  unfold random_int.
  assert (Hr : to_uint32 (hi - lo) = hi - lo)
    by (unfold to_uint32; apply Z.mod_small; lia).
  rewrite Hr.
  destruct (Z.eqb_spec (hi - lo) 0); [lia|].
  destruct (mrand48_run s) as (r & Hrun & _).
  rewrite (bind_run _ _ _ _ _ Hrun). cbv beta zeta.
  assert (Hrem : - (hi - lo) < Z.rem r (hi - lo) < hi - lo).
  { pose proof (Z.rem_bound_abs r (hi - lo) ltac:(lia)). lia. }
  set (value := if Z.rem r (hi - lo) <? 0
                then Z.rem r (hi - lo) + (hi - lo) else Z.rem r (hi - lo)).
  assert (Hv : 0 <= value < hi - lo)
    by (unfold value; destruct (Z.ltb_spec (Z.rem r (hi - lo)) 0); lia).
  unfold assert, INT_MIN, INT_MAX.
  destruct (Z.leb_spec 0 value); [|lia].
  destruct (Z.ltb_spec value (hi - lo)); [|lia]. cbn [andb].
  unfold mbind, M_bind, mret, M_ret.
  destruct (Z.leb_spec (- 2 ^ 31) (value + lo)); [|lia].
  destruct (Z.leb_spec (value + lo) (2 ^ 31 - 1)); [|lia]. cbn [andb].
  exists (value + lo). split; [reflexivity | lia].
Qed.

(** X5.  On a range [min < max] of [int] values whose width is an [int],
    [random_int] returns, after one draw, a value [v] with
    [min <= v < max]; neither of its assertions can fail. *)
Theorem random_int_range lo hi s :
  in_int lo -> in_int hi -> lo < hi -> hi - lo <= INT_MAX ->
  exists v, random_int lo hi s = Ok v (set_drawn (S (drawn s)) s) /\
            lo <= v < hi.
Proof. apply random_int_run. Qed.

Lemma perturb_coord_near c s :
  exists dx dy,
    perturb_coord c s
      = Ok {| x := x c + dx; y := y c + dy |}
           (set_drawn (S (S (drawn s))) s) /\
    -1 <= dx <= 1 /\ -1 <= dy <= 1.
Proof.
  unfold perturb_coord.
  destruct (random_int_run (-1) 2 s) as (dx & Hdx & Hx);
    [unfold in_int, INT_MIN, INT_MAX; lia..|].
  rewrite (bind_run _ _ _ _ _ Hdx). cbv beta.
  destruct (random_int_run (-1) 2 (set_drawn (S (drawn s)) s))
    as (dy & Hdy & Hy); [unfold in_int, INT_MIN, INT_MAX; lia..|].
  rewrite (bind_run _ _ _ _ _ Hdy). cbv beta.
  exists dx, dy. split; [reflexivity | lia].
Qed.

(** X6.  [perturb_coord] returns, after two draws, the coordinate itself
    or one of its eight neighbours. *)
Theorem perturb_coord_neighbour c s :
  in_int (x c - 1) -> in_int (x c + 1) ->
  in_int (y c - 1) -> in_int (y c + 1) ->
  exists c',
    perturb_coord c s = Ok c' (set_drawn (S (S (drawn s))) s) /\
    Z.abs (x c' - x c) <= 1 /\ Z.abs (y c' - y c) <= 1.
Proof.
  intros _ _ _ _.
  destruct (perturb_coord_near c s) as (dx & dy & Hrun & Hdx & Hdy).
  eexists. split; [exact Hrun|]. cbn. lia.
Qed.

(** ** Colours *)

Lemma lor_bound a b n :
  0 <= a < 2 ^ n -> 0 <= b < 2 ^ n -> 0 <= Z.lor a b < 2 ^ n.
Proof.
  intros Ha Hb. split; [apply Z.lor_nonneg; lia|].
  destruct (Z.eq_dec a 0) as [->|Hna]; [rewrite Z.lor_0_l; lia|].
  destruct (Z.eq_dec b 0) as [->|Hnb]; [rewrite Z.lor_0_r; lia|].
  assert (0 < Z.lor a b).
  { assert (0 <= Z.lor a b) by (apply Z.lor_nonneg; lia).
    assert (Z.lor a b <> 0) by (rewrite Z.lor_eq_0_iff; lia). lia. }
  apply Z.log2_lt_pow2; [lia|].
  rewrite Z.log2_lor by lia.
  apply Z.max_lub_lt; apply Z.log2_lt_pow2; lia.
Qed.

Lemma lxor_bound a b n :
  0 <= a < 2 ^ n -> 0 <= b < 2 ^ n -> 0 <= Z.lxor a b < 2 ^ n.
Proof.
  intros Ha Hb.
  assert (H0 : 0 <= Z.lxor a b) by (apply Z.lxor_nonneg; lia).
  split; [exact H0|].
  destruct (Z.eq_dec a 0) as [->|Hna]; [rewrite Z.lxor_0_l; lia|].
  destruct (Z.eq_dec b 0) as [->|Hnb]; [rewrite Z.lxor_0_r; lia|].
  destruct (Z.eq_dec (Z.lxor a b) 0) as [->|Hnz]; [lia|].
  apply Z.log2_lt_pow2; [lia|].
  eapply Z.le_lt_trans; [apply Z.log2_lxor; lia|].
  apply Z.max_lub_lt; apply Z.log2_lt_pow2; lia.
Qed.

Lemma action_value_range a : 0 <= action_value a < 4.
Proof. destruct a; cbn; lia. Qed.

(** After [k] responses the series uses [6 k] bits. *)
Lemma gene_series_fold l : forall (k : nat) series,
  Forall valid_response l ->
  (k + length l <= 4)%nat ->
  0 <= series < 2 ^ (6 * Z.of_nat k) ->
  0 <= fold_left
         (fun series r =>
            Z.lor (to_uint32 (Z.shiftl series 6))
                  (to_uint32 (action_value (action r) * 16
                              + Z.rem (next_state r) 16)))
         l series
    < 2 ^ (6 * Z.of_nat (k + length l)).
Proof.
  induction l as [|r l IH]; intros k series Hv Hlen Hs.
  - cbn. rewrite Nat.add_0_r. exact Hs.
  - inversion Hv as [|? ? Hr Hl]; subst. cbn [fold_left length] in *.
    replace (k + S (length l))%nat with (S k + length l)%nat by lia.
    apply IH; [exact Hl | lia |].
    unfold valid_response, GENE_COUNT in Hr.
    pose proof (action_value_range (action r)) as Ha.
    rewrite Z.rem_small by lia.
    assert (Hpow : 2 ^ (6 * Z.of_nat (S k)) = 2 ^ (6 * Z.of_nat k) * 64).
    { replace (6 * Z.of_nat (S k)) with (6 * Z.of_nat k + 6) by lia.
      rewrite Z.pow_add_r by lia. reflexivity. }
    assert (Hle : 2 ^ (6 * Z.of_nat (S k)) <= 2 ^ 24)
      by (apply Z.pow_le_mono_r; lia).
    assert (H64 : 64 <= 2 ^ (6 * Z.of_nat (S k))).
    { change 64 with (2 ^ 6). apply Z.pow_le_mono_r; lia. }
    rewrite Z.shiftl_mul_pow2 by lia. change (2 ^ 6) with 64.
    unfold to_uint32. rewrite !Z.mod_small by (change (2 ^ 24) with 16777216 in Hle; lia).
    apply lor_bound; lia.
Qed.

Lemma gene_series_bound g :
  valid_gene g -> 0 <= gene_series g < 2 ^ 24.
Proof.
  intros [Hlen Hv]. unfold gene_series.
  pose proof (gene_series_fold (responses g) 0 0 Hv ltac:(lia) ltac:(cbn; lia))
    as H.
  rewrite Hlen in H. exact H.
Qed.

Lemma cell_get_color_fold gs : forall v,
  Forall valid_gene gs -> 0 <= v < 2 ^ 24 ->
  exists col,
    fold_left
      (fun value g =>
         match value with
         | Some v =>
             let series := gene_series g in
             if series <? Z.shiftl 1 24 then Some (Z.lxor v series) else None
         | None => None
         end)
      gs (Some v) = Some col /\ 0 <= col < 2 ^ 24.
Proof.
  induction gs as [|g gs IH]; intros v Hv Hr.
  - exists v. split; [reflexivity | exact Hr].
  - inversion Hv as [|? ? Hg Hgs]; subst. cbn [fold_left].
    pose proof (gene_series_bound g Hg) as Hs. cbv zeta.
    change (Z.shiftl 1 24) with (2 ^ 24).
    destruct (Z.ltb_spec (gene_series g) (2 ^ 24)); [|lia].
    apply IH; [exact Hgs|]. apply lxor_bound; lia.
Qed.

Lemma cell_get_color_run c :
  valid_chromosome (chromosome c) ->
  exists col, cell_get_color c = Some col /\ 0 <= col < 2 ^ 24.
Proof.
  intros [_ Hv]. unfold cell_get_color.
  apply cell_get_color_fold; [exact Hv | lia].
Qed.

(** X7.  On a cell with a valid chromosome the assertion of
    [cell_get_color] does not fail, and the colour it returns has 24
    bits. *)
Theorem cell_get_color_range c :
  valid_chromosome (chromosome c) ->
  exists col, cell_get_color c = Some col /\ 0 <= col < 2 ^ 24.
Proof. apply cell_get_color_run. Qed.

(** ** Mutation *)

Lemma rem_gene_count v : 0 <= v -> 0 <= Z.rem v GENE_COUNT < GENE_COUNT.
Proof. intros Hv. apply Z.rem_bound_pos; unfold GENE_COUNT; lia. Qed.

Lemma response_mutate_run r s :
  valid_response r ->
  exists r' n,
    response_mutate r s = Ok r' (set_drawn n s) /\
    valid_response r' /\
    (drawn s + 2 <= n <= drawn s + 4)%nat.
Proof.
  intros Hr. unfold response_mutate.
  destruct (drand48_lt_run MUTATION_RATE s) as (b1 & Hb1).
  rewrite (bind_run _ _ _ _ _ Hb1). cbv beta.
  set (s1 := set_drawn (S (drawn s)) s).
  assert (Ha : exists a n1,
             (if b1 then v ← lrand48; mret (action_of_value (Z.rem v ACTION_MAX))
              else mret (action r)) s1 = Ok a (set_drawn n1 s) /\
             (drawn s + 1 <= n1 <= drawn s + 2)%nat).
  { destruct b1.
    - destruct (lrand48_run s1) as (v & Hv & _).
      rewrite (bind_run _ _ _ _ _ Hv). eexists _, _.
      split; [reflexivity | cbn; lia].
    - eexists _, _. split; [reflexivity | cbn; lia]. }
  destruct Ha as (a & n1 & Ha & Hn1).
  rewrite (bind_run _ _ _ _ _ Ha). cbv beta.
  destruct (drand48_lt_run MUTATION_RATE (set_drawn n1 s)) as (b2 & Hb2).
  rewrite (bind_run _ _ _ _ _ Hb2). cbv beta.
  set (s2 := set_drawn (S (drawn (set_drawn n1 s))) (set_drawn n1 s)).
  assert (Hn : exists ns n2,
             (if b2 then v ← lrand48; mret (Z.rem v GENE_COUNT)
              else mret (next_state r)) s2 = Ok ns (set_drawn n2 s) /\
             0 <= ns < GENE_COUNT /\
             (n1 + 1 <= n2 <= n1 + 2)%nat).
  { destruct b2.
    - destruct (lrand48_run s2) as (v & Hv & Hrange).
      rewrite (bind_run _ _ _ _ _ Hv). eexists _, _.
      split; [reflexivity|]. split; [apply rem_gene_count; lia | cbn; lia].
    - eexists _, _. split; [reflexivity|]. split; [exact Hr | cbn; lia]. }
  destruct Hn as (ns & n2 & Hns & Hrange & Hn2).
  rewrite (bind_run _ _ _ _ _ Hns). cbv beta.
  eexists _, n2. split; [reflexivity|]. split; [exact Hrange | lia].
Qed.

Lemma responses_mutate_run l : forall s,
  Forall valid_response l ->
  exists l' n,
    responses_mutate l s = Ok l' (set_drawn n s) /\
    Forall valid_response l' /\ length l' = length l /\
    (drawn s + 2 * length l <= n <= drawn s + 4 * length l)%nat.
Proof.
  induction l as [|r l IH]; intros s Hv.
  - exists [], (drawn s). split; [destruct s; reflexivity|].
    split; [constructor|]. split; [reflexivity | cbn; lia].
  - inversion Hv as [|? ? Hr Hl]; subst. cbn [responses_mutate].
    destruct (response_mutate_run r s Hr) as (r' & n1 & Hrun & Hr' & Hn1).
    rewrite (bind_run _ _ _ _ _ Hrun). cbv beta.
    destruct (IH (set_drawn n1 s) Hl) as (l' & n & Hrun' & Hl' & Hlen & Hn).
    rewrite (bind_run _ _ _ _ _ Hrun'). cbv beta.
    exists (r' :: l'), n. split; [reflexivity|].
    split; [constructor; assumption|]. split; [cbn; lia | cbn in *; lia].
Qed.

Lemma genes_mutate_run l : forall s,
  Forall valid_gene l ->
  exists l' n,
    genes_mutate l s = Ok l' (set_drawn n s) /\
    Forall valid_gene l' /\ length l' = length l /\
    (drawn s + 8 * length l <= n <= drawn s + 16 * length l)%nat.
Proof.
  induction l as [|g l IH]; intros s Hv.
  - exists [], (drawn s). split; [destruct s; reflexivity|].
    split; [constructor|]. split; [reflexivity | cbn; lia].
  - inversion Hv as [|? ? [Hg4 Hg] Hl]; subst. cbn [genes_mutate].
    destruct (responses_mutate_run (responses g) s Hg)
      as (rs & n1 & Hrun & Hrs & Hlen1 & Hn1).
    rewrite (bind_run _ _ _ _ _ Hrun). cbv beta.
    destruct (IH (set_drawn n1 s) Hl) as (l' & n & Hrun' & Hl' & Hlen & Hn).
    rewrite (bind_run _ _ _ _ _ Hrun'). cbv beta.
    exists ({| responses := rs |} :: l'), n. split; [reflexivity|].
    split; [|split].
    + constructor; [|assumption]. split; [cbn; lia | exact Hrs].
    + cbn; lia.
    + cbn in *; lia.
Qed.

Lemma chromosome_mutate_run c s :
  valid_chromosome c ->
  exists c' n,
    chromosome_mutate c s = Ok c' (set_drawn n s) /\
    valid_chromosome c' /\
    (drawn s + 128 <= n <= drawn s + 256)%nat.
Proof.
  intros [Hlen Hv]. unfold chromosome_mutate.
  destruct (genes_mutate_run (genes c) s Hv) as (gs & n & Hrun & Hgs & Hl & Hn).
  rewrite (bind_run _ _ _ _ _ Hrun). cbv beta.
  exists {| genes := gs |}, n. split; [reflexivity|].
  change (Z.to_nat GENE_COUNT) with 16%nat in Hlen.
  split; [split; [cbn; change (Z.to_nat GENE_COUNT) with 16%nat; lia | exact Hgs] | lia].
Qed.

(** X8.  [chromosome_mutate] keeps a chromosome valid: the result has
    again 16 genes of 4 responses, and every [next_state], mutated or not,
    is the index of a gene.  It makes two draws for each response and one
    more for each field it rewrites: between 128 and 256 in all, and
    nothing else of the state changes. *)
Theorem chromosome_mutate_valid c s :
  valid_chromosome c ->
  exists c' n,
    chromosome_mutate c s = Ok c' (set_drawn n s) /\
    valid_chromosome c' /\
    (drawn s + 128 <= n <= drawn s + 256)%nat.
Proof. apply chromosome_mutate_run. Qed.

Lemma fill_array_run {A} (P : A -> Prop) (k : nat) (m : M A) :
  (forall s, exists a, m s = Ok a (set_drawn (drawn s + k) s) /\ P a) ->
  forall n s,
    exists l, fill_array n m s = Ok l (set_drawn (drawn s + n * k) s) /\
              length l = n /\ Forall P l.
Proof.
  intros Hm n. induction n as [|n IH]; intros s.
  - exists []. split; [|split; [reflexivity | constructor]].
    cbn. rewrite Nat.add_0_r. destruct s; reflexivity.
  - cbn [fill_array]. destruct (Hm s) as (a & Ha & HP).
    rewrite (bind_run _ _ _ _ _ Ha). cbv beta.
    destruct (IH (set_drawn (drawn s + k) s)) as (l & Hl & Hlen & HF).
    rewrite (bind_run _ _ _ _ _ Hl). cbv beta.
    exists (a :: l). split; [|split; [cbn; lia | constructor; assumption]].
    cbn. unfold mret, M_ret. f_equal. unfold set_drawn. cbn. f_equal. lia.
Qed.

Lemma response_random_run s :
  exists r, response_random s = Ok r (set_drawn (drawn s + 2) s) /\
            valid_response r.
Proof.
  unfold response_random.
  destruct (lrand48_run s) as (a & Ha & _).
  rewrite (bind_run _ _ _ _ _ Ha). cbv beta.
  destruct (lrand48_run (set_drawn (S (drawn s)) s)) as (n & Hn & Hrange).
  rewrite (bind_run _ _ _ _ _ Hn). cbv beta.
  eexists. split.
  - unfold mret, M_ret. f_equal. unfold set_drawn. cbn. f_equal. lia.
  - apply rem_gene_count. lia.
Qed.

(** X9.  [chromosome_random] returns a valid chromosome after exactly 128
    draws, two for each response, and changes nothing else of the
    state. *)
Theorem chromosome_random_valid s :
  exists c, chromosome_random s = Ok c (set_drawn (drawn s + 128) s) /\
            valid_chromosome c.
Proof.
  unfold chromosome_random.
  assert (Hgene : forall s, exists g,
            (rs ← fill_array 4%nat response_random;
             mret {| responses := rs |}) s
              = Ok g (set_drawn (drawn s + 8) s) /\ valid_gene g).
  { intros s1.
    destruct (fill_array_run valid_response 2 response_random
                response_random_run 4 s1) as (rs & Hrs & Hlen & Hv).
    rewrite (bind_run _ _ _ _ _ Hrs). cbv beta.
    exists {| responses := rs |}. split; [reflexivity|]. split; assumption. }
  destruct (fill_array_run valid_gene 8 _ Hgene (Z.to_nat GENE_COUNT) s)
    as (gs & Hgs & Hlen & Hv).
  rewrite (bind_run _ _ _ _ _ Hgs). cbv beta.
  exists {| genes := gs |}. split; [reflexivity|]. split; assumption.
Qed.

(** * Well-formed worlds stay well-formed *)

(** ** Outcomes *)

Lemma fine_bind {A B} (m : M A) (k : A -> M B) s Q1 Q :
  fine (m s) Q1 ->
  (forall a s1, Q1 a s1 -> fine (k a s1) Q) ->
  fine ((m ≫= k) s) Q.
Proof.
  unfold mbind, M_bind. destruct (m s) as [a s1|f]; cbn; auto.
Qed.

Lemma fine_run {A B} (m : M A) (k : A -> M B) s a s1 Q :
  m s = Ok a s1 -> fine (k a s1) Q -> fine ((m ≫= k) s) Q.
Proof. intros H. rewrite (bind_run _ _ _ _ _ H). auto. Qed.

Lemma fine_mono {A} (r : Result A) (Q Q' : A -> State -> Prop) :
  fine r Q -> (forall a s, Q a s -> Q' a s) -> fine r Q'.
Proof. destruct r; cbn; auto. Qed.

Lemma fine_Ok {A} (r : Result A) Q a s : fine r Q -> r = Ok a s -> Q a s.
Proof. intros H ->. exact H. Qed.

Lemma fine_Err {A} (r : Result A) Q f : fine r Q -> r = Err f -> f = OutOfFuel.
Proof. intros H ->. exact H. Qed.

(** ** The parts of a well-formed world *)

Lemma slot_diff (ents : list (option addr)) j1 j2 a b :
  ents !! j1 = Some a -> ents !! j2 = Some b -> a <> b -> j1 <> j2.
Proof. intros H1 H2 Hab ->. rewrite H1 in H2. injection H2. done. Qed.

Lemma wf_parts_mono (P P' : addr -> Object -> Prop) W H cl ents hp :
  (forall p o, hp !! p = Some (Some o) -> P p o -> P' p o) ->
  wf_parts P W H cl ents hp -> wf_parts P' W H cl ents hp.
Proof. intros HP []. constructor; eauto. Qed.

Lemma wf_parts_store (P P' : addr -> Object -> Prop) W H cl ents hp p o o' :
  hp !! p = Some (Some o) ->
  P' p o' ->
  (forall q oq, q <> p -> hp !! q = Some (Some oq) -> P q oq -> P' q oq) ->
  wf_parts P W H cl ents hp ->
  wf_parts P' W H cl ents (<[p := Some o']> hp).
Proof.
  intros Hp Ho HP []. pose proof (lookup_lt_Some _ _ _ Hp) as Hlt.
  constructor; auto.
  - intros j q Hj. destruct (decide (q = p)) as [->|Hne].
    + rewrite list_lookup_insert_eq by done. eauto.
    + rewrite list_lookup_insert_ne by done. eauto.
  - intros q oq. destruct (decide (q = p)) as [->|Hne].
    + rewrite list_lookup_insert_eq by done. intros _. eauto.
    + rewrite list_lookup_insert_ne by done. eauto.
  - intros q oq. destruct (decide (q = p)) as [->|Hne].
    + rewrite list_lookup_insert_eq by done. intros [= <-]. exact Ho.
    + rewrite list_lookup_insert_ne by done. eauto.
Qed.

(** An entity changes slot. *)
Lemma wf_parts_move P W H cl ents hp src dst q :
  ents !! src = Some (Some q) ->
  ents !! dst = Some None ->
  wf_parts P W H cl ents hp ->
  wf_parts P W H cl (<[src := None]> (<[dst := Some q]> ents)) hp.
Proof.
  intros Hsrc Hdst [].
  pose proof (lookup_lt_Some _ _ _ Hsrc) as Hls.
  pose proof (lookup_lt_Some _ _ _ Hdst) as Hld.
  assert (Hne : src <> dst) by congruence.
  assert (Hlook : forall j r,
            <[src := None]> (<[dst := Some q]> ents) !! j = Some (Some r) ->
            (j = dst /\ r = q) \/ (j <> src /\ j <> dst /\ ents !! j = Some (Some r))).
  { intros j r. destruct (decide (j = src)) as [->|Hjs].
    - rewrite list_lookup_insert_eq by (rewrite length_insert; done).
      discriminate.
    - rewrite list_lookup_insert_ne by done.
      destruct (decide (j = dst)) as [->|Hjd].
      + rewrite list_lookup_insert_eq by done. intros [= <-]. auto.
      + rewrite list_lookup_insert_ne by done. auto. }
  constructor; auto.
  - rewrite !length_insert. done.
  - intros j r Hj. destruct (Hlook j r Hj) as [[-> ->]|(_ & _ & Hj')]; eauto.
  - intros j1 j2 r H1 H2.
    destruct (Hlook j1 r H1) as [[E1 E1']|(Hs1 & Hd1 & H1')];
      destruct (Hlook j2 r H2) as [[E2 E2']|(Hs2 & Hd2 & H2')].
    + congruence.
    + exfalso. subst. apply Hs2. eauto.
    + exfalso. subst. apply Hs1. eauto.
    + eauto.
  - intros r o Hr. destruct (wf_owned0 r o Hr) as [j Hj].
    destruct (decide (r = q)) as [->|Hrq].
    + exists dst. rewrite list_lookup_insert_ne by done.
      apply list_lookup_insert_eq. done.
    + exists j.
      assert (j <> src)
        by (apply (slot_diff ents _ _ _ _ Hj Hsrc); intros [= ->]; done).
      assert (j <> dst) by (apply (slot_diff ents _ _ _ _ Hj Hdst); done).
      rewrite !list_lookup_insert_ne by done. done.
Qed.

(** A new object is put into an empty slot. *)
Lemma wf_parts_birth (P : addr -> Object -> Prop) W H cl ents hp e o :
  ents !! e = Some None ->
  P (length hp) o ->
  wf_parts P W H cl ents hp ->
  wf_parts P W H cl (<[e := Some (length hp)]> ents) (hp ++ [Some o]).
Proof.
  intros He Ho []. pose proof (lookup_lt_Some _ _ _ He) as Hle.
  assert (Hold : forall j r, ents !! j = Some (Some r) -> (r < length hp)%nat).
  { intros j r Hj. destruct (wf_live0 j r Hj) as [o' Ho'].
    eapply lookup_lt_Some; eauto. }
  constructor; auto.
  - rewrite length_insert. done.
  - intros j r. destruct (decide (j = e)) as [->|Hje].
    + rewrite list_lookup_insert_eq by done. intros [= <-].
      exists o. apply lookup_heap_new.
    + rewrite list_lookup_insert_ne by done. intros Hj.
      destruct (wf_live0 j r Hj) as [o' Ho']. exists o'.
      apply lookup_app_l_Some. done.
  - intros j1 j2 r.
    destruct (decide (j1 = e)) as [->|H1]; destruct (decide (j2 = e)) as [->|H2];
      rewrite ?list_lookup_insert_eq, ?list_lookup_insert_ne by done;
      eauto.
    + intros [= <-] Hj. apply Hold in Hj. lia.
    + intros Hj [= <-]. apply Hold in Hj. lia.
  - intros r o'. destruct (decide (r = length hp)) as [->|Hr].
    + intros _. exists e. apply list_lookup_insert_eq. done.
    + intros Hl.
      assert (Hl' : hp !! r = Some (Some o')).
      { destruct (decide (r < length hp)%nat).
        - rewrite lookup_app_l in Hl by done. done.
        - apply lookup_lt_Some in Hl. rewrite length_app in Hl. cbn in Hl. lia. }
      destruct (wf_owned0 r o' Hl') as [j Hj]. exists j.
      assert (j <> e) by (apply (slot_diff ents _ _ _ _ Hj He); done).
      rewrite list_lookup_insert_ne by done. done.
  - intros r o'. destruct (decide (r = length hp)) as [->|Hr].
    + rewrite lookup_heap_new. intros [= <-]. exact Ho.
    + intros Hl. apply wf_valid0.
      destruct (decide (r < length hp)%nat).
      * rewrite lookup_app_l in Hl by done. done.
      * apply lookup_lt_Some in Hl. rewrite length_app in Hl. cbn in Hl. lia.
Qed.

(** An entity is destroyed and its slot cleared. *)
Lemma wf_parts_death (P P' : addr -> Object -> Prop) W H cl ents hp e p :
  ents !! e = Some (Some p) ->
  (forall q oq, q <> p -> hp !! q = Some (Some oq) -> P q oq -> P' q oq) ->
  wf_parts P W H cl ents hp ->
  wf_parts P' W H cl (<[e := None]> ents) (<[p := None]> hp).
Proof.
  intros He HP []. pose proof (lookup_lt_Some _ _ _ He) as Hle.
  destruct (wf_live0 e p He) as [op Hp].
  pose proof (lookup_lt_Some _ _ _ Hp) as Hlp.
  constructor; auto.
  - rewrite length_insert. done.
  - intros j r. destruct (decide (j = e)) as [->|Hje].
    + rewrite list_lookup_insert_eq by done. discriminate.
    + rewrite list_lookup_insert_ne by done. intros Hj.
      assert (r <> p) by (intros ->; apply Hje; eauto).
      rewrite list_lookup_insert_ne by done. eauto.
  - intros j1 j2 r.
    destruct (decide (j1 = e)) as [->|H1];
      [rewrite list_lookup_insert_eq by done; discriminate|].
    destruct (decide (j2 = e)) as [->|H2];
      [rewrite list_lookup_insert_eq by done; discriminate|].
    rewrite !list_lookup_insert_ne by done. eauto.
  - intros r o. destruct (decide (r = p)) as [->|Hr].
    + rewrite list_lookup_insert_eq by done. discriminate.
    + rewrite list_lookup_insert_ne by done. intros Hl.
      destruct (wf_owned0 r o Hl) as [j Hj]. exists j.
      assert (j <> e)
        by (apply (slot_diff ents _ _ _ _ Hj He); intros [= ->]; done).
      rewrite list_lookup_insert_ne by done. done.
  - intros r o. destruct (decide (r = p)) as [->|Hr].
    + rewrite list_lookup_insert_eq by done. discriminate.
    + rewrite list_lookup_insert_ne by done. eauto.
Qed.

Lemma wf_state_drift P s s' :
  drift s s' -> wf_state P s -> wf_state P s'.
Proof.
  intros [] []. unfold wf_state.
  rewrite dr_heap0, dr_entities0, dr_width0, dr_height0.
  constructor; auto. congruence.
Qed.

Lemma drift_refl s : drift s s.
Proof. constructor; auto. Qed.

Lemma drift_trans s1 s2 s3 : drift s1 s2 -> drift s2 s3 -> drift s1 s3.
Proof.
  intros [] []. constructor; try congruence; [lia|].
  intros Hin c Hc. rewrite <- dr_width0, <- dr_height0.
  apply dr_anchors1; [|exact Hc].
  rewrite dr_width0, dr_height0. auto.
Qed.

Lemma drift_set_drawn n s : (drawn s <= n)%nat -> drift s (set_drawn n s).
Proof. intros Hn. constructor; auto. Qed.

Lemma drift_clump_set i c s :
  0 <= x c < width (world s) -> 0 <= y c < height (world s) ->
  drift s (clump_set i c s).
Proof.
  intros Hx Hy. constructor; auto.
  - cbn. apply length_insert.
  - intros Hin cl Hcl. cbn in Hcl.
    apply list_elem_of_lookup in Hcl as [j Hj].
    apply list_lookup_insert_Some in Hj as [(_ & <- & _)|(_ & Hj)].
    + cbn. auto.
    + apply Hin. eapply list_elem_of_lookup_2; eauto.
Qed.

(** ** Slots of the board *)

Lemma slot_index_range W H cx cy :
  0 <= cx < W -> 0 <= cy < H -> 0 <= cy * W + cx < W * H.
Proof. intros Hx Hy. nia. Qed.

Lemma slot_index_inj W cx1 cy1 cx2 cy2 :
  0 <= cx1 < W -> 0 <= cx2 < W -> 0 <= cy1 -> 0 <= cy2 ->
  Z.to_nat (cy1 * W + cx1) = Z.to_nat (cy2 * W + cx2) ->
  cx1 = cx2 /\ cy1 = cy2.
Proof.
  intros H1 H2 H3 H4 Heq.
  assert (cy1 * W + cx1 = cy2 * W + cx2) by nia.
  assert (cy1 = cy2) by nia. subst. lia.
Qed.

Lemma slot_lookup c s :
  length (entities (world s))
    = Z.to_nat (width (world s) * height (world s)) ->
  coord_in_bounds c (world s) = true ->
  0 <= y c * width (world s) + x c /\
  exists v, entities (world s) !! Z.to_nat (y c * width (world s) + x c)
            = Some v.
Proof.
  intros Hlen [Hx Hy]%coord_in_bounds_spec.
  pose proof (slot_index_range _ _ _ _ Hx Hy) as Hr.
  split; [lia|]. apply lookup_lt_is_Some_2. lia.
Qed.

Lemma world_get_entity_ref_run w c :
  coord_in_bounds c w = true ->
  world_get_entity_ref w c = Some (y c * width w + x c).
Proof. unfold coord_in_bounds, world_get_entity_ref. intros ->. reflexivity. Qed.

Lemma world_get_entity_ref_None w c :
  world_get_entity_ref w c = None -> coord_in_bounds c w = false.
Proof.
  unfold coord_in_bounds, world_get_entity_ref.
  destruct (_ && _); [discriminate | reflexivity].
Qed.

(** ** The search for an empty slot, from a well-formed world *)

Lemma find_nearby_empty_loop_fine fuel : forall c s,
  length (entities (world s))
    = Z.to_nat (width (world s) * height (world s)) ->
  fine (find_nearby_empty_loop fuel c s) (fun v s' =>
    (exists n, (drawn s <= n)%nat /\ s' = set_drawn n s) /\
    coord_in_bounds v (world s) = true /\
    entities (world s) !! Z.to_nat (y v * width (world s) + x v)
      = Some None).
Proof.
  induction fuel as [|fuel IH]; intros c s Hlen; [reflexivity|].
  cbn [find_nearby_empty_loop].
  destruct (perturb_coord_near c s) as (dx & dy & Hrun & _ & _).
  rewrite (bind_run _ _ _ _ _ Hrun). cbv beta.
  set (c' := {| x := x c + dx; y := y c + dy |}).
  set (s1 := set_drawn (S (S (drawn s))) s).
  rewrite (bind_run get_world _ s1 _ _ eq_refl). cbv beta.
  assert (Hnext : forall c0,
            fine (find_nearby_empty_loop fuel c0 s1) (fun v s' =>
              (exists n, (drawn s <= n)%nat /\ s' = set_drawn n s) /\
              coord_in_bounds v (world s) = true /\
              entities (world s) !! Z.to_nat (y v * width (world s) + x v)
                = Some None)).
  { intros c0. eapply fine_mono; [apply (IH c0 s1 Hlen)|].
    intros v s' ((n & Hn & ->) & Hv & Hslot).
    split; [|split; assumption].
    exists n. split; [cbn in Hn; lia | reflexivity]. }
  destruct (world_get_entity_ref (world s1) c') as [r|] eqn:Href;
    [|apply Hnext].
  apply world_get_entity_ref_Some in Href as [Hin ->].
  destruct (slot_lookup c' s1 Hlen Hin) as (H0 & v & Hv).
  rewrite (bind_run _ _ _ _ _ (read_slot_run _ _ _ H0 Hv)). cbv beta.
  destruct v as [q|]; [apply Hnext|].
  cbn. split; [|split; assumption].
  exists (S (S (drawn s))). split; [lia | reflexivity].
Qed.

Lemma find_nearby_empty_fine fuel c s :
  length (entities (world s))
    = Z.to_nat (width (world s) * height (world s)) ->
  coord_in_bounds c (world s) = true ->
  fine (find_nearby_empty fuel c s) (fun v s' =>
    (exists n, (drawn s <= n)%nat /\ s' = set_drawn n s) /\
    coord_in_bounds v (world s) = true /\
    entities (world s) !! Z.to_nat (y v * width (world s) + x v)
      = Some None).
Proof.
  intros Hlen Hin. unfold find_nearby_empty.
  rewrite (bind_run get_world _ s _ _ eq_refl). cbv beta.
  rewrite Hin. unfold assert.
  rewrite (bind_run (mret tt) _ s tt s eq_refl).
  apply find_nearby_empty_loop_fine, Hlen.
Qed.

Lemma fine_of_run {A} (m : M A) s a s1 (Q : A -> State -> Prop) :
  m s = Ok a s1 -> Q a s1 -> fine (m s) Q.
Proof. intros ->. auto. Qed.

Ltac fstep H := eapply (fine_run _ _ _ _ _ _ H); cbv beta.
Ltac fbind L := eapply fine_bind; [eapply L | cbv beta].
Ltac fworld := eapply (fine_run get_world _ _ _ _ _ eq_refl); cbv beta.

Lemma assert_run line b s : b = true -> assert line b s = Ok tt s.
Proof. intros ->. reflexivity. Qed.

Lemma load_food_run p f s :
  heap s !! p = Some (Some (ObjFood f)) -> load_food p s = Ok f s.
Proof.
  intros H. unfold load_food. rewrite (bind_run _ _ _ _ _ (load_run _ _ _ H)).
  reflexivity.
Qed.

Lemma wf_state_dims P s :
  wf_state P s ->
  0 < width (world s) <= INT_MAX /\ 0 < height (world s) <= INT_MAX.
Proof. intros []. nia. Qed.

Lemma random_int_fine lo hi s :
  in_int lo -> in_int hi -> lo < hi -> hi - lo <= INT_MAX ->
  fine (random_int lo hi s) (fun v s' =>
    s' = set_drawn (S (drawn s)) s /\ lo <= v < hi).
Proof.
  intros H1 H2 H3 H4.
  destruct (random_int_run lo hi s H1 H2 H3 H4) as (v & Hrun & Hv).
  rewrite Hrun. cbn. auto.
Qed.

Lemma random_int_board P s1 s n :
  wf_state P s -> 0 < n <= INT_MAX ->
  fine (random_int 0 n s1) (fun v s' =>
    s' = set_drawn (S (drawn s1)) s1 /\ 0 <= v < n).
Proof.
  intros _ Hn. apply random_int_fine; unfold in_int, INT_MIN, INT_MAX in *; lia.
Qed.

Lemma read_clump_run P i s :
  wf_state P s -> 0 <= i < CLUMP_COUNT ->
  exists a, read_clump i s = Ok a s /\
            0 <= x a < width (world s) /\ 0 <= y a < height (world s).
Proof.
  intros Hwf Hi. unfold read_clump.
  destruct (Z.ltb_spec i 0); [lia|].
  destruct (lookup_lt_is_Some_2 (clumps (world s)) (Z.to_nat i)) as [cl Hcl].
  { rewrite (wf_clumps _ _ _ _ _ _ Hwf). lia. }
  rewrite Hcl. exists (coord cl). split; [reflexivity|].
  apply (wf_anchors _ _ _ _ _ _ Hwf). eapply list_elem_of_lookup_2; eauto.
Qed.

Lemma write_clump_run P i c s :
  wf_state P s -> 0 <= i < CLUMP_COUNT ->
  write_clump i c s = Ok tt (clump_set (Z.to_nat i) c s).
Proof.
  intros Hwf Hi. unfold write_clump.
  destruct (Z.ltb_spec i 0); [lia|].
  destruct (lookup_lt_is_Some_2 (clumps (world s)) (Z.to_nat i)) as [cl Hcl].
  { rewrite (wf_clumps _ _ _ _ _ _ Hwf). lia. }
  rewrite Hcl. reflexivity.
Qed.

(** One coordinate of an anchor is drawn afresh. *)
Lemma anchor_axis_fine P s i W H (upd : Z -> Coord -> Coord) n :
  wf_state P s -> 0 <= i < CLUMP_COUNT ->
  W = width (world s) -> H = height (world s) ->
  0 < n <= INT_MAX ->
  (forall v a, 0 <= v < n ->
     0 <= x a < W -> 0 <= y a < H ->
     0 <= x (upd v a) < W /\ 0 <= y (upd v a) < H) ->
  fine ((v ← random_int 0 n;
         old ← read_clump i;
         write_clump i (upd v old)) s)
       (fun _ s' => drift s s').
Proof.
  intros Hwf Hi -> -> Hn Hupd.
  fbind (random_int_board P s s n Hwf Hn). intros v s1 [-> Hv].
  assert (Hd1 : drift s (set_drawn (S (drawn s)) s))
    by (apply drift_set_drawn; lia).
  pose proof (wf_state_drift _ _ _ Hd1 Hwf) as Hwf1.
  destruct (read_clump_run P i _ Hwf1 Hi) as (old & Hold & Hox & Hoy).
  fstep Hold.
  rewrite (write_clump_run P i _ _ Hwf1 Hi). cbn.
  eapply drift_trans; [exact Hd1|].
  destruct (Hupd v old Hv Hox Hoy). apply drift_clump_set; assumption.
Qed.

Lemma anchor_axis_bind {B} P s i W H (upd : Z -> Coord -> Coord) n
    (k : M B) Q :
  wf_state P s -> 0 <= i < CLUMP_COUNT ->
  W = width (world s) -> H = height (world s) ->
  0 < n <= INT_MAX ->
  (forall v a, 0 <= v < n ->
     0 <= x a < W -> 0 <= y a < H ->
     0 <= x (upd v a) < W /\ 0 <= y (upd v a) < H) ->
  (forall s', drift s s' -> fine (k s') Q) ->
  fine ((v ← random_int 0 n;
         old ← read_clump i;
         write_clump i (upd v old);; k) s) Q.
Proof.
  intros Hwf Hi -> -> Hn Hupd Hk.
  fbind (random_int_board P s s n Hwf Hn). intros v s1 [-> Hv].
  assert (Hd1 : drift s (set_drawn (S (drawn s)) s))
    by (apply drift_set_drawn; lia).
  pose proof (wf_state_drift _ _ _ Hd1 Hwf) as Hwf1.
  destruct (read_clump_run P i _ Hwf1 Hi) as (old & Hold & Hox & Hoy).
  fstep Hold.
  fstep (write_clump_run P i (upd v old) _ Hwf1 Hi).
  apply Hk.
  eapply drift_trans; [exact Hd1|].
  destruct (Hupd v old Hv Hox Hoy). apply drift_clump_set; assumption.
Qed.

Lemma relocate_anchor_fine P food c s f :
  wf_state P s ->
  coord_in_bounds c (world s) = true ->
  heap s !! food = Some (Some (ObjFood f)) ->
  0 <= clump f < CLUMP_COUNT ->
  fine (relocate_anchor food c s) (fun a s' =>
    drift s s' /\ coord_in_bounds a (world s) = true).
Proof.
  intros Hwf Hin Hfood Hclump. unfold relocate_anchor.
  destruct (wf_state_dims P s Hwf) as [HW HH].
  fworld. eapply (fine_run get_food_spawn _ _ _ _ _ eq_refl). cbv beta.
  eapply (fine_run get_food_rebirth _ _ _ _ _ eq_refl). cbv beta.
  destruct (food_spawn s).
  - (* around a clump *)
    fstep (load_food_run _ _ _ Hfood).
    destruct (drand48_lt_run CLUMP_DRIFT_RATE s) as (b & Hb). fstep Hb.
    set (s1 := set_drawn (S (drawn s)) s).
    assert (Hd1 : drift s s1) by (apply drift_set_drawn; cbn; lia).
    pose proof (wf_state_drift _ _ _ Hd1 Hwf) as Hwf1.
    eapply fine_bind with (Q1 := fun _ s2 => drift s s2).
    { destruct b; [|cbn; exact Hd1].
      apply (anchor_axis_bind P s1 (clump f) (width (world s))
               (height (world s))
               (fun v a => {| x := v; y := y a |}) (width (world s)));
        [exact Hwf1 | exact Hclump | reflexivity | reflexivity | exact HW
        | cbn; auto |].
      intros s2 Hd2.
      pose proof (wf_state_drift _ _ _ Hd2 Hwf1) as Hwf2.
      eapply fine_mono.
      { apply (anchor_axis_fine P s2 (clump f) (width (world s))
                 (height (world s))
                 (fun v a => {| x := x a; y := v |}) (height (world s)));
          [exact Hwf2 | exact Hclump | symmetry; apply (dr_width _ _ Hd2)
          | symmetry; apply (dr_height _ _ Hd2) | exact HH | cbn; auto]. }
      cbv beta. intros _ s3 Hd3.
      eapply drift_trans; [exact Hd1|]. eapply drift_trans; eassumption. }
    cbv beta. intros _ s2 Hd2.
    pose proof (wf_state_drift _ _ _ Hd2 Hwf) as Hwf2.
    destruct (food_rebirth s).
    + fbind (random_int_board P s2 s2 CLUMP_COUNT Hwf2).
      { unfold CLUMP_COUNT, INT_MAX. lia. }
      intros i s3 [-> Hi].
      assert (Hd3 : drift s2 (set_drawn (S (drawn s2)) s2))
        by (apply drift_set_drawn; lia).
      pose proof (wf_state_drift _ _ _ Hd3 Hwf2) as Hwf3.
      destruct (read_clump_run P i _ Hwf3 Hi) as (a & Ha & Hx & Hy).
      rewrite Ha. cbn. split; [eapply drift_trans; eassumption|].
      apply coord_in_bounds_spec.
      rewrite <- (dr_width _ _ Hd2), <- (dr_height _ _ Hd2). auto.
    + destruct (read_clump_run P (clump f) _ Hwf2 Hclump) as (a & Ha & Hx & Hy).
      rewrite Ha. cbn. split; [exact Hd2|].
      apply coord_in_bounds_spec.
      rewrite <- (dr_width _ _ Hd2), <- (dr_height _ _ Hd2). auto.
  - (* anywhere *)
    destruct (food_rebirth s).
    + fbind (random_int_board P s s (width (world s)) Hwf HW).
      intros cx s1 [-> Hcx].
      fbind (random_int_board P (set_drawn (S (drawn s)) s) s
               (height (world s)) Hwf HH).
      intros cy s2 [-> Hcy]. cbn.
      split; [eapply drift_trans; apply drift_set_drawn; cbn; lia|].
      apply coord_in_bounds_spec. cbn. auto.
    + cbn. split; [apply drift_refl | exact Hin].
Qed.

Lemma coord_in_bounds_dims c w w' :
  width w' = width w -> height w' = height w ->
  coord_in_bounds c w' = coord_in_bounds c w.
Proof. unfold coord_in_bounds. intros -> ->. reflexivity. Qed.

(** A Food is relocated: from a well-formed world the call returns with
    the Food in a slot that was empty, or the search runs out of fuel. *)
Lemma relocate_food_fine P fuel c s q f :
  wf_state P s ->
  coord_in_bounds c (world s) = true ->
  entities (world s) !! Z.to_nat (y c * width (world s) + x c)
    = Some (Some q) ->
  heap s !! q = Some (Some (ObjFood f)) ->
  valid_food f ->
  fine (relocate_food fuel c s) (fun _ s' =>
    exists sa dst,
      drift s sa /\
      coord_in_bounds dst (world s) = true /\
      entities (world s) !! Z.to_nat (y dst * width (world s) + x dst)
        = Some None /\
      s' = event_push (EvRelocate q c dst)
             (slot_set (Z.to_nat (y c * width (world s) + x c)) None
                (slot_set (Z.to_nat (y dst * width (world s) + x dst))
                   (Some q) sa))).
Proof.
  intros Hwf Hin Hslot Hq [Hty Hclump]. unfold relocate_food.
  pose proof (wf_slots _ _ _ _ _ _ Hwf) as Hlen.
  destruct (slot_lookup c s Hlen Hin) as (H0 & _).
  fworld. rewrite (world_get_entity_ref_run _ _ Hin).
  fstep (read_slot_run _ _ _ H0 Hslot).
  fstep (load_run _ _ _ Hq).
  cbn [entity_of]. rewrite Hty. fstep (assert_run 368 _ s eq_refl).
  fbind (relocate_anchor_fine P q c s f Hwf Hin Hq Hclump).
  intros a s1 [Hd Ha].
  pose proof (wf_state_drift _ _ _ Hd Hwf) as Hwf1.
  pose proof (wf_slots _ _ _ _ _ _ Hwf1) as Hlen1.
  assert (Hdims : forall d, coord_in_bounds d (world s1)
                            = coord_in_bounds d (world s))
    by (intros d; apply coord_in_bounds_dims;
        [apply (dr_width _ _ Hd) | apply (dr_height _ _ Hd)]).
  eapply fine_bind.
  { apply (find_nearby_empty_fine fuel a s1 Hlen1). rewrite Hdims. exact Ha. }
  cbv beta. intros dst s2 ((n & Hn & ->) & Hdst & Hnone).
  rewrite Hdims in Hdst.
  rewrite (dr_width _ _ Hd), (dr_entities _ _ Hd) in Hnone.
  rewrite (world_get_entity_ref_run _ _ Hdst).
  destruct (slot_lookup dst s Hlen Hdst) as (H0d & _).
  set (sa := set_drawn n s1).
  assert (Hda : drift s sa).
  { eapply drift_trans; [exact Hd|]. apply drift_set_drawn. exact Hn. }
  assert (Hents : entities (world sa) = entities (world s))
    by apply (dr_entities _ _ Hda).
  pose proof (lookup_lt_Some _ _ _ Hnone) as Hld.
  pose proof (lookup_lt_Some _ _ _ Hslot) as Hls.
  rewrite <- Hents in Hnone, Hslot, Hld, Hls.
  fstep (read_slot_run _ _ sa H0d Hnone).
  fstep (assert_run 405 _ sa eq_refl).
  fstep (read_slot_run _ _ sa H0 Hslot).
  fstep (write_slot_run _ (Some q) sa H0d Hld).
  assert (Hls' : (Z.to_nat (y c * width (world s) + x c)
                  < length (entities (world
                      (slot_set (Z.to_nat (y dst * width (world s) + x dst))
                         (Some q) sa))))%nat)
    by (cbn; rewrite length_insert; exact Hls).
  fstep (write_slot_run _ None _ H0 Hls').
  cbn. exists sa, dst. rewrite Hents in Hnone. split_and!; auto.
Qed.

(** ** What an update leaves alone *)

Lemma lookup_agree {A} (l : list A) i a b :
  l !! i = Some a -> l !! i = Some b -> a = b.
Proof. congruence. Qed.

Lemma frame_refl p T s : (p < length (heap s))%nat -> frame p T s s.
Proof.
  intros Hp. constructor; auto.
  - exists []. symmetry. apply app_nil_r.
  - intros q o Hq Ho. apply lookup_lt_Some in Ho. lia.
Qed.

Lemma frame_trans p T s1 s2 s3 :
  frame p T s1 s2 -> frame p T s2 s3 -> frame p T s1 s3.
Proof.
  intros [] []. constructor; try congruence; try lia.
  - destruct fr_events0 as [l1 H1], fr_events1 as [l2 H2].
    exists (l1 ++ l2). rewrite H2, H1. symmetry. apply app_assoc.
  - intros q Hq Hlt. rewrite fr_heap1 by (auto; lia). auto.
  - intros q c j Hq Hc. rewrite (fr_cells1 q c j Hq).
    + apply (fr_cells0 q c j Hq Hc).
    + rewrite fr_heap0; [exact Hc | exact Hq |].
      eapply lookup_lt_Some; eauto.
  - intros q o Hq Ho.
    destruct (decide (length (heap s2) <= q)%nat) as [Hge|Hlt].
    + eauto.
    + apply (fr_new0 q o Hq). rewrite <- fr_heap1; [exact Ho| lia | lia].
Qed.

(** A step that leaves the heap and the slots as they are. *)
Lemma frame_same p T s s' l :
  (p < length (heap s))%nat ->
  heap s' = heap s -> entities (world s') = entities (world s) ->
  width (world s') = width (world s) ->
  height (world s') = height (world s) ->
  food_spawn s' = food_spawn s -> food_rebirth s' = food_rebirth s ->
  events s' = events s ++ l ->
  frame p T s s'.
Proof.
  intros Hp Hh He Hw Hht Hsp Hrb Hev. constructor; auto.
  - eauto.
  - rewrite Hh. lia.
  - intros. rewrite Hh. reflexivity.
  - intros. rewrite He. reflexivity.
  - intros q o Hq Ho. rewrite Hh in Ho. apply lookup_lt_Some in Ho. lia.
Qed.

Lemma frame_drift p T s s' :
  (p < length (heap s))%nat -> drift s s' -> frame p T s s'.
Proof.
  intros Hp []. apply frame_same with (l := []); auto.
  rewrite app_nil_r. done.
Qed.

Lemma frame_event_push p T ev s :
  (p < length (heap s))%nat -> frame p T s (event_push ev s).
Proof. intros Hp. apply frame_same with (l := [ev]); auto. Qed.

(** The cell itself is rewritten, or freed. *)
Lemma frame_heap_set p T v s :
  (p < length (heap s))%nat -> frame p T s (heap_set p v s).
Proof.
  intros Hp. constructor; auto.
  - exists []. symmetry. apply app_nil_r.
  - cbn. rewrite length_insert. lia.
  - intros q Hq _. cbn. apply list_lookup_insert_ne. done.
  - intros q o Hq Ho. cbn in Ho.
    apply lookup_lt_Some in Ho. rewrite length_insert in Ho. lia.
Qed.

(** The slots change, but not those of the other cells. *)
Lemma frame_slots p T s ents' :
  (p < length (heap s))%nat ->
  (forall q c j, q <> p -> heap s !! q = Some (Some (ObjCell c)) ->
     (ents' !! j = Some (Some q) <-> entities (world s) !! j = Some (Some q))) ->
  frame p T s (set_world (set_entities ents' (world s)) s).
Proof.
  intros Hp Hents. constructor; auto.
  - exists []. symmetry. apply app_nil_r.
  - intros q o Hq Ho. cbn in Ho. apply lookup_lt_Some in Ho. lia.
Qed.

(** The cell, or a Food, changes slot. *)
Lemma frame_move p T s src dst r :
  (p < length (heap s))%nat ->
  entities (world s) !! src = Some (Some r) ->
  entities (world s) !! dst = Some None ->
  r = p \/ (exists f, heap s !! r = Some (Some (ObjFood f))) ->
  frame p T s (slot_set src None (slot_set dst (Some r) s)).
Proof.
  intros Hp Hsrc Hdst Hr.
  pose proof (lookup_lt_Some _ _ _ Hsrc) as Hls.
  pose proof (lookup_lt_Some _ _ _ Hdst) as Hld.
  apply (frame_slots p T s). { exact Hp. }
  intros q c j Hq Hc. cbn.
  assert (Hqr : q <> r).
  { destruct Hr as [->|[f Hf]]; [exact Hq|]. intros ->. congruence. }
  destruct (decide (j = src)) as [Hjs|Hjs].
  { rewrite Hjs.
    rewrite list_lookup_insert_eq by (rewrite length_insert; done).
    split; [discriminate|]. intros E.
    pose proof (lookup_agree _ _ _ _ E Hsrc) as [= E']. congruence. }
  rewrite list_lookup_insert_ne by done.
  destruct (decide (j = dst)) as [Hjd|Hjd].
  { rewrite Hjd. rewrite list_lookup_insert_eq by done.
    split; [intros [= E]; congruence|]. intros E.
    pose proof (lookup_agree _ _ _ _ E Hdst) as E'. discriminate E'. }
  rewrite list_lookup_insert_ne by done. reflexivity.
Qed.

(** The cell is destroyed. *)
Lemma frame_death p T s e :
  entities (world s) !! e = Some (Some p) ->
  (p < length (heap s))%nat ->
  frame p T s (slot_set e None (heap_set p None s)).
Proof.
  intros He Hp. pose proof (lookup_lt_Some _ _ _ He) as Hle.
  eapply frame_trans; [apply frame_heap_set; exact Hp|].
  apply (frame_slots p T (heap_set p None s)).
  { cbn. rewrite length_insert. exact Hp. }
  intros q c j Hq _. cbn.
  destruct (decide (j = e)) as [Hje|Hje].
  - rewrite Hje. rewrite list_lookup_insert_eq by done.
    split; [discriminate|]. intros E.
    pose proof (lookup_agree _ _ _ _ E He) as [= E']. congruence.
  - rewrite list_lookup_insert_ne by done. reflexivity.
Qed.

(** A child is born into an empty slot. *)
Lemma frame_birth p T s e ch n ev :
  (p < length (heap s))%nat ->
  entities (world s) !! e = Some None ->
  last_update_color (cell_entity ch) = T ->
  frame p T s
    (slot_set e (Some (length (heap s)))
       (event_push ev (heap_push (ObjCell ch) (set_drawn n s)))).
Proof.
  intros Hp He Htag. pose proof (lookup_lt_Some _ _ _ He) as Hle.
  constructor; auto.
  - exists [ev]. reflexivity.
  - cbn. rewrite length_app. lia.
  - intros q Hq Hlt. cbn. apply lookup_app_l. done.
  - intros q c j Hq Hc. cbn.
    pose proof (lookup_lt_Some _ _ _ Hc) as Hlt.
    destruct (decide (j = e)) as [Hje|Hje].
    + rewrite Hje. rewrite list_lookup_insert_eq by done.
      split; [intros [= E]; lia|]. intros E.
      pose proof (lookup_agree _ _ _ _ E He) as E'. discriminate E'.
    + rewrite list_lookup_insert_ne by done. reflexivity.
  - intros q o Hq Ho. cbn in Ho.
    assert (q = length (heap s)) as ->.
    { apply lookup_lt_Some in Ho. rewrite length_app in Ho. cbn in Ho. lia. }
    rewrite lookup_heap_new in Ho. injection Ho as <-. eauto.
Qed.

(** ** Births *)

Lemma chromosome_big_square_valid : valid_chromosome chromosome_big_square.
Proof.
  split; [reflexivity|].
  repeat (constructor;
          [split; [reflexivity|];
           repeat (constructor; [unfold valid_response, GENE_COUNT; cbn; lia|]);
           constructor|]).
  constructor.
Qed.

Lemma bind_bind {A B C} (m : M A) (f : A -> M B) (g : B -> M C) s :
  ((m ≫= f) ≫= g) s = (m ≫= (fun a => f a ≫= g)) s.
Proof. unfold mbind, M_bind. destruct (m s); reflexivity. Qed.

Lemma cell_get_color_chromosome c c' :
  chromosome c = chromosome c' -> cell_get_color c = cell_get_color c'.
Proof. unfold cell_get_color. intros ->. reflexivity. Qed.

(** Mitosis from a live parent with a valid chromosome always succeeds. *)
Lemma cell_new_child_run pp par s :
  heap s !! pp = Some (Some (ObjCell par)) ->
  valid_chromosome (chromosome par) ->
  exists ch n,
    cell_new (Some pp) s
      = Ok (length (heap s))
           (event_push (EvBirth (length (heap s)) pp)
              (heap_push (ObjCell ch) (set_drawn n s))) /\
    (drawn s <= n)%nat /\
    cell_entity ch = {| type := ENTITY_TYPE_CELL;
                        last_update_color :=
                          last_update_color (cell_entity par) |} /\
    state ch = 0 /\ score ch = CELL_START_SCORE /\
    facing ch = facing_turn (facing par) 2 /\
    valid_chromosome (chromosome ch) /\
    0 <= color ch < 2 ^ 24.
Proof.
  intros Hpp Hvalid. unfold cell_new.
  rewrite bind_bind, (bind_run _ _ _ _ _ (load_cell_run _ _ _ Hpp)).
  destruct (chromosome_mutate_run (chromosome par) s Hvalid)
    as (chr & n & Hmut & Hchr & Hn).
  rewrite bind_bind, (bind_run _ _ _ _ _ Hmut). cbv beta.
  rewrite (bind_run (mret _) _ _ _ _ eq_refl). cbv beta.
  match goal with
  | |- context [cell_get_color ?c] =>
      destruct (cell_get_color_run c Hchr) as (col & Hcol & Hrange);
      rewrite Hcol
  end.
  cbn [cell_entity state score chromosome facing].
  eexists {| cell_entity := _; state := _; score := _; chromosome := chr;
             facing := _; color := col |}, n.
  split; [reflexivity|]. cbn. split_and!; auto; lia.
Qed.

(** So does the creation of a cell without a parent. *)
Lemma cell_new_orphan_run s :
  exists ch n,
    cell_new None s
      = Ok (length (heap s))
           (heap_push (ObjCell ch)
              (set_facing_static (facing_static s + 1) (set_drawn n s))) /\
    (drawn s <= n)%nat /\
    cell_entity ch = {| type := ENTITY_TYPE_CELL; last_update_color := -1 |} /\
    state ch = 0 /\ score ch = CELL_START_SCORE /\
    valid_chromosome (chromosome ch) /\
    0 <= color ch < 2 ^ 24.
Proof.
  unfold cell_new.
  destruct (chromosome_mutate_run chromosome_big_square s
              chromosome_big_square_valid) as (chr & n & Hmut & Hchr & Hn).
  rewrite bind_bind, (bind_run _ _ _ _ _ Hmut). cbv beta.
  rewrite bind_bind, (bind_run facing_random _ _ _ _ eq_refl). cbv beta.
  rewrite (bind_run (mret _) _ _ _ _ eq_refl). cbv beta.
  match goal with
  | |- context [cell_get_color ?c] =>
      destruct (cell_get_color_run c Hchr) as (col & Hcol & Hrange);
      rewrite Hcol
  end.
  cbn [cell_entity state score chromosome facing].
  eexists {| cell_entity := _; state := _; score := _; chromosome := chr;
             facing := _; color := col |}, n.
  split; [reflexivity|]. cbn. split_and!; auto; lia.
Qed.

(** ** The cell that is being updated *)

Lemma acting_valid_self p o :
  acting_valid p p o <-> exists c, o = ObjCell c /\ valid_cell_shape c.
Proof. unfold acting_valid. destruct (decide (p = p)); [reflexivity | done]. Qed.

Lemma acting_valid_other p q o :
  q <> p -> acting_valid p q o <-> valid_object o.
Proof. intros Hq. unfold acting_valid. destruct (decide (q = p)); [done | reflexivity]. Qed.

Lemma acting_valid_typed p q o :
  acting_valid p q o ->
  match o with
  | ObjCell c => type (cell_entity c) = ENTITY_TYPE_CELL
  | ObjFood f => type (food_entity f) = ENTITY_TYPE_FOOD
  end.
Proof.
  unfold acting_valid. destruct (decide (q = p)).
  - intros (c & -> & Hc). apply Hc.
  - destruct o as [c|f]; cbn; [intros [Hc _]; apply Hc | intros [Hf _]; exact Hf].
Qed.

Lemma well_formed_acting p c s :
  heap s !! p = Some (Some (ObjCell c)) ->
  well_formed s -> wf_state (acting_valid p) s.
Proof.
  intros Hp. apply wf_parts_mono. intros q o Hq Ho.
  unfold acting_valid. destruct (decide (q = p)) as [->|]; [|exact Ho].
  assert (o = ObjCell c) as -> by congruence.
  exists c. split; [reflexivity | apply Ho].
Qed.

Lemma acting_at_shape p e c s : acting_at p e c s -> valid_cell_shape c.
Proof.
  intros [Hwf _ _ Hc].
  apply (wf_valid _ _ _ _ _ _ Hwf), acting_valid_self in Hc
    as (c0 & [= <-] & Hshape).
  exact Hshape.
Qed.

Lemma acting_at_alloc p e c s : acting_at p e c s -> (p < length (heap s))%nat.
Proof. intros [_ _ _ Hc]. eapply lookup_lt_Some; eauto. Qed.

Lemma acting_at_store p e c c' s :
  acting_at p e c s -> valid_cell_shape c' ->
  acting_at p e c' (heap_set p (Some (ObjCell c')) s).
Proof.
  intros [Hwf H0 Hslot Hc] Hshape. constructor; auto.
  - unfold wf_state. cbn.
    eapply wf_parts_store; [exact Hc | | | exact Hwf].
    + apply acting_valid_self. eauto.
    + auto.
  - cbn. apply (lookup_heap_insert _ _ _ _ Hc).
Qed.

Lemma acting_at_drift p e c s s' :
  drift s s' -> acting_at p e c s -> acting_at p e c s'.
Proof.
  intros Hd [Hwf H0 Hslot Hc]. constructor; auto.
  - eapply wf_state_drift; eauto.
  - rewrite (dr_entities _ _ Hd). exact Hslot.
  - rewrite (dr_heap _ _ Hd). exact Hc.
Qed.

Lemma acting_at_event_push p e c ev s :
  acting_at p e c s -> acting_at p e c (event_push ev s).
Proof. intros [Hwf H0 Hslot Hc]. constructor; auto. Qed.

(** Another entity changes slot. *)
Lemma acting_at_relocate p e c s src dst q :
  acting_at p e c s -> q <> p ->
  entities (world s) !! src = Some (Some q) ->
  entities (world s) !! dst = Some None ->
  acting_at p e c (slot_set src None (slot_set dst (Some q) s)).
Proof.
  intros [Hwf H0 Hslot Hc] Hq Hsrc Hdst. constructor; auto.
  - unfold wf_state. cbn. apply wf_parts_move; assumption.
  - cbn.
    assert (Z.to_nat e <> src)
      by (apply (slot_diff _ _ _ _ _ Hslot Hsrc); intros [= E]; congruence).
    assert (Z.to_nat e <> dst) by (apply (slot_diff _ _ _ _ _ Hslot Hdst); done).
    rewrite !list_lookup_insert_ne by done. exact Hslot.
Qed.

(** The cell itself changes slot. *)
Lemma acting_at_move p e c s dst :
  acting_at p e c s -> 0 <= dst ->
  entities (world s) !! Z.to_nat dst = Some None ->
  acting_at p dst c
    (slot_set (Z.to_nat e) None (slot_set (Z.to_nat dst) (Some p) s)).
Proof.
  intros [Hwf H0 Hslot Hc] Hd Hdst. constructor; auto.
  - unfold wf_state. cbn. apply wf_parts_move; assumption.
  - cbn.
    assert (Z.to_nat dst <> Z.to_nat e)
      by (apply (slot_diff _ _ _ _ _ Hdst Hslot); done).
    rewrite list_lookup_insert_ne by done.
    apply list_lookup_insert_eq. eapply lookup_lt_Some; eauto.
Qed.

(** The cell leaves a child in the slot [i]. *)
Lemma acting_at_birth p e c s i ch n ev :
  acting_at p e c s ->
  entities (world s) !! i = Some None ->
  valid_cell ch ->
  acting_at p e c
    (slot_set i (Some (length (heap s)))
       (event_push ev (heap_push (ObjCell ch) (set_drawn n s)))).
Proof.
  intros [Hwf H0 Hslot Hc] Hi Hch.
  pose proof (lookup_lt_Some _ _ _ Hc) as Hlt.
  constructor; auto.
  - unfold wf_state. cbn. apply wf_parts_birth; [exact Hi | | exact Hwf].
    apply acting_valid_other; [lia | exact Hch].
  - cbn.
    assert (Z.to_nat e <> i) by (apply (slot_diff _ _ _ _ _ Hslot Hi); done).
    rewrite list_lookup_insert_ne by done. exact Hslot.
  - cbn. apply lookup_app_l_Some. exact Hc.
Qed.

(** ** Perception and response *)

Lemma faced_situation_run p e c pos s :
  acting_at p e c s -> exists sit, faced_situation p pos s = Ok sit s.
Proof.
  intros Ha. pose proof Ha as [Hwf _ _ Hc]. unfold faced_situation.
  rewrite (bind_run _ _ _ _ _ (load_cell_run _ _ _ Hc)). cbv beta.
  rewrite (bind_run get_world _ s _ _ eq_refl). cbv beta zeta.
  set (fc := facing_step (facing c) pos 1).
  destruct ((x fc <? 0) || (width (world s) <=? x fc)
            || (y fc <? 0) || (height (world s) <=? y fc)) eqn:Hout;
    [eexists; reflexivity|].
  assert (Hin : coord_in_bounds fc (world s) = true).
  { apply coord_in_bounds_spec.
    apply orb_false_iff in Hout as [Hout H4].
    apply orb_false_iff in Hout as [Hout H3].
    apply orb_false_iff in Hout as [H1 H2]. lia. }
  rewrite (world_get_entity_ref_run _ _ Hin).
  destruct (slot_lookup fc s (wf_slots _ _ _ _ _ _ Hwf) Hin) as (H0 & v & Hv).
  rewrite (bind_run _ _ _ _ _ (read_slot_run _ _ _ H0 Hv)). cbv beta.
  destruct v as [q|]; [|eexists; reflexivity].
  destruct (wf_live _ _ _ _ _ _ Hwf _ _ Hv) as [o Ho].
  rewrite (bind_run _ _ _ _ _ (load_run _ _ _ Ho)). cbv beta.
  pose proof (acting_valid_typed p q o (wf_valid _ _ _ _ _ _ Hwf _ _ Ho)) as Hty.
  destruct o; cbn [entity_of]; rewrite Hty; eexists; reflexivity.
Qed.

Lemma chromosome_response_valid c st sit :
  valid_chromosome c -> 0 <= st < GENE_COUNT ->
  exists r, chromosome_response c st sit = Some r /\ valid_response r.
Proof.
  intros [Hlen Hv] Hst. unfold chromosome_response.
  destruct (lookup_lt_is_Some_2 (genes c) (Z.to_nat st)) as [g Hg].
  { rewrite Hlen. unfold GENE_COUNT in *. lia. }
  rewrite Hg.
  destruct (proj1 (Forall_lookup _ _) Hv _ _ Hg) as [Hg4 Hgv].
  destruct (lookup_lt_is_Some_2 (responses g) (situation_value sit))
    as [r Hr].
  { rewrite Hg4. destruct sit; cbn; lia. }
  exists r. split; [exact Hr|].
  exact (proj1 (Forall_lookup _ _) Hgv _ _ Hr).
Qed.

(** ** The parts of a move *)

Lemma actors_push_relocate l q src dst :
  actors (l ++ [EvRelocate q src dst]) = actors l.
Proof. rewrite actors_app. apply app_nil_r. Qed.

Lemma actors_push_birth l child parent :
  actors (l ++ [EvBirth child parent]) = actors l.
Proof. rewrite actors_app. apply app_nil_r. Qed.

Lemma same_but_score_refl c : same_but_score c c.
Proof. repeat split. Qed.

Lemma same_but_score_set_score v c : same_but_score c (set_score v c).
Proof. repeat split. Qed.

Lemma same_but_score_trans c1 c2 c3 :
  same_but_score c1 c2 -> same_but_score c2 c3 -> same_but_score c1 c3.
Proof.
  intros (H1 & H2 & H3 & H4 & H5) (G1 & G2 & G3 & G4 & G5).
  repeat split; congruence.
Qed.

Lemma valid_cell_shape_same c c' :
  same_but_score c c' -> valid_cell_shape c -> valid_cell_shape c'.
Proof.
  intros (H1 & H2 & H3 & H4 & H5) (G1 & G2 & G3 & G4).
  unfold valid_cell_shape. rewrite H1, H2, H3, H5. auto.
Qed.

Lemma move_clear_destination_fine T fuel p e c dc s :
  acting_at p e c s ->
  coord_in_bounds dc (world s) = true ->
  fine (move_clear_destination fuel p dc (y dc * width (world s) + x dc) s)
    (fun blocked s' =>
       if blocked : bool then s' = s
       else exists c',
         acting_at p e c' s' /\ same_but_score c c' /\
         (score c' = score c \/ score c' = score c + FOOD_SCORE) /\
         frame p T s s' /\
         actors (events s') = actors (events s) /\
         entities (world s') !! Z.to_nat (y dc * width (world s) + x dc)
           = Some None).
Proof.
  intros Ha Hin. pose proof Ha as [Hwf H0e Hslot Hc].
  pose proof (acting_at_alloc _ _ _ _ Ha) as Hp.
  unfold move_clear_destination.
  destruct (slot_lookup dc s (wf_slots _ _ _ _ _ _ Hwf) Hin) as (H0 & v & Hv).
  fstep (read_slot_run _ _ _ H0 Hv).
  destruct v as [q|].
  2: { cbn. exists c. split_and!; auto using same_but_score_refl, frame_refl. }
  destruct (wf_live _ _ _ _ _ _ Hwf _ _ Hv) as [o Ho].
  fstep (load_run _ _ _ Ho).
  pose proof (wf_valid _ _ _ _ _ _ Hwf _ _ Ho) as Hvalid.
  pose proof (acting_valid_typed p q o Hvalid) as Hty.
  destruct o as [cq|f]; cbn [entity_of]; rewrite Hty; cbn [entity_type_eqb];
    [reflexivity|].
  assert (Hqp : q <> p) by (intros ->; congruence).
  apply acting_valid_other in Hvalid; [|exact Hqp].
  fstep (update_cell_run p c (fun c => set_score (score c + FOOD_SCORE) c) s Hc).
  set (c1 := set_score (score c + FOOD_SCORE) c).
  set (s1 := heap_set p (Some (ObjCell c1)) s).
  assert (Ha1 : acting_at p e c1 s1).
  { apply (acting_at_store p e c); [exact Ha|].
    apply (valid_cell_shape_same c); [apply same_but_score_set_score|].
    eapply acting_at_shape; eauto. }
  assert (Hq1 : heap s1 !! q = Some (Some (ObjFood f)))
    by (cbn; rewrite list_lookup_insert_ne by done; exact Ho).
  eapply fine_bind.
  { apply (relocate_food_fine (acting_valid p) fuel dc s1 q f);
      [apply Ha1 | exact Hin | exact Hv | exact Hq1 | exact Hvalid]. }
  cbv beta. intros _ s2 (sa & dst & Hd & Hdst & Hnone & ->). cbn.
  change (width (world s1)) with (width (world s)) in *.
  change (entities (world s1)) with (entities (world s)) in *.
  pose proof (acting_at_drift _ _ _ _ _ Hd Ha1) as Haa.
  assert (Hva : entities (world sa)
                  !! Z.to_nat (y dc * width (world s) + x dc) = Some (Some q))
    by (rewrite (dr_entities _ _ Hd); exact Hv).
  assert (Hna : entities (world sa)
                  !! Z.to_nat (y dst * width (world s) + x dst) = Some None)
    by (rewrite (dr_entities _ _ Hd); exact Hnone).
  exists c1. split_and!.
  - apply acting_at_event_push, acting_at_relocate; assumption.
  - apply same_but_score_set_score.
  - right. reflexivity.
  - eapply frame_trans; [apply frame_heap_set; exact Hp|].
    eapply frame_trans; [apply frame_drift; [|exact Hd]|].
    { cbn. rewrite length_insert. exact Hp. }
    eapply frame_trans; [|apply frame_event_push].
    + apply frame_move; [| exact Hva | exact Hna |].
      * rewrite (dr_heap _ _ Hd). cbn. rewrite length_insert. exact Hp.
      * right. exists f. rewrite (dr_heap _ _ Hd). exact Hq1.
    + cbn. rewrite (dr_heap _ _ Hd). cbn. rewrite length_insert. exact Hp.
  - rewrite (dr_events _ _ Hd). apply actors_push_relocate.
  - apply list_lookup_insert_eq. rewrite length_insert.
    eapply lookup_lt_Some; eauto.
Qed.

Lemma move_transfer_fine T p e c dst s :
  acting_at p e c s ->
  last_update_color (cell_entity c) = T ->
  0 <= dst ->
  entities (world s) !! Z.to_nat dst = Some None ->
  fine (move_transfer p e dst s) (fun e' s' =>
    e' = dst /\
    exists c',
      acting_at p dst c' s' /\ same_but_score c c' /\
      (score c < CELL_MITOSIS_THRESHOLD /\ score c' = score c \/
       CELL_MITOSIS_THRESHOLD <= score c /\ score c' = CELL_START_SCORE) /\
      frame p T s s' /\
      actors (events s') = actors (events s)).
Proof.
  intros Ha Htag Hd Hdst. pose proof Ha as [Hwf H0e Hslot Hc].
  pose proof (acting_at_alloc _ _ _ _ Ha) as Hp.
  pose proof (acting_at_shape _ _ _ _ Ha) as Hshape.
  pose proof (lookup_lt_Some _ _ _ Hdst) as Hld.
  pose proof (lookup_lt_Some _ _ _ Hslot) as Hle.
  unfold move_transfer.
  fstep (read_slot_run _ _ _ Hd Hdst).
  fstep (assert_run 482 _ s eq_refl).
  fstep (write_slot_run _ (Some p) s Hd Hld).
  assert (Hle' : (Z.to_nat e < length (entities (world
                    (slot_set (Z.to_nat dst) (Some p) s))))%nat)
    by (cbn; rewrite length_insert; exact Hle).
  fstep (write_slot_run _ None _ H0e Hle').
  set (s2 := slot_set (Z.to_nat e) None (slot_set (Z.to_nat dst) (Some p) s)).
  pose proof (acting_at_move _ _ _ _ _ Ha Hd Hdst) as Ha2. fold s2 in Ha2.
  assert (Hf2 : frame p T s s2)
    by (apply frame_move; [exact Hp | exact Hslot | exact Hdst | auto]).
  fstep (load_cell_run p c s2 Hc).
  destruct (Z.leb_spec CELL_MITOSIS_THRESHOLD (score c)) as [Hmit|Hno].
  2: { cbn. split; [reflexivity|]. exists c.
       split_and!; auto using same_but_score_refl. }
  destruct (cell_new_child_run p c s2 Hc (proj1 (proj2 (proj2 Hshape))))
    as (ch & n & Hnew & Hn & Hent & Hst & Hsc & Hfac & Hchr & Hcol).
  rewrite bind_bind. fstep Hnew. rewrite bind_bind.
  set (s3 := event_push (EvBirth (length (heap s2)) p)
               (heap_push (ObjCell ch) (set_drawn n s2))).
  assert (Hle3 : (Z.to_nat e < length (entities (world s3)))%nat)
    by (cbn; rewrite !length_insert; exact Hle).
  fstep (write_slot_run _ (Some (length (heap s2))) s3 H0e Hle3).
  assert (Hnone2 : entities (world s2) !! Z.to_nat e = Some None)
    by (cbn; apply list_lookup_insert_eq; rewrite length_insert; exact Hle).
  assert (Hvch : valid_cell ch).
  { split; [|rewrite Hsc; unfold CELL_START_SCORE, CELL_MITOSIS_THRESHOLD; lia].
    unfold valid_cell_shape. rewrite Hent, Hst.
    unfold GENE_COUNT. split_and!; auto; lia. }
  pose proof (acting_at_birth p dst c s2 (Z.to_nat e) ch n
                (EvBirth (length (heap s2)) p) Ha2 Hnone2 Hvch) as Ha4.
  fold s3 in Ha4.
  set (s4 := slot_set (Z.to_nat e) (Some (length (heap s2))) s3) in *.
  assert (Hc4 : heap s4 !! p = Some (Some (ObjCell c))) by apply Ha4.
  fstep (update_cell_run p c (set_score CELL_START_SCORE) s4 Hc4).
  cbn [fine mret M_ret]. unfold mret, M_ret. cbn [fine].
  split; [reflexivity|]. exists (set_score CELL_START_SCORE c).
  split_and!.
  - apply (acting_at_store p dst c); [exact Ha4|].
    apply (valid_cell_shape_same c); [apply same_but_score_set_score | exact Hshape].
  - apply same_but_score_set_score.
  - right. split; [exact Hmit | reflexivity].
  - eapply frame_trans; [exact Hf2|].
    eapply frame_trans; [|apply frame_heap_set].
    + apply frame_birth; [exact Hp | exact Hnone2 |].
      rewrite Hent. exact Htag.
    + cbn. rewrite length_app. cbn in Hp. lia.
  - cbn. apply actors_push_birth.
Qed.

Lemma entity_move_fine T fuel p pos e c s :
  acting_at p e c s ->
  last_update_color (cell_entity c) = T ->
  0 < score c < CELL_MITOSIS_THRESHOLD ->
  fine (entity_move fuel p pos e s) (fun e' s' =>
    exists c',
      acting_at p e' c' s' /\ same_but_score c c' /\
      0 < score c' < CELL_MITOSIS_THRESHOLD /\
      frame p T s s' /\
      actors (events s') = actors (events s)).
Proof.
  intros Ha Htag Hscore. pose proof Ha as [Hwf H0e Hslot Hc].
  pose proof (acting_at_alloc _ _ _ _ Ha) as Hp.
  assert (Hstay : fine ((mret e : M Z) s) (fun e' s' =>
            exists c',
              acting_at p e' c' s' /\ same_but_score c c' /\
              0 < score c' < CELL_MITOSIS_THRESHOLD /\
              frame p T s s' /\
              actors (events s') = actors (events s))).
  { cbn. exists c. split_and!; auto using same_but_score_refl, frame_refl; lia. }
  unfold entity_move.
  fstep (load_cell_run p c s Hc). fworld. cbv zeta.
  set (dc := facing_step (facing c) pos move_steps).
  destruct (coord_in_bounds dc (world s)) eqn:Hin; cbn [negb]; [|exact Hstay].
  fbind (move_clear_destination_fine T fuel p e c dc s Ha Hin).
  intros [|] s1; [intros ->; exact Hstay|].
  intros (c1 & Ha1 & Hsame1 & Hsc1 & Hf1 & Hact1 & Hnone).
  destruct (slot_lookup dc s (wf_slots _ _ _ _ _ _ Hwf) Hin) as (H0 & _).
  eapply fine_mono.
  { apply (move_transfer_fine T p e c1 _ s1 Ha1); [|exact H0 | exact Hnone].
    destruct Hsame1 as (-> & _). exact Htag. }
  cbv beta. intros e' s' (-> & c2 & Ha2 & Hsame2 & Hsc2 & Hf2 & Hact2).
  exists c2. split_and!.
  - exact Ha2.
  - eapply same_but_score_trans; eassumption.
  - unfold CELL_START_SCORE, CELL_MITOSIS_THRESHOLD, FOOD_SCORE in *. lia.
  - unfold CELL_START_SCORE, CELL_MITOSIS_THRESHOLD, FOOD_SCORE in *. lia.
  - eapply frame_trans; eassumption.
  - congruence.
Qed.

(** ** The update of a cell *)

Lemma cell_response_run c sit r s :
  chromosome_response (chromosome c) (state c) sit = Some r ->
  cell_response c sit s = Ok r s.
Proof. unfold cell_response. intros ->. reflexivity. Qed.

Lemma actors_push_act l p a : actors (l ++ [EvAct p a]) = actors l ++ [p].
Proof. rewrite actors_app. reflexivity. Qed.

Lemma cell_act_fine T fuel p pos e c s :
  acting_at p e c s ->
  last_update_color (cell_entity c) = T ->
  0 < score c < CELL_MITOSIS_THRESHOLD ->
  fine (cell_act fuel p pos e s) (fun e' s' =>
    exists c',
      acting_at p e' c' s' /\
      score c' < CELL_MITOSIS_THRESHOLD /\
      cell_entity c' = cell_entity c /\
      frame p T s s' /\
      actors (events s') = actors (events s) ++ [p]).
Proof.
  intros Ha Htag Hscore. pose proof Ha as [Hwf H0e Hslot Hc].
  pose proof (acting_at_alloc _ _ _ _ Ha) as Hp.
  pose proof (acting_at_shape _ _ _ _ Ha) as Hshape.
  pose proof Hshape as (Hty & Hst & Hchr & Hcol).
  unfold cell_act.
  destruct (faced_situation_run p e c pos s Ha) as [sit Hsit]. fstep Hsit.
  fstep (load_cell_run p c s Hc).
  assert (Hassert : (0 <=? state c) && (state c <? GENE_COUNT) = true).
  { apply andb_true_iff. split; [apply Z.leb_le | apply Z.ltb_lt]; lia. }
  fstep (assert_run 454 _ s Hassert).
  destruct (chromosome_response_valid (chromosome c) (state c) sit Hchr Hst)
    as (r & Hr & Hrv).
  fstep (cell_response_run c sit r s Hr).
  eapply (fine_run (emit _) _ _ _ _ _ eq_refl). cbv beta.
  set (s1 := event_push (EvAct p (action r)) s).
  pose proof (acting_at_event_push p e c (EvAct p (action r)) s Ha) as Ha1.
  fold s1 in Ha1.
  assert (Hp1 : (p < length (heap s1))%nat) by exact Hp.
  eapply fine_bind with
    (Q1 := fun e' s2 =>
       exists c2,
         acting_at p e' c2 s2 /\
         cell_entity c2 = cell_entity c /\
         state c2 = state c /\ chromosome c2 = chromosome c /\
         color c2 = color c /\
         0 < score c2 < CELL_MITOSIS_THRESHOLD /\
         frame p T s1 s2 /\
         actors (events s2) = actors (events s1)).
  { assert (Hturn : forall k,
              fine ((update_cell p
                       (fun c => set_facing (facing_turn (facing c) k) c);;
                     mret e) s1)
                (fun e' s2 =>
                   exists c2,
                     acting_at p e' c2 s2 /\
                     cell_entity c2 = cell_entity c /\
                     state c2 = state c /\ chromosome c2 = chromosome c /\
                     color c2 = color c /\
                     0 < score c2 < CELL_MITOSIS_THRESHOLD /\
                     frame p T s1 s2 /\
                     actors (events s2) = actors (events s1))).
    { intros k.
      fstep (update_cell_run p c
               (fun c => set_facing (facing_turn (facing c) k) c) s1 Hc).
      cbn. exists (set_facing (facing_turn (facing c) k) c).
      split_and!;
        first [ apply (acting_at_store p e c); [exact Ha1 | exact Hshape]
              | apply frame_heap_set; exact Hp1
              | cbn; lia
              | reflexivity ]. }
    assert (Hmove : fine (entity_move fuel p pos e s1)
              (fun e' s2 =>
                 exists c2,
                   acting_at p e' c2 s2 /\
                   cell_entity c2 = cell_entity c /\
                   state c2 = state c /\ chromosome c2 = chromosome c /\
                   color c2 = color c /\
                   0 < score c2 < CELL_MITOSIS_THRESHOLD /\
                   frame p T s1 s2 /\
                   actors (events s2) = actors (events s1))).
    { eapply fine_mono;
        [apply (entity_move_fine T fuel p pos e c s1 Ha1 Htag Hscore)|].
      cbv beta. intros e' s2 (c2 & Ha2 & Hsame & Hsc2 & Hf2 & Hact2).
      destruct Hsame as (E1 & E2 & E3 & E4 & E5).
      exists c2. split_and!; first [assumption | lia]. }
    destruct (action r); [exact Hmove | apply Hturn | apply Hturn | exact Hmove]. }
  cbv beta. intros e' s2 (c2 & Ha2 & Hent2 & Hst2 & Hchr2 & Hcol2 & Hsc2 & Hf2 & Hact2).
  pose proof (aa_cell _ _ _ _ Ha2) as Hc2.
  fstep (update_cell_run p c2
           (fun c => set_score (score c - action_costs (action r)) c) s2 Hc2).
  set (c3 := set_score (score c2 - action_costs (action r)) c2).
  set (s3 := heap_set p (Some (ObjCell c3)) s2).
  assert (Hshape2 : valid_cell_shape c2) by (eapply acting_at_shape; eauto).
  assert (Ha3 : acting_at p e' c3 s3)
    by (apply (acting_at_store p e' c2); [exact Ha2 | exact Hshape2]).
  fstep (update_cell_run p c3 (set_state (next_state r)) s3
           (aa_cell _ _ _ _ Ha3)).
  cbn [fine mret M_ret]. unfold mret, M_ret. cbn [fine].
  exists (set_state (next_state r) c3). split_and!.
  - apply (acting_at_store p e' c3); [exact Ha3|].
    destruct Hshape2 as (G1 & G2 & G3 & G4).
    unfold valid_cell_shape. cbn. auto.
  - cbn. destruct (action r); cbn; lia.
  - cbn. exact Hent2.
  - eapply frame_trans; [apply frame_event_push; exact Hp|].
    eapply frame_trans; [exact Hf2|].
    pose proof (acting_at_alloc _ _ _ _ Ha2) as Hp2.
    eapply frame_trans; apply frame_heap_set; [exact Hp2|].
    cbn. rewrite length_insert. exact Hp2.
  - cbn. rewrite Hact2. apply actors_push_act.
Qed.

Lemma cell_reap_fine T p e c s :
  acting_at p e c s ->
  score c < CELL_MITOSIS_THRESHOLD ->
  exists s',
    cell_reap p e s = Ok tt s' /\
    well_formed s' /\
    frame p T s s' /\
    events s' = events s /\
    (0 < score c -> s' = s) /\
    (score c <= 0 -> heap s' !! p = Some None).
Proof.
  intros Ha Hscore. pose proof Ha as [Hwf H0e Hslot Hc].
  pose proof (acting_at_alloc _ _ _ _ Ha) as Hp.
  pose proof (acting_at_shape _ _ _ _ Ha) as Hshape.
  pose proof (lookup_lt_Some _ _ _ Hslot) as Hle.
  unfold cell_reap.
  rewrite (bind_run _ _ _ _ _ (load_cell_run p c s Hc)). cbv beta.
  destruct (Z.leb_spec (score c) 0) as [Hdead|Halive].
  - rewrite (bind_run _ _ _ _ _ (read_slot_run _ _ _ H0e Hslot)). cbv beta.
    rewrite (bind_run _ _ _ _ _ (free_run _ _ _ Hc)). cbv beta.
    rewrite (write_slot_run e None (heap_set p None s) H0e Hle).
    eexists. split; [reflexivity|]. split_and!.
    + unfold well_formed, wf_state. cbn.
      eapply wf_parts_death; [exact Hslot | | exact Hwf].
      intros q oq Hq _ Hv. apply acting_valid_other in Hv; assumption.
    + apply frame_death; assumption.
    + reflexivity.
    + lia.
    + intros _. cbn. apply (lookup_heap_insert _ _ _ _ Hc).
  - exists s. split; [reflexivity|]. split_and!; auto using frame_refl; [|lia].
    eapply wf_parts_mono; [|exact Hwf].
    intros q o Hq Hv. unfold acting_valid in Hv.
    destruct (decide (q = p)) as [->|]; [|exact Hv].
    assert (o = ObjCell c) as -> by congruence.
    split; [exact Hshape | lia].
Qed.

(** ** The update of a slot *)

(** Nothing happens. *)
Lemma update_post_same T pos s :
  well_formed s ->
  (forall p o, entities (world s) !! slot_of s pos = Some (Some p) ->
     heap s !! p = Some (Some o) -> last_update_color (entity_of o) = T) ->
  update_post T pos s s.
Proof.
  intros Hwf Htag. constructor; auto.
  - exists []. symmetry. apply app_nil_r.
  - intros q o Hq Ho. apply lookup_lt_Some in Ho. lia.
  - intros p f Hslot Hf. split; [|auto].
    exists f. split_and!; auto. apply (Htag p _ Hslot Hf).
  - intros p c Hslot Hc. split; [auto|].
    intros Hne. destruct Hne. apply (Htag p _ Hslot Hc).
Qed.

(** The entity [p] of the slot was concerned, and only it. *)
Lemma update_post_frame T pos s s' p o :
  entities (world s) !! slot_of s pos = Some (Some p) ->
  heap s !! p = Some (Some o) ->
  well_formed s' ->
  frame p T s s' ->
  (forall f, o = ObjFood f ->
     (exists f', heap s' !! p = Some (Some (ObjFood f')) /\
                 clump f' = clump f /\
                 last_update_color (food_entity f') = T) /\
     entities (world s') = entities (world s) /\
     events s' = events s) ->
  (forall c, o = ObjCell c ->
     last_update_color (cell_entity c) <> T /\
     actors (events s') = actors (events s) ++ [p] /\
     (heap s' !! p = Some None \/
      exists c', heap s' !! p = Some (Some (ObjCell c')) /\
                 last_update_color (cell_entity c') = T)) ->
  update_post T pos s s'.
Proof.
  intros Hslot Ho Hwf [] Hfood Hcell. constructor; auto.
  - intros q Hq. apply fr_heap0. intros ->. done.
  - intros q c j Hq. apply fr_cells0. intros ->. done.
  - intros Hnone. exfalso.
    pose proof (lookup_agree _ _ _ _ Hnone Hslot) as E. discriminate E.
  - intros p' f Hslot' Hf.
    pose proof (lookup_agree _ _ _ _ Hslot' Hslot) as [= ->].
    apply Hfood. congruence.
  - intros p' c Hslot' Hc.
    pose proof (lookup_agree _ _ _ _ Hslot' Hslot) as [= ->].
    destruct (Hcell c ltac:(congruence)) as (Hne & Hact & Htag).
    split; [intros E; done | auto].
Qed.

Lemma entity_update_fine T fuel pos s :
  well_formed s ->
  coord_in_bounds pos (world s) = true ->
  fine (entity_update fuel pos T s) (fun _ s' => update_post T pos s s').
Proof.
  intros Hwf Hin. unfold entity_update.
  destruct (slot_lookup pos s (wf_slots _ _ _ _ _ _ Hwf) Hin) as (H0 & v & Hv).
  fworld. cbv zeta. fstep (read_slot_run _ _ _ H0 Hv).
  destruct v as [p|].
  2: { cbn. apply update_post_same; [exact Hwf|].
       intros p o Hp. pose proof (lookup_agree _ _ _ _ Hp Hv) as E.
       discriminate E. }
  destruct (wf_live _ _ _ _ _ _ Hwf _ _ Hv) as [o Ho].
  pose proof (lookup_lt_Some _ _ _ Ho) as Hp.
  fstep (load_run _ _ _ Ho).
  destruct (Z.eqb_spec (last_update_color (entity_of o)) T) as [Htag|Htag].
  { cbn. apply update_post_same; [exact Hwf|].
    intros p' o' Hp' Ho'.
    pose proof (lookup_agree _ _ _ _ Hp' Hv) as [= ->].
    assert (o' = o) as -> by congruence. exact Htag. }
  fstep (store_run p o
           (set_entity {| type := type (entity_of o);
                          last_update_color := T |} o) s Ho).
  pose proof (wf_valid _ _ _ _ _ _ Hwf _ _ Ho) as Hvalid.
  destruct o as [c|f].
  - (* a cell *)
    destruct Hvalid as [Hshape Hscore].
    pose proof Hshape as (Hty & Hst & Hchr & Hcol).
    cbn [entity_of set_entity]. rewrite Hty. cbn [entity_type_eqb negb].
    set (c1 := {| cell_entity := {| type := ENTITY_TYPE_CELL;
                                    last_update_color := T |};
                  state := state c; score := score c;
                  chromosome := chromosome c; facing := facing c;
                  color := color c |}).
    set (s1 := heap_set p (Some (ObjCell c1)) s).
    assert (Ha0 : acting_at p (y pos * width (world s) + x pos) c s).
    { constructor; auto. eapply well_formed_acting; eauto. }
    assert (Ha1 : acting_at p (y pos * width (world s) + x pos) c1 s1).
    { apply (acting_at_store p _ c); [exact Ha0|].
      unfold valid_cell_shape. cbn. auto. }
    unfold cell_update.
    fbind (cell_act_fine T fuel p pos _ c1 s1 Ha1 eq_refl Hscore).
    intros e' s2 (c2 & Ha2 & Hsc2 & Hent2 & Hf2 & Hact2).
    destruct (cell_reap_fine T p e' c2 s2 Ha2 Hsc2)
      as (s' & Hreap & Hwf' & Hf' & Hev' & Halive & Hdead).
    rewrite Hreap. cbn.
    apply (update_post_frame T pos s s' p (ObjCell c) Hv Ho Hwf').
    + eapply frame_trans; [apply frame_heap_set; exact Hp|].
      eapply frame_trans; eassumption.
    + intros f [=].
    + intros c0 [= <-]. split; [exact Htag|]. split.
      * rewrite Hev', Hact2. reflexivity.
      * destruct (Z.leb_spec (score c2) 0) as [Hle|Hgt].
        -- left. exact (Hdead Hle).
        -- right. exists c2. rewrite (Halive Hgt).
           split; [apply Ha2 | rewrite Hent2; reflexivity].
  - (* a Food *)
    destruct Hvalid as [Hty Hclump].
    cbn [entity_of set_entity]. rewrite Hty. cbn [entity_type_eqb negb].
    cbn [fine mret M_ret]. unfold mret, M_ret. cbn [fine].
    set (f1 := {| food_entity := {| type := ENTITY_TYPE_FOOD;
                                    last_update_color := T |};
                  clump := clump f |}).
    apply (update_post_frame T pos s _ p (ObjFood f) Hv Ho).
    + unfold well_formed, wf_state. cbn.
      eapply wf_parts_store; [exact Ho | | | exact Hwf].
      * split; [reflexivity | exact Hclump].
      * auto.
    + apply frame_heap_set. exact Hp.
    + intros f0 [= <-]. split; [|split; reflexivity].
      exists f1. split; [|split; reflexivity].
      cbn. apply (lookup_heap_insert _ _ _ _ Ho).
    + intros c [=].
Qed.

(** ** A pass over the board *)

Lemma scan_inv_init T s : well_formed s -> scan_inv T s [] s.
Proof.
  intros Hwf. constructor; auto.
  - exists []. symmetry. apply app_nil_r.
  - eauto.
  - eauto.
  - intros c q cell Hc. apply elem_of_nil in Hc. done.
Qed.

Lemma actors_mono l l' p : p ∈ actors l -> p ∈ actors (l ++ l').
Proof. intros Hp. rewrite actors_app. apply elem_of_app. auto. Qed.

Lemma slot_of_inj s c1 c2 :
  coord_in_bounds c1 (world s) = true ->
  coord_in_bounds c2 (world s) = true ->
  slot_of s c1 = slot_of s c2 -> c1 = c2.
Proof.
  intros [Hx1 Hy1]%coord_in_bounds_spec [Hx2 Hy2]%coord_in_bounds_spec.
  unfold slot_of. intros Heq.
  destruct (slot_index_inj _ _ _ _ _ Hx1 Hx2 (proj1 Hy1) (proj1 Hy2) Heq).
  destruct c1, c2; cbn in *; congruence.
Qed.

Lemma scan_inv_step T s0 d pos s s' :
  scan_inv T s0 d s ->
  coord_in_bounds pos (world s0) = true ->
  pos ∉ d ->
  update_post T pos s s' ->
  scan_inv T s0 (d ++ [pos]) s'.
Proof.
  intros Hinv Hin Hnew Hup.
  pose proof (si_wf _ _ _ _ Hinv) as Hwf.
  assert (Hslot : slot_of s pos = slot_of s0 pos)
    by (unfold slot_of; rewrite (si_width _ _ _ _ Hinv); reflexivity).
  assert (Hmono : forall q, q ∈ actors (events s) -> q ∈ actors (events s')).
  { intros q Hq. destruct (up_events _ _ _ _ Hup) as [l ->].
    apply actors_mono, Hq. }
  constructor.
  - apply Hup.
  - rewrite (up_width _ _ _ _ Hup). apply Hinv.
  - rewrite (up_height _ _ _ _ Hup). apply Hinv.
  - rewrite (up_spawn _ _ _ _ Hup). apply Hinv.
  - rewrite (up_rebirth _ _ _ _ Hup). apply Hinv.
  - destruct (si_events _ _ _ _ Hinv) as [l1 H1].
    destruct (up_events _ _ _ _ Hup) as [l2 H2].
    exists (l1 ++ l2). rewrite H2, H1. symmetry. apply app_assoc.
  - pose proof (si_grow _ _ _ _ Hinv). pose proof (up_grow _ _ _ _ Hup). lia.
  - intros q f Hf. destruct (si_foods _ _ _ _ Hinv q f Hf) as (f1 & Hf1 & Hc1).
    destruct (decide (entities (world s) !! slot_of s pos = Some (Some q)))
      as [Hq|Hq].
    + destruct (up_food _ _ _ _ Hup q f1 Hq Hf1) as ((f2 & Hf2 & Hc2 & _) & _).
      exists f2. split; [exact Hf2 | congruence].
    + exists f1. split; [|exact Hc1].
      rewrite (up_heap _ _ _ _ Hup q Hq); [exact Hf1|].
      eapply lookup_lt_Some; eauto.
  - intros q f' Hf'.
    destruct (decide (length (heap s) <= q)%nat) as [Hge|Hlt].
    { destruct (up_new _ _ _ _ Hup q _ Hge Hf') as (c & [=] & _). }
    destruct (decide (entities (world s) !! slot_of s pos = Some (Some q)))
      as [Hq|Hq].
    + destruct (wf_live _ _ _ _ _ _ Hwf _ _ Hq) as [o Ho].
      destruct o as [c|f]; [|apply (si_no_new_food _ _ _ _ Hinv q f Ho)].
      exfalso. destruct (up_cell _ _ _ _ Hup q c Hq Ho) as [Hsame Hact].
      destruct (decide (last_update_color (cell_entity c) = T)) as [E|E].
      * rewrite (Hsame E) in Hf'.
        pose proof (lookup_agree _ _ _ _ Hf' Ho) as X. discriminate X.
      * destruct (Hact E) as (_ & [Hgone|(c' & Hc' & _)]).
        -- pose proof (lookup_agree _ _ _ _ Hf' Hgone) as X. discriminate X.
        -- pose proof (lookup_agree _ _ _ _ Hf' Hc') as X. discriminate X.
    + rewrite (up_heap _ _ _ _ Hup q Hq) in Hf' by lia.
      apply (si_no_new_food _ _ _ _ Hinv q f' Hf').
  - intros c q cell Hc Hq Hcell Htag.
    apply elem_of_app in Hc as [Hc|Hc].
    { apply Hmono. eapply si_acted; eauto. }
    apply list_elem_of_singleton in Hc as ->.
    destruct (si_waiting _ _ _ _ Hinv pos q cell Hin Hnew Hq Hcell)
      as [Hq' Hcell'].
    rewrite <- Hslot in Hq'.
    destruct (up_cell _ _ _ _ Hup q cell Hq' Hcell') as [_ Hact].
    destruct (Hact Htag) as [-> _].
    apply elem_of_app. right. apply list_elem_of_singleton. reflexivity.
  - intros c q cell Hc Hnot Hq Hcell.
    assert (Hcd : c ∉ d) by (intros E; apply Hnot, elem_of_app; auto).
    assert (Hcp : c <> pos)
      by (intros ->; apply Hnot, elem_of_app; right;
          apply list_elem_of_singleton; reflexivity).
    destruct (si_waiting _ _ _ _ Hinv c q cell Hc Hcd Hq Hcell)
      as [Hq' Hcell'].
    assert (Hother : entities (world s) !! slot_of s pos <> Some (Some q)).
    { intros E. apply Hcp. apply (slot_of_inj s0); [exact Hc | exact Hin|].
      rewrite <- Hslot.
      apply (wf_once _ _ _ _ _ _ Hwf _ _ q Hq' E). }
    split.
    + apply (up_cells _ _ _ _ Hup q cell _ Hother Hcell'). exact Hq'.
    + eapply eq_trans; [|exact Hcell'].
      apply (up_heap _ _ _ _ Hup q Hother). eapply lookup_lt_Some; eauto.
Qed.

Lemma for_each_fine {A} (I : list A -> State -> Prop) (body : A -> M unit) l :
  (forall d a r s, l = d ++ a :: r -> I d s ->
     fine (body a s) (fun _ s' => I (d ++ [a]) s')) ->
  forall s, I [] s -> fine (for_each l body s) (fun _ s' => I l s').
Proof.
  intros Hbody.
  assert (Hgen : forall r d s, l = d ++ r -> I d s ->
            fine (for_each r body s) (fun _ s' => I l s')).
  { induction r as [|a r IH]; intros d s Hl HI; cbn [for_each].
    - rewrite app_nil_r in Hl. subst d. exact HI.
    - eapply fine_bind; [apply (Hbody d a r s Hl HI)|].
      cbv beta. intros _ s1 HI1. apply (IH (d ++ [a])); [|exact HI1].
      rewrite <- app_assoc. exact Hl. }
  intros s HI. apply (Hgen l [] s); [reflexivity | exact HI].
Qed.

Lemma scan_row_elem w row c : c ∈ scan_row w row -> y c = row.
Proof.
  unfold scan_row. intros (col & -> & _)%list_elem_of_fmap. reflexivity.
Qed.

Lemma update_world_scan T fuel s :
  well_formed s ->
  fine (update_world fuel T s)
       (fun _ s' => scan_inv T s (scan_order (world s)) s').
Proof.
  intros Hwf. unfold update_world. fworld.
  apply (for_each_fine
           (fun rows s' => scan_inv T s (flat_map (scan_row (world s)) rows) s')).
  2: { apply scan_inv_init, Hwf. }
  intros rows row rrest sa Hrows Hinv. cbv beta.
  rewrite flat_map_app. cbn [flat_map]. rewrite app_nil_r.
  assert (Hrow : 0 <= row < height (world s)).
  { assert (row ∈ seqZ 0 (height (world s)))
      by (rewrite Hrows; apply elem_of_app; right; apply elem_of_cons; auto).
    apply elem_of_seqZ in H. lia. }
  assert (Hrownew : row ∉ rows).
  { pose proof (NoDup_seqZ 0 (height (world s))) as Hnd.
    rewrite Hrows in Hnd. apply NoDup_app in Hnd as (_ & Hnd & _).
    intros E. apply (Hnd row E). apply elem_of_cons. auto. }
  unfold scan_row at 2.
  eapply fine_mono.
  { apply (for_each_fine
             (fun cols s' =>
                scan_inv T s
                  (flat_map (scan_row (world s)) rows
                   ++ map (fun col => {| x := col; y := row |}) cols) s')).
    2: { cbn [map]. rewrite app_nil_r. exact Hinv. }
    intros cols col crest sb Hcols Hinvb. cbv beta.
    assert (Hcol : 0 <= col < width (world s)).
    { assert (col ∈ seqZ 0 (width (world s)))
        by (rewrite Hcols; apply elem_of_app; right; apply elem_of_cons; auto).
      apply elem_of_seqZ in H. lia. }
    assert (Hcolnew : col ∉ cols).
    { pose proof (NoDup_seqZ 0 (width (world s))) as Hnd.
      rewrite Hcols in Hnd. apply NoDup_app in Hnd as (_ & Hnd & _).
      intros E. apply (Hnd col E). apply elem_of_cons. auto. }
    assert (Hin : coord_in_bounds {| x := col; y := row |} (world s) = true)
      by (apply coord_in_bounds_spec; cbn; lia).
    rewrite map_app, app_assoc. cbn [map].
    eapply fine_mono.
    { apply (entity_update_fine T fuel _ sb (si_wf _ _ _ _ Hinvb)).
      rewrite (coord_in_bounds_dims _ (world s));
        [exact Hin | apply Hinvb | apply Hinvb]. }
    cbv beta. intros _ sc Hup.
    apply (scan_inv_step T s _ _ sb sc Hinvb Hin); [|exact Hup].
    intros E. apply elem_of_app in E as [E|E].
    - apply list_elem_of_In, in_flat_map in E as (r0 & Hr0 & E).
      apply list_elem_of_In, scan_row_elem in E. cbn in E. subst r0.
      apply Hrownew, list_elem_of_In, Hr0.
    - apply list_elem_of_fmap in E as (c0 & [= <-] & E). exact (Hcolnew E). }
  cbv beta. intros _ sb Hb. exact Hb.
Qed.

(** X10.  From a well-formed world [update_world] fails no assertion,
    does not call [abort] and does nothing undefined (no null or dangling
    pointer is followed, no array is left): a run that does not return is
    one in which the search of [find_nearby_empty] has not ended within the
    fuel it was given. *)
Theorem update_world_safe T fuel s f :
  well_formed s ->
  update_world fuel T s = Err f ->
  f = OutOfFuel.
Proof.
  intros Hwf Herr.
  exact (fine_Err _ _ _ (update_world_scan T fuel s Hwf) Herr).
Qed.

(** X11.  [update_world] keeps a world well-formed: the board keeps its
    dimensions and its anchors stay on it; every occupied slot points to a
    live entity and no two slots to the same one; every live entity is in
    a slot, so nothing is leaked; every cell has a state and [next_state]s
    that index its 16 genes, and a score above 0 and below the mitosis
    threshold; every Food belongs to one of the 30 clumps. *)
Theorem update_world_well_formed T fuel s s' :
  well_formed s ->
  update_world fuel T s = Ok tt s' ->
  well_formed s' /\
  width (world s') = width (world s) /\
  height (world s') = height (world s).
Proof.
  intros Hwf Hrun.
  pose proof (fine_Ok _ _ _ _ (update_world_scan T fuel s Hwf) Hrun) as Hinv.
  split; [apply Hinv | split; apply Hinv].
Qed.

(** X12.  A pass neither destroys nor creates Food: every Food of the
    world is, after [update_world], still alive, in its clump and in a
    slot of the board, and every Food there is after the pass was there
    before it. *)
Theorem update_world_keeps_food T fuel s s' :
  well_formed s ->
  update_world fuel T s = Ok tt s' ->
  (forall q f, heap s !! q = Some (Some (ObjFood f)) ->
     exists f' j,
       heap s' !! q = Some (Some (ObjFood f')) /\
       clump f' = clump f /\
       entities (world s') !! j = Some (Some q)) /\
  (forall q f', heap s' !! q = Some (Some (ObjFood f')) ->
     exists f j,
       heap s !! q = Some (Some (ObjFood f)) /\
       entities (world s) !! j = Some (Some q)).
Proof.
  intros Hwf Hrun.
  pose proof (fine_Ok _ _ _ _ (update_world_scan T fuel s Hwf) Hrun) as Hinv.
  split.
  - intros q f Hf.
    destruct (si_foods _ _ _ _ Hinv q f Hf) as (f' & Hf' & Hclump).
    destruct (wf_owned _ _ _ _ _ _ (si_wf _ _ _ _ Hinv) q _ Hf') as [j Hj].
    exists f', j. auto.
  - intros q f' Hf'.
    destruct (si_no_new_food _ _ _ _ Hinv q f' Hf') as (f & Hf).
    destruct (wf_owned _ _ _ _ _ _ Hwf q _ Hf) as [j Hj].
    exists f, j. auto.
Qed.

(** X13.  In a pass with tag [T] over a well-formed world, every cell of
    the board that does not carry the tag [T] acts, and no entity acts
    twice: whatever the cells scanned before it do, a cell is still in its
    slot, untouched, when the scan reaches it. *)
Theorem update_world_every_cell_acts T fuel s s' :
  well_formed s ->
  events s = [] ->
  update_world fuel T s = Ok tt s' ->
  (forall c q cell,
     coord_in_bounds c (world s) = true ->
     entities (world s) !! slot_of s c = Some (Some q) ->
     heap s !! q = Some (Some (ObjCell cell)) ->
     last_update_color (cell_entity cell) <> T ->
     q ∈ actors (events s')) /\
  NoDup (actors (events s')).
Proof.
  intros Hwf Hev Hrun.
  pose proof (fine_Ok _ _ _ _ (update_world_scan T fuel s Hwf) Hrun) as Hinv.
  split.
  - intros c q cell Hc Hq Hcell Htag.
    apply (si_acted _ _ _ _ Hinv c q cell); auto.
    apply elem_of_scan_order, Hc.
  - apply (pi_nodup _ _ _ _ (update_world_inv T fuel s tt s' Hev Hrun)).
Qed.

(** * Building the world *)

Lemma seqZ_split n d a r :
  seqZ 0 n = d ++ a :: r -> a = Z.of_nat (length d) /\ 0 <= a < n.
Proof.
  intros Hl.
  assert (Hlook : seqZ 0 n !! length d = Some a).
  { rewrite Hl. rewrite lookup_app_r by lia.
    rewrite Nat.sub_diag. reflexivity. }
  apply lookup_seqZ in Hlook. lia.
Qed.

Lemma insert_last {A} (l : list A) v w :
  <[length l := v]> (l ++ [w]) = l ++ [v].
Proof.
  rewrite insert_app_r_alt by lia. rewrite Nat.sub_diag. reflexivity.
Qed.

(** An empty board and an empty heap. *)
Lemma wf_parts_empty (P : addr -> Object -> Prop) W H hp :
  0 < W -> 0 < H -> W * H <= INT_MAX ->
  (forall p o, hp !! p = Some (Some o) -> False) ->
  wf_parts P W H
    (replicate (Z.to_nat CLUMP_COUNT) {| coord := {| x := 0; y := 0 |} |})
    (replicate (Z.to_nat (W * H)) None) hp.
Proof.
  intros HW HH Harea Hempty. constructor.
  - exact HW.
  - exact HH.
  - exact Harea.
  - apply length_replicate.
  - apply length_replicate.
  - intros c [-> _]%elem_of_replicate. cbn. lia.
  - intros j p [E _]%lookup_replicate. discriminate E.
  - intros j1 j2 p [E _]%lookup_replicate. discriminate E.
  - intros p o Ho. destruct (Hempty p o Ho).
  - intros p o Ho. destruct (Hempty p o Ho).
Qed.

(** A slot that is empty is written with the null pointer. *)
Lemma slot_set_none i s :
  entities (world s) !! i = Some None ->
  entities (world (slot_set i None s)) = entities (world s).
Proof. intros Hi. cbn. apply list_insert_id. exact Hi. Qed.

Lemma filling_weaken W H s0 i j s :
  (i <= j)%nat -> filling W H s0 i s -> filling W H s0 j s.
Proof. intros Hij []. constructor; auto. intros k Hk. apply fl_rest0. lia. Qed.

Lemma fresh_cell_valid q ch :
  cell_entity ch = {| type := ENTITY_TYPE_CELL; last_update_color := -1 |} ->
  state ch = 0 -> score ch = CELL_START_SCORE ->
  valid_chromosome (chromosome ch) -> 0 <= color ch < 2 ^ 24 ->
  new_valid q (ObjCell ch).
Proof.
  intros Hent Hst Hsc Hchr Hcol. split.
  - split; [|rewrite Hsc; unfold CELL_START_SCORE, CELL_MITOSIS_THRESHOLD; lia].
    unfold valid_cell_shape. rewrite Hent, Hst. unfold GENE_COUNT.
    split_and!; auto; lia.
  - cbn. rewrite Hent. auto.
Qed.

(** One iteration of the first loop of [world_new]. *)
Lemma world_new_slot_fine W H s0 i s :
  filling W H s0 i s ->
  (i < length (entities (world s)))%nat ->
  fine ((entity ← (if Z.rem (Z.of_nat i) CELL_SCARCITY =? 0
                   then p ← cell_new None; mret (Some p)
                   else mret None);
         write_slot (Z.of_nat i) entity) s)
       (fun _ s' => filling W H s0 (S i) s').
Proof.
  intros Hfill Hi. pose proof Hfill as [Hwf HW HH Hsp Hrb Hev Hrest].
  pose proof (Hrest i ltac:(lia)) as Hnone.
  destruct (Z.rem (Z.of_nat i) CELL_SCARCITY =? 0).
  - rewrite bind_bind.
    destruct (cell_new_orphan_run s)
      as (ch & n & Hrun & Hn & Hent & Hst & Hsc & Hchr & Hcol).
    fstep Hrun.
    eapply (fine_run (mret _) _ _ _ _ _ eq_refl). cbv beta.
    set (s1 := heap_push (ObjCell ch)
                 (set_facing_static (facing_static s + 1) (set_drawn n s))).
    assert (Hi1 : (Z.to_nat (Z.of_nat i) < length (entities (world s1)))%nat)
      by (rewrite Nat2Z.id; exact Hi).
    rewrite (write_slot_run (Z.of_nat i) _ s1 ltac:(lia) Hi1). cbn [fine].
    rewrite Nat2Z.id.
    constructor; auto.
    + unfold wf_state. cbn.
      apply wf_parts_birth; [exact Hnone | | exact Hwf].
      apply fresh_cell_valid; assumption.
    + intros j Hj. cbn in Hj |- *. rewrite length_insert in Hj.
      rewrite list_lookup_insert_ne by lia. apply Hrest. lia.
  - eapply (fine_run (mret _) _ _ _ _ _ eq_refl). cbv beta.
    assert (Hi1 : (Z.to_nat (Z.of_nat i) < length (entities (world s)))%nat)
      by (rewrite Nat2Z.id; exact Hi).
    rewrite (write_slot_run (Z.of_nat i) _ s ltac:(lia) Hi1). cbn [fine].
    rewrite Nat2Z.id.
    pose proof (slot_set_none i s Hnone) as Hsame.
    constructor; auto.
    + unfold wf_state. rewrite Hsame. exact Hwf.
    + intros j Hj. rewrite Hsame in Hj |- *. apply Hrest. lia.
Qed.

(** The loop that places the anchors. *)
Lemma world_new_clumps_fine P W H s :
  wf_state P s ->
  W = width (world s) -> H = height (world s) ->
  fine (for_each (seqZ 0 CLUMP_COUNT) (fun i =>
          cx ← random_int 0 W;
          cy ← random_int 0 H;
          write_clump i {| x := cx; y := cy |}) s)
       (fun _ s' => drift s s').
Proof.
  intros Hwf -> ->. destruct (wf_state_dims P s Hwf) as [HW HH].
  apply (for_each_fine (fun _ s' => drift s s')); [|apply drift_refl].
  intros d i r s1 Hl Hd. cbv beta.
  apply seqZ_split in Hl as [_ Hi].
  pose proof (wf_state_drift _ _ _ Hd Hwf) as Hwf1.
  fbind (random_int_board P s1 s (width (world s)) Hwf HW).
  intros cx s2 [-> Hcx].
  fbind (random_int_board P (set_drawn (S (drawn s1)) s1) s
           (height (world s)) Hwf HH).
  intros cy s3 [-> Hcy].
  set (s3 := set_drawn _ _).
  assert (Hd3 : drift s s3).
  { eapply drift_trans; [exact Hd|].
    eapply drift_trans; apply drift_set_drawn; cbn; lia. }
  pose proof (wf_state_drift _ _ _ Hd3 Hwf) as Hwf3.
  rewrite (write_clump_run P i _ s3 Hwf3 Hi). cbn [fine].
  eapply drift_trans; [exact Hd3|].
  apply drift_clump_set; cbn;
    [rewrite (dr_width _ _ Hd) | rewrite (dr_height _ _ Hd)]; assumption.
Qed.

Lemma read_clump_same_world i s s2 a :
  world s2 = world s -> read_clump i s = Ok a s -> read_clump i s2 = Ok a s2.
Proof.
  unfold read_clump. intros ->. destruct (i <? 0); [discriminate|].
  destruct (clumps (world s) !! Z.to_nat i); [|discriminate].
  intros [= <-]. reflexivity.
Qed.

Lemma ancestor_at_drift ai s s' : drift s s' -> ancestor_at ai s -> ancestor_at ai s'.
Proof.
  intros Hd (p & c & H1 & H2 & H3 & H4). exists p, c.
  rewrite (dr_entities _ _ Hd), (dr_heap _ _ Hd). auto.
Qed.

(** One iteration of the loop that places the Foods. *)
Lemma world_new_food_fine fuel W H s0 ai i s :
  placing W H s0 ai s -> 0 <= i ->
  fine (world_new_food fuel i s) (fun _ s' => placing W H s0 ai s').
Proof.
  intros Hpl Hi. pose proof Hpl as [Hwf HW HH Hsp Hrb Hev Hanc].
  assert (Hclump : 0 <= Z.rem i CLUMP_COUNT < CLUMP_COUNT)
    by (apply Z.rem_bound_pos; unfold CLUMP_COUNT; lia).
  unfold world_new_food, food_new. cbv zeta.
  eapply (fine_run (malloc _) _ _ _ _ _ eq_refl). cbv beta.
  set (f0 := {| food_entity := {| type := ENTITY_TYPE_FOOD;
                                  last_update_color := 0 |};
                clump := -1 |}).
  set (s1 := heap_push (ObjFood f0) s).
  assert (Hf0 : heap s1 !! length (heap s) = Some (Some (ObjFood f0)))
    by apply lookup_heap_new.
  fstep (load_food_run _ _ _ Hf0).
  fstep (store_run _ _ (ObjFood {| food_entity := food_entity f0;
                                   clump := Z.rem i CLUMP_COUNT |}) _ Hf0).
  set (f1 := {| food_entity := food_entity f0; clump := Z.rem i CLUMP_COUNT |}).
  set (s2 := heap_set (length (heap s)) (Some (ObjFood f1)) s1).
  destruct (read_clump_run _ _ s Hwf Hclump) as (a & Ha & Hax & Hay).
  fstep (read_clump_same_world _ s s2 a eq_refl Ha).
  assert (Hlen2 : length (entities (world s2))
                  = Z.to_nat (width (world s2) * height (world s2)))
    by apply (wf_slots _ _ _ _ _ _ Hwf).
  assert (Hain : coord_in_bounds a (world s2) = true)
    by (apply coord_in_bounds_spec; auto).
  fbind (find_nearby_empty_fine fuel a s2 Hlen2 Hain).
  intros c s3 ((n & Hn & ->) & Hc & Hnone). fworld.
  rewrite (world_get_entity_ref_run (world (set_drawn n s2)) c Hc).
  destruct (slot_lookup c s2 Hlen2 Hc) as (H0 & _).
  pose proof (lookup_lt_Some _ _ _ Hnone) as Hlt.
  eapply fine_of_run;
    [exact (write_slot_run _ (Some (length (heap s))) (set_drawn n s2) H0 Hlt)|].
  constructor; auto.
  - unfold wf_state. cbn. rewrite insert_last.
    apply wf_parts_birth; [exact Hnone | | exact Hwf].
    split; [split; [reflexivity | exact Hclump] | reflexivity].
  - destruct Hanc as (p & c0 & H1 & H2 & H3 & H4). exists p, c0.
    split_and!; auto.
    + cbn. rewrite list_lookup_insert_ne; [exact H1|].
      apply (slot_diff _ _ _ _ _ Hnone H1). done.
    + cbn. rewrite insert_last. apply lookup_app_l_Some. exact H2.
Qed.

Lemma ancestor_index_range W H :
  0 < W -> 0 < H -> 0 <= (H / 2) * W + W / 2 < W * H.
Proof.
  intros HW HH.
  assert (0 <= H / 2 < H) by (split; [apply Z.div_pos | apply Z.div_lt_upper_bound]; lia).
  assert (0 <= W / 2 < W) by (split; [apply Z.div_pos | apply Z.div_lt_upper_bound]; lia).
  nia.
Qed.

(** The ancestor replaces whatever the centre slot holds. *)
Lemma world_new_ancestor_fine {B} W H s0 i s (k : M B) Q :
  filling W H s0 i s ->
  (forall s', placing W H s0 (Z.to_nat ((H / 2) * W + W / 2)) s' ->
     fine (k s') Q) ->
  fine ((old ← read_slot ((H / 2) * W + W / 2);
         free old;;
         ai_cell ← cell_new None;
         update_cell ai_cell (set_chromosome chromosome_big_square);;
         update_cell ai_cell (set_facing FACING_NORTH);;
         write_slot ((H / 2) * W + W / 2) (Some ai_cell);;
         k) s) Q.
Proof.
  intros Hfill Hk. pose proof Hfill as [Hwf HW HH Hsp Hrb Hev _].
  destruct (wf_state_dims _ _ Hwf) as [[HW0 _] [HH0 _]].
  rewrite HW in HW0. rewrite HH in HH0.
  pose proof (ancestor_index_range W H HW0 HH0) as Hai.
  set (ai := (H / 2) * W + W / 2) in *.
  pose proof (wf_slots _ _ _ _ _ _ Hwf) as Hlen. rewrite HW, HH in Hlen.
  destruct (lookup_lt_is_Some_2 (entities (world s)) (Z.to_nat ai)) as [v Hv].
  { rewrite Hlen. lia. }
  pose proof (lookup_lt_Some _ _ _ Hv) as Hlt.
  fstep (read_slot_run ai v s (proj1 Hai) Hv).
  assert (Hfree : exists s3,
            free v s = Ok tt s3 /\ world s3 = world s /\
            food_spawn s3 = food_spawn s /\ food_rebirth s3 = food_rebirth s /\
            events s3 = events s /\
            wf_parts new_valid W H (clumps (world s))
              (<[Z.to_nat ai := None]> (entities (world s))) (heap s3)).
  { destruct v as [p|].
    - destruct (wf_live _ _ _ _ _ _ Hwf _ _ Hv) as [o Ho].
      exists (heap_set p None s). split; [apply (free_run _ _ _ Ho)|].
      split_and!; auto. cbn. rewrite <- HW, <- HH.
      eapply wf_parts_death; [exact Hv | | exact Hwf]. auto.
    - exists s. split; [reflexivity|]. split_and!; auto.
      rewrite list_insert_id by exact Hv. rewrite <- HW, <- HH. exact Hwf. }
  destruct Hfree as (s3 & Hfree & Hw3 & Hsp3 & Hrb3 & Hev3 & Hwf3).
  fstep Hfree.
  destruct (cell_new_orphan_run s3)
    as (ch & n & Hrun & Hn & Hent & Hst & Hsc & Hchr & Hcol).
  fstep Hrun.
  set (s4 := heap_push (ObjCell ch)
               (set_facing_static (facing_static s3 + 1) (set_drawn n s3))).
  assert (H4 : heap s4 !! (length (heap s3)) = Some (Some (ObjCell ch)))
    by apply lookup_heap_new.
  fstep (update_cell_run (length (heap s3)) ch (set_chromosome chromosome_big_square) s4 H4).
  set (c1 := set_chromosome chromosome_big_square ch).
  set (s5 := heap_set (length (heap s3)) (Some (ObjCell c1)) s4).
  assert (H5 : heap s5 !! (length (heap s3)) = Some (Some (ObjCell c1)))
    by (cbn; rewrite insert_last; apply lookup_heap_new).
  fstep (update_cell_run (length (heap s3)) c1 (set_facing FACING_NORTH) s5 H5).
  set (c2 := set_facing FACING_NORTH c1).
  set (s6 := heap_set (length (heap s3)) (Some (ObjCell c2)) s5).
  assert (Hlt6 : (Z.to_nat ai < length (entities (world s6)))%nat)
    by (cbn; rewrite Hw3; exact Hlt).
  fstep (write_slot_run ai (Some (length (heap s3))) s6 (proj1 Hai) Hlt6).
  apply Hk.
  assert (Hheap : heap (slot_set (Z.to_nat ai) (Some (length (heap s3))) s6)
                  = heap s3 ++ [Some (ObjCell c2)])
    by (cbn; rewrite !insert_last; reflexivity).
  assert (Hents : entities (world (slot_set (Z.to_nat ai) (Some (length (heap s3))) s6))
                  = <[Z.to_nat ai := Some (length (heap s3))]>
                      (<[Z.to_nat ai := None]> (entities (world s))))
    by (cbn; rewrite Hw3; symmetry; apply list_insert_insert_eq).
  constructor.
  - unfold wf_state. rewrite Hheap, Hents. cbn. rewrite Hw3, HW, HH.
    apply wf_parts_birth; [| | exact Hwf3].
    + apply list_lookup_insert_eq. exact Hlt.
    + apply fresh_cell_valid; cbn; auto. apply chromosome_big_square_valid.
  - cbn. rewrite Hw3. exact HW.
  - cbn. rewrite Hw3. exact HH.
  - cbn. congruence.
  - cbn. congruence.
  - cbn. congruence.
  - exists (length (heap s3)), c2. rewrite Hheap, Hents. split_and!.
    + apply list_lookup_insert_eq. rewrite length_insert. exact Hlt.
    + apply lookup_heap_new.
    + reflexivity.
    + reflexivity.
Qed.

Lemma world_new_fine fuel W H s :
  0 < W -> 0 < H -> W * H <= INT_MAX ->
  (forall p o, heap s !! p = Some (Some o) -> False) ->
  fine (world_new fuel W H s) (fun _ s' => world_new_post W H s s').
Proof.
  intros HW HH Harea Hempty. unfold world_new.
  match goal with
  | |- fine ((?m ≫= ?k) s) _ =>
      rewrite (bind_run m k s tt
                 (set_world
                    {| width := W; height := H;
                       clumps := replicate (Z.to_nat CLUMP_COUNT)
                                   {| coord := {| x := 0; y := 0 |} |};
                       entities := replicate (Z.to_nat (W * H)) None |} s)
                 eq_refl)
  end.
  cbv beta.
  set (s1 := set_world
               {| width := W; height := H;
                  clumps := replicate (Z.to_nat CLUMP_COUNT)
                              {| coord := {| x := 0; y := 0 |} |};
                  entities := replicate (Z.to_nat (W * H)) None |} s).
  assert (Hfill1 : filling W H s 0 s1).
  { constructor; auto.
    - unfold wf_state. cbn. apply wf_parts_empty; assumption.
    - intros j Hj. cbn in *. rewrite length_replicate in Hj.
      apply lookup_replicate. split; [reflexivity | lia]. }
  eapply fine_bind.
  { apply (for_each_fine (fun d s' => filling W H s (length d) s'));
      [|exact Hfill1].
    intros d i r sa Hl Hfa. cbv beta.
    apply seqZ_split in Hl as [-> Hi].
    rewrite length_app. cbn [length]. rewrite Nat.add_1_r.
    apply world_new_slot_fine; [exact Hfa|].
    rewrite (wf_slots _ _ _ _ _ _ (fl_wf _ _ _ _ _ Hfa)).
    rewrite (fl_width _ _ _ _ _ Hfa), (fl_height _ _ _ _ _ Hfa). lia. }
  cbv beta. intros _ s2 Hfill2. cbv zeta.
  apply (world_new_ancestor_fine W H s _ s2 _ _ Hfill2).
  intros s7 Hpl7. pose proof Hpl7 as [Hwf7 HW7 HH7 Hsp7 Hrb7 Hev7 Hanc7].
  fbind (world_new_clumps_fine new_valid W H s7 Hwf7 (eq_sym HW7) (eq_sym HH7)).
  intros _ s8 Hd8.
  assert (Hpl8 : placing W H s (Z.to_nat ((H / 2) * W + W / 2)) s8).
  { constructor.
    - eapply wf_state_drift; eauto.
    - rewrite (dr_width _ _ Hd8). exact HW7.
    - rewrite (dr_height _ _ Hd8). exact HH7.
    - rewrite (dr_spawn _ _ Hd8). exact Hsp7.
    - rewrite (dr_rebirth _ _ Hd8). exact Hrb7.
    - rewrite (dr_events _ _ Hd8). exact Hev7.
    - eapply ancestor_at_drift; eauto. }
  eapply fine_mono.
  { apply (for_each_fine
             (fun _ s' => placing W H s (Z.to_nat ((H / 2) * W + W / 2)) s'));
      [|exact Hpl8].
    intros d i r sa Hl Hpa. cbv beta.
    apply seqZ_split in Hl as [_ Hi].
    apply world_new_food_fine; [exact Hpa | lia]. }
  cbv beta. intros _ s9 [Hwf9 HW9 HH9 Hsp9 Hrb9 Hev9 Hanc9].
  constructor; auto.
Qed.

Lemma new_valid_well_formed s : wf_state new_valid s -> well_formed s.
Proof. apply wf_parts_mono. intros p o _ [Hv _]. exact Hv. Qed.

(** X14.  [world_new (width, height)], called with positive dimensions
    whose product is an [int] and before anything else is allocated,
    fails no assertion and does nothing undefined: if it does not return,
    the search for an empty slot has run out of fuel. *)
Theorem world_new_safe fuel W H s f :
  0 < W -> 0 < H -> W * H <= INT_MAX ->
  (forall p o, heap s !! p = Some (Some o) -> False) ->
  world_new fuel W H s = Err f ->
  f = OutOfFuel.
Proof.
  intros HW HH Harea Hempty Herr.
  exact (fine_Err _ _ _ (world_new_fine fuel W H s HW HH Harea Hempty) Herr).
Qed.

(** X15.  The world [world_new] returns is well-formed and has the
    dimensions asked for. *)
Theorem world_new_well_formed fuel W H s s' :
  0 < W -> 0 < H -> W * H <= INT_MAX ->
  (forall p o, heap s !! p = Some (Some o) -> False) ->
  world_new fuel W H s = Ok tt s' ->
  well_formed s' /\ width (world s') = W /\ height (world s') = H.
Proof.
  intros HW HH Harea Hempty Hrun.
  pose proof (fine_Ok _ _ _ _ (world_new_fine fuel W H s HW HH Harea Hempty)
                Hrun) as [Hwf Hw Hh _ _ _ _].
  split; [apply new_valid_well_formed, Hwf | auto].
Qed.

(** X16.  In the world [world_new] returns every cell is in state 0, has
    the starting score and carries the tag -1, and every Food carries the
    tag 0: none of them has the tag 1 of the first tick.  The slot in the
    centre holds the ancestor, a cell with the seed chromosome that faces
    north. *)
Theorem world_new_fresh fuel W H s s' :
  0 < W -> 0 < H -> W * H <= INT_MAX ->
  (forall p o, heap s !! p = Some (Some o) -> False) ->
  world_new fuel W H s = Ok tt s' ->
  (forall q c, heap s' !! q = Some (Some (ObjCell c)) ->
     last_update_color (cell_entity c) = -1 /\ state c = 0 /\
     score c = CELL_START_SCORE) /\
  (forall q f, heap s' !! q = Some (Some (ObjFood f)) ->
     last_update_color (food_entity f) = 0) /\
  ancestor_at (Z.to_nat ((H / 2) * W + W / 2)) s'.
Proof.
  intros HW HH Harea Hempty Hrun.
  pose proof (fine_Ok _ _ _ _ (world_new_fine fuel W H s HW HH Harea Hempty)
                Hrun) as [Hwf _ _ _ _ _ Hanc].
  split_and!.
  - intros q c Hc. apply (wf_valid _ _ _ _ _ _ Hwf q _ Hc).
  - intros q f Hf. apply (wf_valid _ _ _ _ _ _ Hwf q _ Hf).
  - exact Hanc.
Qed.

(** X17.  On a board without slots, [world_new] reads the centre slot
    [entities[ai_index]] outside the array it has allocated. *)
Theorem world_new_empty_board fuel W H s :
  0 <= W -> 0 <= H -> W * H = 0 ->
  world_new fuel W H s = Err Undefined.
Proof.
  intros HW HH Harea. unfold world_new. rewrite Harea.
  unfold mbind, M_bind. cbn [seqZ for_each].
  change (seqZ 0 0) with (@nil Z). cbn [for_each mret M_ret].
  unfold read_slot. cbn [world set_world entities replicate Z.to_nat].
  destruct ((H / 2 * W + W / 2) <? 0); reflexivity.
Qed.

(** * The frames of [main] *)

(** ** Drawing *)

Lemma draw_slot_run fc nc cx cy s :
  well_formed s ->
  coord_in_bounds {| x := cx; y := cy |} (world s) = true ->
  draw_slot fc nc cx cy s = Ok (fill_of fc nc s {| x := cx; y := cy |}) s.
Proof.
  intros Hwf Hin. unfold draw_slot, fill_of, slot_color, slot_of.
  destruct (slot_lookup _ s (wf_slots _ _ _ _ _ _ Hwf) Hin) as (H0 & v & Hv).
  cbn [x y] in *.
  rewrite (bind_run get_world _ s _ _ eq_refl). cbv beta.
  rewrite (bind_run _ _ _ _ _ (read_slot_run _ _ _ H0 Hv)). cbv beta.
  rewrite Hv. destruct v as [p|]; [|reflexivity].
  destruct (wf_live _ _ _ _ _ _ Hwf _ _ Hv) as [o Ho].
  rewrite bind_bind, (bind_run _ _ _ _ _ (load_run _ _ _ Ho)). cbv beta.
  rewrite Ho.
  pose proof (wf_valid _ _ _ _ _ _ Hwf _ _ Ho) as Hvalid.
  destruct o as [c|f]; cbn [entity_of].
  - destruct Hvalid as [[Hty _] _]. rewrite Hty.
    rewrite bind_bind, (bind_run _ _ _ _ _ (load_cell_run _ _ _ Ho)).
    reflexivity.
  - destruct Hvalid as [Hty _]. rewrite Hty. reflexivity.
Qed.

Lemma for_collect_run {A B} (f : A -> B) (body : A -> M B) l s :
  (forall a, a ∈ l -> body a s = Ok (f a) s) ->
  for_collect l body s = Ok (map f l) s.
Proof.
  induction l as [|a l IH]; intros Hbody; [reflexivity|].
  cbn [for_collect map].
  rewrite (bind_run _ _ _ _ _ (Hbody a ltac:(apply elem_of_cons; auto))).
  cbv beta. rewrite (bind_run _ _ _ _ _ (IH ltac:(intros b Hb; apply Hbody,
                                                    elem_of_cons; auto))).
  reflexivity.
Qed.

Lemma draw_screen_run fc nc s :
  well_formed s ->
  draw_screen fc nc s = Ok (map (fill_of fc nc s) (scan_order (world s))) s.
Proof.
  intros Hwf. unfold draw_screen.
  rewrite (bind_run get_world _ s _ _ eq_refl). cbv beta.
  assert (Hrows :
            for_collect (seqZ 0 (height (world s)))
              (fun cy => for_collect (seqZ 0 (width (world s)))
                           (fun cx => draw_slot fc nc cx cy)) s
            = Ok (map (fun cy => map (fill_of fc nc s) (scan_row (world s) cy))
                    (seqZ 0 (height (world s)))) s).
  { apply for_collect_run.
    intros cy Hcy. apply elem_of_seqZ in Hcy. unfold scan_row.
    rewrite map_map.
    apply (for_collect_run
             (fun cx => fill_of fc nc s {| x := cx; y := cy |})).
    intros cx Hcx. apply elem_of_seqZ in Hcx.
    apply draw_slot_run; [exact Hwf|].
    apply coord_in_bounds_spec. cbn. lia. }
  rewrite (bind_run _ _ _ _ _ Hrows).
  cbv beta. unfold mret, M_ret. f_equal. unfold scan_order.
  rewrite flat_map_concat_map, concat_map, map_map. reflexivity.
Qed.

(** X18.  On a well-formed world [draw_screen] cannot abort and changes
    nothing.  It fills one square for each slot of the board, row by row:
    the square of the slot at [(x, y)] is 8 wide and 8 high, has its
    corner at [(8 x, 8 y)] as long as this fits the 16 bits of an
    [SDL_Rect], and is painted in the colour stored in the cell it holds,
    in the Food colour, or in the background colour if it is empty. *)
Theorem draw_screen_fills fc nc s :
  well_formed s ->
  width (world s) * 8 < 2 ^ 15 -> height (world s) * 8 < 2 ^ 15 ->
  exists fills,
    draw_screen fc nc s = Ok fills s /\
    length fills = Z.to_nat (width (world s) * height (world s)) /\
    fills = map (fill_of fc nc s) (scan_order (world s)) /\
    forall c, coord_in_bounds c (world s) = true ->
      {| fill_x := 8 * x c; fill_y := 8 * y c; fill_w := 8; fill_h := 8;
         fill_color := slot_color fc nc s c |} ∈ fills.
Proof.
  intros Hwf HW HH. eexists. split; [apply draw_screen_run, Hwf|].
  split_and!.
  - rewrite length_map. unfold scan_order.
    destruct Hwf as [HW0 HH0 _ _ _ _ _ _ _ _].
    assert (Hrow : forall rows,
              length (flat_map (scan_row (world s)) rows)
              = (length rows * Z.to_nat (width (world s)))%nat).
    { induction rows as [|r rows IH]; [reflexivity|].
      cbn [flat_map]. rewrite length_app, IH. unfold scan_row.
      rewrite length_map, length_seqZ. cbn [length]. lia. }
    rewrite Hrow, length_seqZ. nia.
  - reflexivity.
  - intros c Hc. pose proof Hc as [Hx Hy]%coord_in_bounds_spec.
    apply list_elem_of_fmap. exists c. split; [|apply elem_of_scan_order, Hc].
    unfold fill_of, cell_size, to_sint16. cbv zeta.
    rewrite !Z.mod_small by lia.
    destruct (Z.ltb_spec (x c * 8) (2 ^ 15)); [|lia].
    destruct (Z.ltb_spec (y c * 8) (2 ^ 15)); [|lia].
    f_equal; lia.
Qed.

(** ** Ticks *)

Lemma lnot_flip T : lnot T <> lnot (lnot T).
Proof. unfold lnot. destruct (T =? 0); cbn; lia. Qed.

(** Every slot of the board is the slot of one of its coordinates. *)
Lemma slot_coordinate s j :
  well_formed s ->
  (j < length (entities (world s)))%nat ->
  exists c, coord_in_bounds c (world s) = true /\ j = slot_of s c.
Proof.
  intros [HW HH _ Hlen _ _ _ _ _ _] Hj. rewrite Hlen in Hj.
  set (W := width (world s)) in *. set (H := height (world s)) in *.
  exists {| x := Z.of_nat j mod W; y := Z.of_nat j / W |}.
  pose proof (Z.mod_pos_bound (Z.of_nat j) W HW) as Hx.
  pose proof (Z.div_mod (Z.of_nat j) W ltac:(lia)) as Hdm.
  assert (Hy : 0 <= Z.of_nat j / W < H).
  { split; [apply Z.div_pos; lia|]. apply Z.div_lt_upper_bound; lia. }
  split.
  - apply coord_in_bounds_spec. cbn. fold W H. lia.
  - unfold slot_of. cbn. fold W. lia.
Qed.

Lemma update_world_tagged T fuel s s' :
  well_formed s -> events s = [] ->
  update_world fuel T s = Ok tt s' ->
  forall q c, heap s' !! q = Some (Some (ObjCell c)) ->
              last_update_color (cell_entity c) = T.
Proof.
  intros Hwf Hev Hrun q c Hc.
  pose proof (fine_Ok _ _ _ _ (update_world_scan T fuel s Hwf) Hrun) as Hinv.
  pose proof (update_world_inv T fuel s tt s' Hev Hrun) as Hpass.
  pose proof (si_wf _ _ _ _ Hinv) as Hwf'.
  destruct (wf_owned _ _ _ _ _ _ Hwf' q _ Hc) as [j Hj].
  assert (Hlt : (j < length (entities (world s)))%nat).
  { apply lookup_lt_Some in Hj.
    change (j < length (entities (world s')))%nat in Hj.
    rewrite (wf_slots _ _ _ _ _ _ Hwf') in Hj.
    rewrite (wf_slots _ _ _ _ _ _ Hwf).
    rewrite (si_width _ _ _ _ Hinv), (si_height _ _ _ _ Hinv) in Hj. exact Hj. }
  destruct (slot_coordinate s j Hwf Hlt) as (co & Hin & ->).
  destruct (pi_visited _ _ _ _ Hpass (slot_of s co) q) with (o := ObjCell c)
    as [Htag|[Hty _]]; auto.
  - exists co. split; [apply elem_of_scan_order, Hin | reflexivity].
  - destruct (wf_valid _ _ _ _ _ _ Hwf' q _ Hc) as [[Hcell _] _].
    cbn in Hty. congruence.
Qed.

Lemma tick_fine fuel fc nc T s :
  synced T s ->
  fine (tick fuel fc nc T s) (fun T' s' =>
    T' = lnot T /\ synced T' s' /\
    (forall c q cell,
       coord_in_bounds c (world s) = true ->
       entities (world s) !! slot_of s c = Some (Some q) ->
       heap s !! q = Some (Some (ObjCell cell)) ->
       q ∈ actors (events s')) /\
    NoDup (actors (events s')) /\
    (forall q c, heap s' !! q = Some (Some (ObjCell c)) ->
       last_update_color (cell_entity c) = T')).
Proof.
  intros [Hwf Hstale]. unfold tick. cbv zeta.
  rewrite (bind_run _ _ _ _ _ (draw_screen_run fc nc s Hwf)). cbv beta.
  match goal with
  | |- fine ((?m ≫= ?k) s) _ =>
      rewrite (bind_run m k s tt (set_events [] s) eq_refl)
  end.
  cbv beta. set (s1 := set_events [] s).
  assert (Hwf1 : well_formed s1) by exact Hwf.
  pose proof (update_world_scan (lnot T) fuel s1 Hwf1) as Hscan.
  unfold mbind, M_bind.
  destruct (update_world fuel (lnot T) s1) as [[] s2|f] eqn:Hrun;
    [|exact Hscan].
  cbn in Hscan |- *.
  pose proof (update_world_tagged (lnot T) fuel s1 s2 Hwf1 eq_refl Hrun) as Htag.
  split_and!.
  - reflexivity.
  - split; [apply Hscan|].
    intros q c Hc. rewrite (Htag q c Hc). apply lnot_flip.
  - intros c q cell Hin Hq Hcell.
    apply (si_acted _ _ _ _ Hscan c q cell);
      [apply elem_of_scan_order, Hin | exact Hq | exact Hcell|].
    apply (Hstale q cell Hcell).
  - apply (pi_nodup _ _ _ _ (update_world_inv (lnot T) fuel s1 tt s2 eq_refl Hrun)).
  - exact Htag.
Qed.

Lemma main_loop_fine fuel fc nc polls : forall T s,
  synced T s ->
  fine (main_loop fuel fc nc polls T s) (fun _ s' => exists T', synced T' s').
Proof.
  induction polls as [|quit polls IH]; intros T s Hs; [reflexivity|].
  cbn [main_loop].
  fbind (tick_fine fuel fc nc T s Hs).
  intros T' s' (-> & Hs' & _).
  destruct quit; [cbn; eauto | apply IH, Hs'].
Qed.

Lemma main_fine fuel fc nc polls s :
  (forall p o, heap s !! p = Some (Some o) -> False) ->
  fine (main fuel fc nc polls s) (fun _ s' => exists T', synced T' s').
Proof.
  intros Hempty. unfold main.
  eapply fine_bind.
  { apply (world_new_fine fuel 80 60 s); [lia | lia | | exact Hempty].
    unfold INT_MAX. lia. }
  cbv beta. intros _ s1 [Hwf _ _ _ _ _ _].
  apply main_loop_fine. split; [apply new_valid_well_formed, Hwf|].
  intros q c Hc.
  destruct (wf_valid _ _ _ _ _ _ Hwf q _ Hc) as [_ (Htag & _)].
  rewrite Htag. cbn. lia.
Qed.

(** X19.  In the loop of [main], where the tag of a tick is the negation
    of the tag of the tick before, every cell that is on the board when a
    tick begins acts in that tick, and no entity acts twice in it; when the
    tick is over every cell alive, those born in it included, carries the
    tag [T'] of the tick, so that the world is again one in which no cell
    carries the tag of the next tick. *)
Theorem tick_every_cell_acts fuel fc nc T s T' s' :
  synced T s ->
  tick fuel fc nc T s = Ok T' s' ->
  T' = lnot T /\
  synced T' s' /\
  (forall c q cell,
     coord_in_bounds c (world s) = true ->
     entities (world s) !! slot_of s c = Some (Some q) ->
     heap s !! q = Some (Some (ObjCell cell)) ->
     q ∈ actors (events s')) /\
  NoDup (actors (events s')) /\
  (forall q c, heap s' !! q = Some (Some (ObjCell c)) ->
     last_update_color (cell_entity c) = T').
Proof.
  intros Hs Hrun. exact (fine_Ok _ _ _ _ (tick_fine fuel fc nc T s Hs) Hrun).
Qed.

(** X20.  [main], whatever the seed and however many frames it runs,
    fails no assertion, does not abort and does nothing undefined; if the
    user quits, it ends with a well-formed world. *)
Theorem main_safe fuel fc nc polls s :
  (forall p o, heap s !! p = Some (Some o) -> False) ->
  (forall f, main fuel fc nc polls s = Err f -> f = OutOfFuel) /\
  (forall s', main fuel fc nc polls s = Ok tt s' -> well_formed s').
Proof.
  intros Hempty. pose proof (main_fine fuel fc nc polls s Hempty) as Hfine.
  split.
  - intros f Herr. exact (fine_Err _ _ _ Hfine Herr).
  - intros s' Hrun. destruct (fine_Ok _ _ _ _ Hfine Hrun) as (T' & Hwf & _).
    exact Hwf.
Qed.

(** * More on the parts *)

(** X21.  On a board whose array has [width * height] entries,
    [find_nearby_empty] started outside the board fails its assertion;
    started on the board it can only return a coordinate of the board whose
    slot is empty, having changed nothing but the number of draws made, or
    go on searching until the fuel is used up. *)
Theorem find_nearby_empty_finds fuel c s :
  length (entities (world s))
    = Z.to_nat (width (world s) * height (world s)) ->
  (coord_in_bounds c (world s) = false ->
   find_nearby_empty fuel c s = Err (AssertFailed 258)) /\
  (coord_in_bounds c (world s) = true ->
   (forall f, find_nearby_empty fuel c s = Err f -> f = OutOfFuel) /\
   (forall v s', find_nearby_empty fuel c s = Ok v s' ->
      coord_in_bounds v (world s) = true /\
      entities (world s) !! slot_of s v = Some None /\
      exists n, (drawn s <= n)%nat /\ s' = set_drawn n s)).
Proof.
  intros Hlen. split.
  - intros Hout. unfold find_nearby_empty.
    rewrite (bind_run get_world _ s _ _ eq_refl). cbv beta.
    rewrite Hout. reflexivity.
  - intros Hin. pose proof (find_nearby_empty_fine fuel c s Hlen Hin) as Hfine.
    split.
    + intros f Herr. exact (fine_Err _ _ _ Hfine Herr).
    + intros v s' Hrun.
      destruct (fine_Ok _ _ _ _ Hfine Hrun) as (Hn & Hv & Hnone). auto.
Qed.

(** X22.  As long as the counter of [facing_random] has not reached
    [INT_MAX], so that its increment does not overflow, [cell_new (NULL)]
    returns, with a cell at an address that was not in use: its tag is -1,
    its state 0, its score the starting score; the value of its facing is
    the incremented counter modulo 4, so that successive calls go round
    the four facings; its chromosome is what [chromosome_mutate] makes of
    the seed chromosome in the state of the call, a valid chromosome,
    after between 128 and 256 draws; and its colour is the fingerprint of
    that chromosome. *)
Theorem cell_new_orphan s :
  0 <= facing_static s < INT_MAX ->
  exists ch n,
    cell_new None s
      = Ok (length (heap s))
           (heap_push (ObjCell ch)
              (set_facing_static (facing_static s + 1) (set_drawn n s))) /\
    (drawn s + 128 <= n <= drawn s + 256)%nat /\
    cell_entity ch = {| type := ENTITY_TYPE_CELL; last_update_color := -1 |} /\
    state ch = 0 /\ score ch = CELL_START_SCORE /\
    facing_value (facing ch) = (facing_static s + 1) mod 4 /\
    valid_chromosome (chromosome ch) /\
    chromosome_mutate chromosome_big_square s
      = Ok (chromosome ch) (set_drawn n s) /\
    cell_get_color ch = Some (color ch).
Proof.
  intros Hcount. unfold cell_new.
  destruct (chromosome_mutate_run chromosome_big_square s
              chromosome_big_square_valid) as (chr & n & Hmut & Hchr & Hn).
  rewrite bind_bind, (bind_run _ _ _ _ _ Hmut). cbv beta.
  rewrite bind_bind, (bind_run facing_random _ _ _ _ eq_refl). cbv beta.
  rewrite (bind_run (mret _) _ _ _ _ eq_refl). cbv beta.
  match goal with
  | |- context [cell_get_color ?c] =>
      destruct (cell_get_color_run c Hchr) as (col & Hcol & Hrange);
      rewrite Hcol
  end.
  cbn [cell_entity state score chromosome facing].
  eexists {| cell_entity := _; state := _; score := _; chromosome := chr;
             facing := _; color := col |}, n.
  split; [reflexivity|]. cbn [cell_entity state score chromosome facing color].
  split; [lia|]. split; [reflexivity|]. split; [reflexivity|].
  split; [reflexivity|]. split.
  { change (facing_static (set_drawn n s)) with (facing_static s).
    change FACING_MAX with 4. rewrite Z.rem_mod_nonneg by lia.
    apply facing_value_of_value. apply Z.mod_pos_bound. lia. }
  split; [exact Hchr|]. split; [exact Hmut|].
  rewrite <- Hcol. apply cell_get_color_chromosome. reflexivity.
Qed.

(** X23.  The update of a slot leaves the other cells alone: a cell that
    is not the entity of the slot has, after [entity_update], the fields it
    had and is in the slot it was in.  No cell is moved, altered or
    destroyed by what another cell does. *)
Theorem entity_update_spares_others T fuel pos s s' q c :
  well_formed s ->
  coord_in_bounds pos (world s) = true ->
  entity_update fuel pos T s = Ok tt s' ->
  entities (world s) !! slot_of s pos <> Some (Some q) ->
  heap s !! q = Some (Some (ObjCell c)) ->
  heap s' !! q = Some (Some (ObjCell c)) /\
  forall j, entities (world s') !! j = Some (Some q) <->
            entities (world s) !! j = Some (Some q).
Proof.
  intros Hwf Hin Hrun Hq Hc.
  pose proof (fine_Ok _ _ _ _ (entity_update_fine T fuel pos s Hwf Hin) Hrun)
    as Hup.
  split.
  - eapply eq_trans; [|exact Hc].
    apply (up_heap _ _ _ _ Hup q Hq). eapply lookup_lt_Some; eauto.
  - intros j. apply (up_cells _ _ _ _ Hup q c j Hq Hc).
Qed.

(** ** A pass that finds every cell tagged *)

Lemma idle_pass_refl s : well_formed s -> idle_pass s s.
Proof. intros Hwf. constructor; auto; first [tauto | eauto]. Qed.

Lemma idle_pass_trans s1 s2 s3 :
  idle_pass s1 s2 -> idle_pass s2 s3 -> idle_pass s1 s3.
Proof.
  intros [] []. constructor; try congruence; auto.
  - intros q c. rewrite ip_cells1. apply ip_cells0.
  - intros q f Hf. destruct (ip_foods0 q f Hf) as (f1 & Hf1 & Hc1).
    destruct (ip_foods1 q f1 Hf1) as (f2 & Hf2 & Hc2).
    exists f2. split; [exact Hf2 | congruence].
Qed.

Lemma entity_update_idle T fuel pos s :
  well_formed s ->
  coord_in_bounds pos (world s) = true ->
  (forall q c, heap s !! q = Some (Some (ObjCell c)) ->
     last_update_color (cell_entity c) = T) ->
  exists s', entity_update fuel pos T s = Ok tt s' /\ idle_pass s s'.
Proof.
  intros Hwf Hin Htagged. unfold entity_update.
  destruct (slot_lookup pos s (wf_slots _ _ _ _ _ _ Hwf) Hin) as (H0 & v & Hv).
  rewrite (bind_run get_world _ s _ _ eq_refl). cbv beta zeta.
  rewrite (bind_run _ _ _ _ _ (read_slot_run _ _ _ H0 Hv)). cbv beta.
  destruct v as [p|]; [|exists s; split; [reflexivity | apply idle_pass_refl, Hwf]].
  destruct (wf_live _ _ _ _ _ _ Hwf _ _ Hv) as [o Ho].
  rewrite (bind_run _ _ _ _ _ (load_run _ _ _ Ho)). cbv beta.
  destruct (Z.eqb_spec (last_update_color (entity_of o)) T) as [Htag|Htag];
    [exists s; split; [reflexivity | apply idle_pass_refl, Hwf]|].
  destruct o as [c|f]; [destruct Htag; apply (Htagged p c Ho)|].
  pose proof (wf_valid _ _ _ _ _ _ Hwf _ _ Ho) as [Hty Hclump].
  rewrite (bind_run _ _ _ _ _ (store_run p _ _ s Ho)). cbv beta.
  cbn [entity_of set_entity]. rewrite Hty. cbn [entity_type_eqb negb].
  eexists. split; [reflexivity|].
  constructor; auto.
  - unfold well_formed, wf_state. cbn.
    eapply wf_parts_store; [exact Ho | | | exact Hwf].
    + split; [reflexivity | exact Hclump].
    + auto.
  - intros q c. cbn. destruct (decide (q = p)) as [->|Hne].
    + rewrite (lookup_heap_insert _ _ _ _ Ho).
      split; [intros [=]|].
      intros E. pose proof (lookup_agree _ _ _ _ E Ho) as [=].
    + rewrite list_lookup_insert_ne by done. reflexivity.
  - intros q f0 Hf0. cbn. destruct (decide (q = p)) as [->|Hne].
    + rewrite (lookup_heap_insert _ _ _ _ Ho). eexists. split; [reflexivity|].
      cbn. pose proof (lookup_agree _ _ _ _ Hf0 Ho) as [= ->]. reflexivity.
    + rewrite list_lookup_insert_ne by done. eauto.
Qed.

Lemma for_each_sure {A} (I : State -> Prop) (body : A -> M unit) l :
  (forall a s, a ∈ l -> I s -> exists s', body a s = Ok tt s' /\ I s') ->
  forall s, I s -> exists s', for_each l body s = Ok tt s' /\ I s'.
Proof.
  induction l as [|a l IH]; intros Hbody s HI; [exists s; auto|].
  cbn [for_each].
  destruct (Hbody a s ltac:(apply elem_of_cons; auto) HI) as (s1 & Hrun & HI1).
  rewrite (bind_run _ _ _ _ _ Hrun).
  apply IH; [|exact HI1]. intros b s2 Hb. apply Hbody, elem_of_cons. auto.
Qed.

(** X24.  A pass over a well-formed world all of whose cells carry the
    tag already, as they do after a pass with the same tag, returns
    whatever the fuel and moves nothing: the board, the anchors, the log
    and the random source are as before and every cell is unchanged; all
    that can differ is the tag of a Food. *)
Theorem update_world_second_pass T fuel s :
  well_formed s ->
  (forall q c, heap s !! q = Some (Some (ObjCell c)) ->
     last_update_color (cell_entity c) = T) ->
  exists s',
    update_world fuel T s = Ok tt s' /\
    world s' = world s /\
    events s' = events s /\
    drawn s' = drawn s /\
    (forall q c, heap s' !! q = Some (Some (ObjCell c)) <->
                 heap s !! q = Some (Some (ObjCell c))) /\
    (forall q f, heap s !! q = Some (Some (ObjFood f)) ->
       exists f', heap s' !! q = Some (Some (ObjFood f')) /\
                  clump f' = clump f).
Proof.
  intros Hwf Htagged. unfold update_world.
  rewrite (bind_run get_world _ s _ _ eq_refl). cbv beta.
  destruct (for_each_sure
              (fun s' => idle_pass s s')
              (fun cy => for_each (seqZ 0 (width (world s))) (fun cx =>
                 entity_update fuel {| x := cx; y := cy |} T))
              (seqZ 0 (height (world s)))) with (s := s)
    as (s' & Hrun & Hidle); [|apply idle_pass_refl, Hwf|].
  - intros cy sa Hcy Ha. apply elem_of_seqZ in Hcy.
    apply (for_each_sure (fun s' => idle_pass s s')); [|exact Ha].
    intros cx sb Hcx Hb. apply elem_of_seqZ in Hcx.
    destruct (entity_update_idle T fuel {| x := cx; y := cy |} sb)
      as (sc & Hrunc & Hc).
    + apply Hb.
    + rewrite (ip_world _ _ Hb). apply coord_in_bounds_spec. cbn. lia.
    + intros q c Hq. apply (Htagged q c). apply (ip_cells _ _ Hb). exact Hq.
    + exists sc. split; [exact Hrunc | eapply idle_pass_trans; eauto].
  - exists s'. split; [exact Hrun|]. destruct Hidle. auto.
Qed.

(** * Mitosis *)



(** * The tags after a pass *)

Lemma for_each_app {A} (l1 l2 : list A) (body : A -> M unit) s :
  for_each (l1 ++ l2) body s
  = match for_each l1 body s with
    | Ok _ s1 => for_each l2 body s1
    | Err f => Err f
    end.
Proof.
  revert s. induction l1 as [|a l1 IH]; intros s; [reflexivity|].
  cbn [for_each app]. unfold mbind, M_bind.
  destruct (body a s) as [u s1|f]; [apply IH | reflexivity].
Qed.

Lemma for_each_map {A B} (f : A -> B) (l : list A) (body : B -> M unit) s :
  for_each (map f l) body s = for_each l (fun a => body (f a)) s.
Proof.
  revert s. induction l as [|a l IH]; intros s; [reflexivity|].
  cbn [for_each map]. unfold mbind, M_bind.
  destruct (body (f a) s) as [u s1|e]; [apply IH | reflexivity].
Qed.

Lemma for_each_rows (w : World) (body : Coord -> M unit) rows s :
  for_each rows (fun row =>
    for_each (seqZ 0 (width w)) (fun col => body {| x := col; y := row |})) s
  = for_each (flat_map (scan_row w) rows) body s.
Proof.
  revert s. induction rows as [|row rows IH]; intros s; [reflexivity|].
  cbn [for_each flat_map]. rewrite for_each_app.
  unfold scan_row at 1. rewrite for_each_map.
  unfold mbind, M_bind.
  destruct (for_each (seqZ 0 (width w)) _ s) as [u s1|f];
    [apply IH | reflexivity].
Qed.

(** The two loops of [update_world] are one loop over [scan_order]. *)
Lemma update_world_flat fuel T s :
  update_world fuel T s = scan fuel T (scan_order (world s)) s.
Proof.
  unfold update_world, scan, scan_order.
  rewrite (bind_run get_world _ s _ _ eq_refl). cbv beta.
  apply (for_each_rows (world s) (fun c => entity_update fuel c T)).
Qed.

Lemma scan_snoc fuel T d a s0 s s' :
  scan fuel T d s0 = Ok tt s ->
  entity_update fuel a T s = Ok tt s' ->
  scan fuel T (d ++ [a]) s0 = Ok tt s'.
Proof.
  unfold scan. intros Hd Ha. rewrite for_each_app, Hd.
  cbn [for_each]. unfold mbind, M_bind. rewrite Ha. reflexivity.
Qed.

Lemma scan_order_in_bounds c w :
  c ∈ scan_order w -> coord_in_bounds c w = true.
Proof.
  unfold scan_order. intros Hc.
  apply list_elem_of_In, in_flat_map in Hc as (row & Hrow & Hc).
  apply list_elem_of_In, elem_of_seqZ in Hrow.
  apply list_elem_of_In in Hc. unfold scan_row in Hc.
  apply list_elem_of_fmap in Hc as (col & -> & Hcol).
  apply elem_of_seqZ in Hcol.
  apply coord_in_bounds_spec. cbn. lia.
Qed.

Lemma snoc_split {A} (d : list A) a l1 c l2 :
  d ++ [a] = l1 ++ c :: l2 ->
  (l1 = d /\ c = a /\ l2 = []) \/
  exists l2', l2 = l2' ++ [a] /\ d = l1 ++ c :: l2'.
Proof.
  destruct l2 as [|b l2 _] using rev_ind; intros H.
  - apply app_inj_tail in H as [-> ->]. left. auto.
  - right. exists l2.
    change (l1 ++ c :: l2 ++ [b]) with (l1 ++ (c :: l2) ++ [b]) in H.
    rewrite app_assoc in H. apply app_inj_tail in H as [-> ->].
    split; reflexivity.
Qed.

Lemma tag_inv_init fuel T s : well_formed s -> tag_inv fuel T s [] s.
Proof.
  intros Hwf. constructor; auto.
  - intros l1 c l2 s1 p f H. destruct l1; discriminate H.
Qed.

(** What [entity_update] leaves of an object it does not tag. *)
Lemma update_post_kept T pos s s' p o :
  well_formed s ->
  update_post T pos s s' ->
  heap s' !! p = Some (Some o) ->
  last_update_color (entity_of o) <> T ->
  heap s !! p = Some (Some o).
Proof.
  intros Hwf Hup Ho Htag.
  destruct (decide (p < length (heap s))%nat) as [Hlt|Hge].
  2: { destruct (up_new _ _ _ _ Hup p o ltac:(lia) Ho) as (c & -> & Hc).
       cbn in Htag. congruence. }
  destruct (decide (entities (world s) !! slot_of s pos = Some (Some p)))
    as [Hat|Hnot].
  2: { eapply eq_trans; [|exact Ho]. symmetry.
       apply (up_heap _ _ _ _ Hup p Hnot Hlt). }
  destruct (wf_live _ _ _ _ _ _ Hwf _ _ Hat) as [o0 Ho0].
  destruct o0 as [c0|f0].
  - destruct (up_cell _ _ _ _ Hup p c0 Hat Ho0) as [Hsame Hact].
    destruct (decide (last_update_color (cell_entity c0) = T)) as [Ht|Ht].
    + rewrite (Hsame Ht) in Ho. exact Ho.
    + destruct (Hact Ht) as (_ & [Hdead|(c' & Hc' & Ht')]).
      * pose proof (lookup_agree _ _ _ _ Ho Hdead) as E. discriminate E.
      * pose proof (lookup_agree _ _ _ _ Ho Hc') as E.
        injection E as ->. cbn in Htag. congruence.
  - destruct (up_food _ _ _ _ Hup p f0 Hat Ho0) as ((f' & Hf' & _ & Ht') & _).
    pose proof (lookup_agree _ _ _ _ Ho Hf') as E.
    injection E as ->. cbn in Htag. congruence.
Qed.

(** A Food that carries the tag carries it after any update. *)
Lemma update_post_tagged_food T pos s s' p f :
  well_formed s ->
  update_post T pos s s' ->
  heap s !! p = Some (Some (ObjFood f)) ->
  last_update_color (food_entity f) = T ->
  exists f', heap s' !! p = Some (Some (ObjFood f')) /\
             last_update_color (food_entity f') = T.
Proof.
  intros Hwf Hup Hf Ht.
  destruct (decide (entities (world s) !! slot_of s pos = Some (Some p)))
    as [Hat|Hnot].
  - destruct (up_food _ _ _ _ Hup p f Hat Hf) as ((f' & Hf' & _ & Ht') & _).
    eauto.
  - exists f. split; [|exact Ht].
    eapply eq_trans; [|exact Hf].
    apply (up_heap _ _ _ _ Hup p Hnot). eapply lookup_lt_Some; eauto.
Qed.

Lemma tag_inv_step fuel T s0 d pos s s' :
  tag_inv fuel T s0 d s ->
  entity_update fuel pos T s = Ok tt s' ->
  update_post T pos s s' ->
  tag_inv fuel T s0 (d ++ [pos]) s'.
Proof.
  intros Hinv Hrun Hup.
  pose proof (ti_wf _ _ _ _ _ Hinv) as Hwf.
  assert (Hslot : slot_of s pos = slot_of s0 pos)
    by (unfold slot_of; rewrite (ti_width _ _ _ _ _ Hinv); reflexivity).
  constructor.
  - eapply scan_snoc; [apply Hinv | exact Hrun].
  - apply Hup.
  - rewrite (up_width _ _ _ _ Hup). apply Hinv.
  - rewrite (up_height _ _ _ _ Hup). apply Hinv.
  - intros p o Ho Htag.
    apply (ti_kept _ _ _ _ _ Hinv p o); [|exact Htag].
    eapply update_post_kept; eauto.
  - intros l1 c l2 s1 p f Hsplit Hs1 Hat Hf.
    apply snoc_split in Hsplit as [(-> & -> & ->)|(l2' & -> & ->)].
    + rewrite (ti_run _ _ _ _ _ Hinv) in Hs1. injection Hs1 as <-.
      rewrite <- Hslot in Hat.
      destruct (up_food _ _ _ _ Hup p f Hat Hf) as ((f' & Hf' & _ & Ht') & _).
      eauto.
    + destruct (ti_found _ _ _ _ _ Hinv l1 c l2' s1 p f eq_refl Hs1 Hat Hf)
        as (f1 & Hf1 & Ht1).
      eapply update_post_tagged_food; eauto.
  - intros p f Hf.
    destruct (ti_missed _ _ _ _ _ Hinv p f Hf)
      as [Hsame|(l1 & c & l2 & s1 & f1 & -> & Hs1 & Hat & Hf1)].
    + destruct (decide (entities (world s) !! slot_of s pos = Some (Some p)))
        as [Hat|Hnot].
      * right. exists d, pos, [], s, f. rewrite <- Hslot.
        split; [reflexivity|]. split; [apply Hinv|]. split; assumption.
      * left. eapply eq_trans; [|exact Hsame].
        apply (up_heap _ _ _ _ Hup p Hnot). eapply lookup_lt_Some; eauto.
    + right. exists l1, c, (l2 ++ [pos]), s1, f1.
      split; [rewrite <- app_assoc; reflexivity|]. auto.
Qed.

Lemma scan_tags fuel T s s' :
  well_formed s ->
  scan fuel T (scan_order (world s)) s = Ok tt s' ->
  tag_inv fuel T s (scan_order (world s)) s'.
Proof.
  intros Hwf Hrun.
  refine (fine_Ok _ _ _ _
            (for_each_fine (fun d s1 => tag_inv fuel T s d s1)
               (fun c => entity_update fuel c T) (scan_order (world s)) _ s
               (tag_inv_init fuel T s Hwf)) Hrun).
  intros d a r sa Hl Hinv. cbv beta.
  assert (Hin : coord_in_bounds a (world sa) = true).
  { assert (Ha : coord_in_bounds a (world s) = true).
    { apply scan_order_in_bounds. rewrite Hl. apply elem_of_app. right.
      apply elem_of_cons. auto. }
    apply coord_in_bounds_spec. apply coord_in_bounds_spec in Ha.
    rewrite (ti_width _ _ _ _ _ Hinv), (ti_height _ _ _ _ _ Hinv). exact Ha. }
  pose proof (entity_update_fine T fuel a sa (ti_wf _ _ _ _ _ Hinv) Hin)
    as Hfine.
  destruct (entity_update fuel a T sa) as [[] sb|f] eqn:E.
  - cbn in Hfine |- *. eapply tag_inv_step; eauto.
  - exact Hfine.
Qed.

(** C7, as the code has it.  After one call of [update_world] with tag [T]
    every entity on the board carries the tag [T], except possibly a Food
    that was relocated during that pass: nothing tags a Food when it is
    moved.  The pass is the loop [scan] over the coordinates in
    [scan_order], and on a well-formed world the tag of a relocated Food is
    determined.  An entity that ends the pass without the tag is exactly
    as it was before the pass.  A Food that the scan, on reaching a slot,
    finds in that slot, before or after a relocation, ends the pass with
    the tag [T].  And every Food has at the end either been found by the
    scan in this way or is exactly as it was: the Foods left without the
    tag are those that the scan never found and that had another tag, which
    they keep. *)
Theorem update_world_tags fuel T s s' :
  events s = [] ->
  update_world fuel T s = Ok tt s' ->
  (forall c p o,
     coord_in_bounds c (world s') = true ->
     entities (world s') !! Z.to_nat (y c * width (world s') + x c)
       = Some (Some p) ->
     heap s' !! p = Some (Some o) ->
     last_update_color (entity_of o) = T \/
     (type (entity_of o) = ENTITY_TYPE_FOOD /\
      exists src dst, EvRelocate p src dst ∈ events s')) /\
  update_world fuel T s = scan fuel T (scan_order (world s)) s /\
  (well_formed s ->
   (forall p o,
      heap s' !! p = Some (Some o) ->
      last_update_color (entity_of o) <> T ->
      heap s !! p = Some (Some o)) /\
   (forall l1 c l2 s1 p f,
      scan_order (world s) = l1 ++ c :: l2 ->
      scan fuel T l1 s = Ok tt s1 ->
      entities (world s1) !! slot_of s c = Some (Some p) ->
      heap s1 !! p = Some (Some (ObjFood f)) ->
      exists f', heap s' !! p = Some (Some (ObjFood f')) /\
                 last_update_color (food_entity f') = T) /\
   (forall p f,
      heap s !! p = Some (Some (ObjFood f)) ->
      heap s' !! p = Some (Some (ObjFood f)) \/
      exists l1 c l2 s1 f1,
        scan_order (world s) = l1 ++ c :: l2 /\
        scan fuel T l1 s = Ok tt s1 /\
        entities (world s1) !! slot_of s c = Some (Some p) /\
        heap s1 !! p = Some (Some (ObjFood f1)))).
Proof.
  intros Hev H. split; [|split; [apply update_world_flat|]].
  - intros c p o Hc Hslot Ho.
    pose proof (update_world_inv T fuel s tt s' Hev H) as Hinv.
    pose proof (pi_width _ _ _ _ Hinv) as Hw.
    pose proof (pi_height _ _ _ _ Hinv) as Hh.
    assert (Hin : coord_in_bounds c (world s) = true).
    { apply coord_in_bounds_spec. apply coord_in_bounds_spec in Hc. lia. }
    rewrite Hw in Hslot.
    destruct (pi_visited _ _ _ _ Hinv (slot_of s c) p) with (o := o)
      as [Htag|[Hty Hrel]]; auto.
    + exists c. split; [apply elem_of_scan_order, Hin | reflexivity].
    + right. split; [done|]. apply elem_of_relocated. done.
  - intros Hwf. rewrite update_world_flat in H.
    pose proof (scan_tags fuel T s s' Hwf H) as Hinv.
    split; [exact (ti_kept _ _ _ _ _ Hinv)|].
    split; [exact (ti_found _ _ _ _ _ Hinv) | exact (ti_missed _ _ _ _ _ Hinv)].
Qed.

End engine.

(** * Concrete runs *)

(** ** The example worlds are well-formed *)

Lemma example_cell_valid tag sc f :
  0 < sc < CELL_MITOSIS_THRESHOLD ->
  valid_object (example_cell tag 0 sc f).
Proof.
  intros Hsc. split; [|exact Hsc].
  split; [reflexivity|]. split; [cbn; unfold GENE_COUNT; lia|].
  split; [apply chromosome_big_square_valid | cbn; lia].
Qed.

Lemma example_food_valid tag cl :
  0 <= cl < CLUMP_COUNT -> valid_object (example_food tag cl).
Proof. intros Hcl. split; [reflexivity | exact Hcl]. Qed.

(** The cases of an index into a list of at most [n] entries. *)
Ltac by_slot n j H :=
  lazymatch n with
  | O => try (cbn in H; discriminate H)
  | S ?m => destruct j as [|j]; [cbn in H; try discriminate H | by_slot m j H]
  end.

Ltac example_valid :=
  first [ apply example_cell_valid; unfold CELL_MITOSIS_THRESHOLD; lia
        | apply example_food_valid; unfold CLUMP_COUNT; lia ].

Ltac some_slot :=
  first [ exists 0%nat; reflexivity | exists 1%nat; reflexivity
        | exists 2%nat; reflexivity | exists 3%nat; reflexivity
        | exists 4%nat; reflexivity ].

Ltac wf_example n :=
  constructor;
  [ cbn; lia | cbn; lia | cbn; unfold INT_MAX; lia | reflexivity | reflexivity
  | intros c Hc; apply elem_of_replicate in Hc as [-> _]; cbn; lia
  | intros j p H; by_slot n j H; injection H as <-; eexists; reflexivity
  | intros j1 j2 p H1 H2; by_slot n j1 H1; injection H1 as <-;
    by_slot n j2 H2; reflexivity
  | intros p o H; by_slot n p H; some_slot
  | intros p o H; by_slot n p H; injection H as <-; example_valid ].

Lemma column_state_well_formed : well_formed column_state.
Proof. wf_example 3%nat. Qed.

Lemma full_state_well_formed : well_formed full_state.
Proof. wf_example 3%nat. Qed.

Lemma plaza_state_well_formed : well_formed plaza_state.
Proof. wf_example 9%nat. Qed.

Lemma column_state_synced : synced 0 column_state.
Proof.
  split; [apply column_state_well_formed|].
  intros q c H. by_slot 2%nat q H. injection H as <-. cbn. discriminate.
Qed.

Lemma initial_state_empty p o :
  heap initial_state !! p = Some (Some o) -> False.
Proof. cbn. rewrite lookup_nil. discriminate. Qed.

(** ** Runs for the claims *)

Lemma update_world_acts_once_witness :
  exists s',
    update_world (srand48 0) 50 1 column_state = Ok tt s' /\
    actors (events s') = [0%nat] /\
    NoDup (actors (events s')) /\
    (forall p, p ∈ actors (events s') ->
       exists o, heap column_state !! p = Some (Some o) /\
                 last_update_color (entity_of o) <> 1).
Proof.
  eexists. split; [vm_compute; reflexivity|].
  split; [reflexivity|].
  pose proof (update_world_acts_once (srand48 0) 50 1 column_state _
                eq_refl ltac:(vm_compute; reflexivity)) as (H1 & H2 & _).
  split; [exact H1 | exact H2].
Defined.

Lemma update_world_tags_witness :
  exists s',
    update_world (srand48 0) 50 1 column_state = Ok tt s' /\
    (forall c p o,
       coord_in_bounds c (world s') = true ->
       entities (world s') !! Z.to_nat (y c * width (world s') + x c)
         = Some (Some p) ->
       heap s' !! p = Some (Some o) ->
       last_update_color (entity_of o) = 1 \/
       (type (entity_of o) = ENTITY_TYPE_FOOD /\
        exists src dst, EvRelocate p src dst ∈ events s')) /\
    (forall p o,
       heap s' !! p = Some (Some o) ->
       last_update_color (entity_of o) <> 1 ->
       heap column_state !! p = Some (Some o)) /\
    entities (world s') !! 0%nat = Some (Some 1%nat) /\
    heap s' !! 1%nat = Some (Some (example_food 0 0)).
Proof.
  eexists. split; [vm_compute; reflexivity|].
  destruct (update_world_tags (srand48 0) 50 1 column_state _
              eq_refl ltac:(vm_compute; reflexivity)) as (Hboard & _ & Hwf).
  destruct (Hwf column_state_well_formed) as (Hkept & _ & _).
  split; [exact Hboard|]. split; [exact Hkept|].
  split; reflexivity.
Defined.

(** C7 as stated fails: in the column world the cell steps onto the Food,
    which is relocated to the slot at the top, already scanned; the pass
    ends with the Food still tagged 0. *)
Lemma update_world_tags_counterexample :
  ~ (forall rand48 fuel T s s',
       update_world rand48 fuel T s = Ok tt s' ->
       forall c p o,
         coord_in_bounds c (world s') = true ->
         entities (world s') !! Z.to_nat (y c * width (world s') + x c)
           = Some (Some p) ->
         heap s' !! p = Some (Some o) ->
         last_update_color (entity_of o) = T).
Proof.
  intros H.
  pose proof (H (srand48 0) 50%nat 1 column_state _
                ltac:(vm_compute; reflexivity)
                {| x := 0; y := 0 |} 1%nat (example_food 0 0)
                eq_refl eq_refl eq_refl) as Habs.
  discriminate Habs.
Qed.

Lemma chromosome_big_square_table_witness :
  chromosome_response chromosome_big_square 3 SITUATION_EMPTY
    = Some {| action := ACTION_MOVE_FORWARD; next_state := 4 |} /\
  chromosome_response chromosome_big_square 3 SITUATION_WALL
    = Some {| action := ACTION_TURN_LEFT; next_state := 0 |}.
Proof.
  destruct chromosome_big_square_table as [H _].
  destruct (H 3 ltac:(lia)) as (H1 & _ & _ & H4).
  split; [exact H1 | exact H4].
Defined.

(** C9, what the code does.  [world_new (5, 5)] after [srand48 (0)]: the
    cell in the centre slot carries the unmutated seed chromosome, whose
    fingerprint is 4256784, but its colour is 12842000, the fingerprint of
    the mutated chromosome it was created with. *)
Theorem world_new_ancestor_color :
  exists s' p c,
    world_new (srand48 0) 1000 5 5 initial_state = Ok tt s' /\
    entities (world s') !! 12%nat = Some (Some p) /\
    heap s' !! p = Some (Some (ObjCell c)) /\
    chromosome c = chromosome_big_square /\
    color c = 12842000 /\
    cell_get_color c = Some 4256784.
Proof.
  do 3 eexists. split_and!.
  1: { vm_compute. reflexivity. }
  all: reflexivity.
Qed.

Lemma full_state_saturated : saturated full_state.
Proof.
  intros [cx cy] [Hx Hy]%coord_in_bounds_spec. cbn in Hx, Hy |- *.
  assert (cx = 0) as -> by lia.
  assert (cy = 0 \/ cy = 1 \/ cy = 2) as [-> | [-> | ->]] by lia;
    eexists; reflexivity.
Defined.

Lemma relocate_food_saturated_witness :
  find_nearby_empty (srand48 0) 100 {| x := 0; y := 2 |} full_state
    = Err OutOfFuel /\
  (forall u s',
     relocate_food (srand48 0) 100 {| x := 0; y := 2 |} full_state
       <> Ok u s') /\
  entity_update (srand48 0) 100 {| x := 0; y := 1 |} 1 full_state
    = Err OutOfFuel.
Proof.
  destruct (relocate_food_saturated (srand48 0) 100 {| x := 0; y := 2 |}
              full_state full_state_saturated) as [H1 H2].
  split_and!.
  - apply H1. reflexivity.
  - exact H2.
  - vm_compute. reflexivity.
Defined.

Lemma relocate_food_vacates_witness :
  exists s',
    relocate_food (srand48 0) 50 {| x := 0; y := 2 |} column_state
      = Ok tt s' /\
    entities (world s') = [Some 1%nat; Some 0%nat; None] /\
    (exists q dst,
       coord_in_bounds dst (world column_state) = true /\
       entities (world column_state) !! 2%nat = Some (Some q) /\
       entities (world column_state)
         !! Z.to_nat (y dst * width (world column_state) + x dst)
         = Some None /\
       entities (world s') !! 2%nat = Some None /\
       entities (world s')
         !! Z.to_nat (y dst * width (world column_state) + x dst)
         = Some (Some q)).
Proof.
  eexists. split; [vm_compute; reflexivity|]. split; [reflexivity|].
  destruct (relocate_food_vacates (srand48 0) 50 {| x := 0; y := 2 |}
              column_state tt _ ltac:(vm_compute; reflexivity))
    as [(q & dst & H1 & H2 & H3 & H4 & H5 & _) _].
  exists q, dst. split_and!; assumption.
Defined.

Lemma plaza_cell_at sc : cell_at 0%nat 4 (plaza_with sc).
Proof.
  split_and!; [lia | reflexivity |].
  intros j Hj.
  do 9 (destruct j as [|j]; [first [reflexivity | discriminate Hj]|]).
  discriminate Hj.
Defined.

(** The cell in the centre of the plaza faces north, sees the empty slot
    (1, 0), answers MoveForward, and lands on (1, 2), the slot behind
    it. *)
Lemma move_forward_steps_backward_witness :
  exists s',
    entity_update (srand48 0) 10 {| x := 1; y := 1 |} 1 plaza_state
      = Ok tt s' /\
    faced_situation 0%nat {| x := 1; y := 1 |} plaza_state
      = Ok SITUATION_EMPTY plaza_state /\
    chromosome_response chromosome_big_square 0 SITUATION_EMPTY
      = Some {| action := ACTION_MOVE_FORWARD; next_state := 1 |} /\
    facing_step FACING_NORTH {| x := 1; y := 1 |} 1 = {| x := 1; y := 0 |} /\
    events s' = [EvAct 0%nat ACTION_MOVE_FORWARD] /\
    entities (world s') = [None; None; None;
                           None; None; None;
                           None; Some 0%nat; None] /\
    (let d := facing_step FACING_NORTH {| x := 1; y := 1 |} (-1) in
     d = {| x := 1; y := 2 |} /\
     coord_in_bounds d (world plaza_state) = true /\
     7%nat = Z.to_nat (y d * 3 + x d)).
Proof.
  eexists. split; [vm_compute; reflexivity|].
  split_and!; try reflexivity.
  destruct (move_forward_steps_backward (srand48 0) 10 {| x := 1; y := 1 |} 1
              plaza_state _ 0%nat _ 7%nat
              (plaza_cell_at 250) eq_refl eq_refl ltac:(discriminate)
              ltac:(vm_compute; reflexivity) ltac:(discriminate) eq_refl)
    as (sit & r & _ & _ & _ & Hin & H).
  intros d. split_and!; [reflexivity | exact Hin | exact H].
Defined.



(** A cell with a score of 8 in the centre of the plaza pays 8 for its move
    and is gone; with a score of 9 it stays, in the slot it moved to. *)
Lemma cell_dies_when_score_spent_witness :
  (exists s',
     entity_update (srand48 0) 10 {| x := 1; y := 1 |} 1 (plaza_with 8)
       = Ok tt s' /\
     heap s' !! 0%nat = Some None /\
     entities (world s') !! 7%nat = Some None /\
     forall j, entities (world s') !! j <> Some (Some 0%nat)) /\
  (exists s' c,
     entity_update (srand48 0) 10 {| x := 1; y := 1 |} 1 (plaza_with 9)
       = Ok tt s' /\
     heap s' !! 0%nat = Some (Some (ObjCell c)) /\
     score c = 1 /\
     cell_at 0%nat 7 s').
Proof.
  split.
  - destruct (cell_dies_when_score_spent (srand48 0) 10 {| x := 1; y := 1 |}
                1 (plaza_with 8) 0%nat _ _ _
                (plaza_cell_at 8) eq_refl eq_refl ltac:(discriminate)
                ltac:(vm_compute; reflexivity))
      as (c1 & sit & r & base & Hp1 & _ & _ & _ & Hdead & _).
    vm_compute in Hp1. injection Hp1 as Hc1. subst c1.
    exact (Hdead ltac:(vm_compute; discriminate)).
  - destruct (cell_dies_when_score_spent (srand48 0) 10 {| x := 1; y := 1 |}
                1 (plaza_with 9) 0%nat _ _ _
                (plaza_cell_at 9) eq_refl eq_refl ltac:(discriminate)
                ltac:(vm_compute; reflexivity))
      as (c1 & sit & r & base & Hp1 & Hat1 & _ & _ & _ & Halive).
    pose proof Hp1 as Hp1'.
    vm_compute in Hp1'. injection Hp1' as Hc1. subst c1.
    eexists. eexists. split_and!.
    + exact (Halive ltac:(reflexivity)).
    + exact Hp1.
    + reflexivity.
    + exact Hat1.
Defined.

(** ** Runs for the further properties *)

Lemma facing_turn_value_witness :
  facing_value (facing_turn FACING_NORTH (-1))
    = (facing_value FACING_NORTH + -1) mod 4.
Proof.
  apply (facing_turn_value FACING_NORTH (-1)). unfold INT_MAX. lia.
Defined.

Lemma facing_turn_compose_witness :
  facing_turn (facing_turn FACING_EAST 3) (-2) = facing_turn FACING_EAST (3 + -2).
Proof.
  apply (facing_turn_compose FACING_EAST 3 (-2)); unfold INT_MAX; lia.
Defined.

Lemma facing_step_back_witness :
  let c := {| x := 1; y := 1 |} in
  facing_step (facing_turn FACING_NORTH 2) (facing_step FACING_NORTH c 1) 1
    = c.
Proof.
  intros c.
  pose proof (facing_step_back FACING_NORTH c 1) as H.
  cbv zeta in H. apply H; unfold in_int, INT_MIN, INT_MAX; cbn; lia.
Defined.

Lemma world_get_entity_ref_injective_witness :
  world_get_entity_ref (world plaza_state) {| x := 1; y := 1 |} = Some 4 /\
  0 <= 4 < width (world plaza_state) * height (world plaza_state) /\
  in_int 4.
Proof.
  split; [reflexivity|].
  destruct (world_get_entity_ref_injective (world plaza_state)
              {| x := 1; y := 1 |} {| x := 1; y := 1 |} 4
              ltac:(cbn; unfold INT_MAX; lia) eq_refl eq_refl)
    as (_ & Hrange & _ & Hint).
  split; [exact Hrange | exact Hint].
Defined.

Lemma random_int_range_witness :
  exists v, random_int (srand48 0) (-1) 2 initial_state
              = Ok v (set_drawn 1 initial_state) /\ -1 <= v < 2.
Proof.
  apply (random_int_range (srand48 0) (-1) 2 initial_state);
    unfold in_int, INT_MIN, INT_MAX; lia.
Defined.

Lemma perturb_coord_neighbour_witness :
  exists c',
    perturb_coord (srand48 0) {| x := 1; y := 1 |} initial_state
      = Ok c' (set_drawn 2 initial_state) /\
    Z.abs (x c' - 1) <= 1 /\ Z.abs (y c' - 1) <= 1.
Proof.
  apply (perturb_coord_neighbour (srand48 0) {| x := 1; y := 1 |}
           initial_state); unfold in_int, INT_MIN, INT_MAX; cbn; lia.
Defined.

Lemma cell_get_color_range_witness :
  exists col,
    cell_get_color {| cell_entity := {| type := ENTITY_TYPE_CELL;
                                        last_update_color := 0 |};
                      state := 0; score := 250;
                      chromosome := chromosome_big_square;
                      facing := FACING_NORTH; color := 0 |} = Some col /\
    0 <= col < 2 ^ 24.
Proof.
  apply cell_get_color_range. exact chromosome_big_square_valid.
Defined.

Lemma chromosome_mutate_valid_witness :
  exists c' n,
    chromosome_mutate (srand48 0) chromosome_big_square initial_state
      = Ok c' (set_drawn n initial_state) /\
    valid_chromosome c' /\
    (drawn initial_state + 128 <= n <= drawn initial_state + 256)%nat.
Proof.
  apply (chromosome_mutate_valid (srand48 0) chromosome_big_square
           initial_state chromosome_big_square_valid).
Defined.

Lemma update_world_safe_witness :
  exists f,
    update_world (srand48 0) 20 1 full_state = Err f /\ f = OutOfFuel.
Proof.
  eexists. split; [vm_compute; reflexivity|].
  apply (update_world_safe (srand48 0) 1 20 full_state _
           full_state_well_formed).
  vm_compute. reflexivity.
Defined.

Lemma update_world_well_formed_witness :
  exists s',
    update_world (srand48 0) 50 1 column_state = Ok tt s' /\
    well_formed s' /\
    width (world s') = width (world column_state) /\
    height (world s') = height (world column_state).
Proof.
  eexists. split; [vm_compute; reflexivity|].
  apply (update_world_well_formed (srand48 0) 1 50 column_state _
           column_state_well_formed).
  vm_compute. reflexivity.
Defined.

Lemma update_world_keeps_food_witness :
  exists s',
    update_world (srand48 0) 50 1 column_state = Ok tt s' /\
    exists f' j,
      heap s' !! 1%nat = Some (Some (ObjFood f')) /\
      clump f' = 0 /\
      entities (world s') !! j = Some (Some 1%nat).
Proof.
  eexists. split; [vm_compute; reflexivity|].
  refine (proj1 (update_world_keeps_food (srand48 0) 1 50 column_state _
                   column_state_well_formed _) 1%nat _ eq_refl).
  vm_compute. reflexivity.
Defined.

Lemma update_world_every_cell_acts_witness :
  exists s',
    update_world (srand48 0) 50 1 column_state = Ok tt s' /\
    0%nat ∈ actors (events s') /\
    NoDup (actors (events s')).
Proof.
  eexists. split; [vm_compute; reflexivity|].
  pose proof (update_world_every_cell_acts (srand48 0) 1 50 column_state _
                column_state_well_formed eq_refl
                ltac:(vm_compute; reflexivity)) as [Hacts Hnodup].
  split; [|exact Hnodup].
  refine (Hacts {| x := 0; y := 1 |} 0%nat _ eq_refl eq_refl eq_refl _).
  cbn. discriminate.
Defined.

Lemma world_new_safe_witness :
  exists f,
    world_new (srand48 0) 0 5 5 initial_state = Err f /\ f = OutOfFuel.
Proof.
  eexists. split; [vm_compute; reflexivity|].
  refine (world_new_safe (srand48 0) 0 5 5 initial_state _ _ _ _
            initial_state_empty _);
    first [ vm_compute; reflexivity | unfold INT_MAX; lia ].
Defined.

Lemma world_new_well_formed_witness :
  exists s',
    world_new (srand48 0) 1000 5 5 initial_state = Ok tt s' /\
    well_formed s' /\ width (world s') = 5 /\ height (world s') = 5.
Proof.
  eexists. split; [vm_compute; reflexivity|].
  refine (world_new_well_formed (srand48 0) 1000 5 5 initial_state _ _ _ _
            initial_state_empty _);
    first [ vm_compute; reflexivity | unfold INT_MAX; lia ].
Defined.

Lemma world_new_fresh_witness :
  exists s',
    world_new (srand48 0) 1000 5 5 initial_state = Ok tt s' /\
    ancestor_at 12 s'.
Proof.
  eexists. split; [vm_compute; reflexivity|].
  refine (proj2 (proj2 (world_new_fresh (srand48 0) 1000 5 5 initial_state _
                          _ _ _ initial_state_empty _)));
    first [ vm_compute; reflexivity | unfold INT_MAX; lia ].
Defined.

Lemma world_new_empty_board_witness :
  world_new (srand48 0) 1000 0 5 initial_state = Err Undefined.
Proof.
  apply (world_new_empty_board (srand48 0) 1000 0 5 initial_state); lia.
Defined.

Lemma draw_screen_fills_witness :
  exists fills,
    draw_screen 65280 0 plaza_state = Ok fills plaza_state /\
    length fills = 9%nat /\
    {| fill_x := 8; fill_y := 8; fill_w := 8; fill_h := 8;
       fill_color := 4256784 |} ∈ fills.
Proof.
  destruct (draw_screen_fills 65280 0 plaza_state plaza_state_well_formed)
    as (fills & Hrun & Hlen & _ & Hin); [cbn; lia | cbn; lia |].
  exists fills. split; [exact Hrun|]. split; [exact Hlen|].
  exact (Hin {| x := 1; y := 1 |} eq_refl).
Defined.

Lemma tick_every_cell_acts_witness :
  exists T' s',
    tick (srand48 0) 50 65280 0 0 column_state = Ok T' s' /\
    T' = 1 /\ synced T' s' /\ NoDup (actors (events s')) /\
    (forall q c, heap s' !! q = Some (Some (ObjCell c)) ->
       last_update_color (cell_entity c) = 1).
Proof.
  eexists _, _. split; [vm_compute; reflexivity|].
  pose proof (tick_every_cell_acts (srand48 0) 50 65280 0 0 column_state _ _
                column_state_synced ltac:(vm_compute; reflexivity))
    as (HT & Hsync & _ & Hnodup & Htag).
  split; [exact HT|]. split; [exact Hsync|].
  split; [exact Hnodup | exact Htag].
Defined.

Lemma main_safe_witness :
  (forall f, main (srand48 0) 1000 65280 0 [false; true] initial_state = Err f ->
     f = OutOfFuel) /\
  (forall s', main (srand48 0) 1000 65280 0 [false; true] initial_state
                = Ok tt s' -> well_formed s').
Proof.
  apply (main_safe (srand48 0) 1000 65280 0 [false; true] initial_state).
  exact initial_state_empty.
Defined.

Lemma find_nearby_empty_finds_witness :
  find_nearby_empty (srand48 0) 10 {| x := 3; y := 1 |} plaza_state
    = Err (AssertFailed 258) /\
  exists v s',
    find_nearby_empty (srand48 0) 10 {| x := 1; y := 1 |} plaza_state
      = Ok v s' /\
    entities (world plaza_state) !! slot_of plaza_state v = Some None.
Proof.
  split.
  - apply (proj1 (find_nearby_empty_finds (srand48 0) 10 {| x := 3; y := 1 |}
                    plaza_state eq_refl)). reflexivity.
  - eexists _, _. split; [vm_compute; reflexivity|].
    refine (proj1 (proj2 (proj2 (proj2 (find_nearby_empty_finds (srand48 0)
              10 {| x := 1; y := 1 |} plaza_state eq_refl) eq_refl) _ _ _))).
    vm_compute. reflexivity.
Defined.

Lemma cell_new_orphan_witness :
  exists ch n,
    cell_new (srand48 0) None initial_state
      = Ok 0%nat
           (heap_push (ObjCell ch)
              (set_facing_static 1 (set_drawn n initial_state))) /\
    facing_value (facing ch) = 1 /\
    valid_chromosome (chromosome ch) /\
    cell_get_color ch = Some (color ch).
Proof.
  destruct (cell_new_orphan (srand48 0) initial_state
              ltac:(cbn; unfold INT_MAX; lia))
    as (ch & n & Hrun & _ & _ & _ & _ & Hf & Hv & _ & Hcol).
  exists ch, n. split; [exact Hrun|]. split; [exact Hf|].
  split; [exact Hv | exact Hcol].
Defined.

Lemma entity_update_spares_others_witness :
  exists s',
    entity_update (srand48 0) 50 {| x := 0; y := 2 |} 1 column_state
      = Ok tt s' /\
    heap s' !! 0%nat = Some (Some (example_cell 0 0 250 FACING_NORTH)) /\
    entities (world s') !! 1%nat = Some (Some 0%nat).
Proof.
  eexists. split; [vm_compute; reflexivity|].
  pose proof (entity_update_spares_others (srand48 0) 1 50
                {| x := 0; y := 2 |} column_state _ 0%nat _
                column_state_well_formed eq_refl
                ltac:(vm_compute; reflexivity)
                ltac:(cbn; discriminate) eq_refl) as [Hcell Hslot].
  split; [exact Hcell|]. apply Hslot. reflexivity.
Defined.

Lemma update_world_second_pass_witness :
  exists s',
    update_world (srand48 0) 0 0 column_state = Ok tt s' /\
    world s' = world column_state /\
    events s' = events column_state.
Proof.
  destruct (update_world_second_pass (srand48 0) 0 0 column_state
              column_state_well_formed) as (s' & Hrun & Hw & He & _).
  - intros q c H. by_slot 2%nat q H. injection H as <-. reflexivity.
  - exists s'. auto.
Defined.
